(** * Lantern dependency graph: BaseNode and the first-contentful-paint graphs

    A shallow embedding of
      - lighthouse-core/lib/dependency-graph/base-node.js  (class BaseNode)
      - the LanternFirstContentfulPaint class (getBlockingCpuData,
        getFirstPaintBasedGraph, getOptimisticGraph, getPessimisticGraph)
    and the properties of the graph engine proved over it.

    JavaScript objects live in a heap: a node object is a position of the
    heap, object identity is equality of positions, and a field write is an
    update of the heap at that position.  A position outside the heap plays
    the part of [undefined]: reading a property of it is a TypeError. *)

From Stdlib Require Import ZArith Lia Sorted.
From stdpp Require Import base list strings gmap pretty.

Open Scope Z_scope.
Open Scope nat_scope.

(** ** Outcomes of a call *)

Inductive error :=
| Unimplemented            (* new Error('Unimplemented') *)
| ClonedGraphMissingNode   (* new Error('Cloned graph missing node') *)
| TypeError.               (* property access on undefined *)

(** [Diverge] stands for a loop that was cut off by its iteration bound. *)
Inductive outcome (A : Type) :=
| Ok (a : A)
| Throw (e : error)
| Diverge.
Arguments Ok {A} a.
Arguments Throw {A} e.
Arguments Diverge {A}.

#[global] Instance outcome_ret : MRet outcome := @Ok.
#[global] Instance outcome_bind : MBind outcome := fun A B f m =>
  match m with
  | Ok a => f a
  | Throw e => Throw e
  | Diverge => Diverge
  end.

(** ** Node model *)

Abbreviation ref := nat.

(** Modelled from the spec: the NetworkNode and CPUNode subclasses
    (network-node.js, cpu-node.js) are not part of the sources at hand; the
    capability contract the classifier consumes is kept as data.  Times are
    trace timestamps, kept as integers. *)
Record NetworkRecord := mkNetworkRecord {
  url : string;
  renderBlockingPriority : bool;      (* hasRenderBlockingPriority() *)
  initiatorType : string;
  networkStartTime : Z;
  networkEndTime : Z
}.

Record CpuTask := mkCpuTask {
  cpuStartTime : Z;
  cpuEndTime : Z;
  childEvents : list string;          (* the names of the child events, in order *)
  evaluateScriptUrls : list string;   (* the urls its EvaluateScript events run *)
  performedLayout : bool              (* didPerformLayout() *)
}.

Inductive NodeKind :=
| Base                                (* a plain BaseNode: its accessors throw *)
| Network (record : NetworkRecord)
| CPU (task : CpuTask).

Inductive NodeType := NETWORK_TYPE | CPU_TYPE.   (* BaseNode.TYPES *)

Record Node := mkNode {
  _id : string;
  _isMainDocument : bool;
  _dependents : list ref;
  _dependencies : list ref;
  kind : NodeKind
}.

Abbreviation heap := (list Node).

(** constructor(id) *)
Definition newBaseNode (id : string) (k : NodeKind) : Node :=
  mkNode id false [] [] k.

Definition setIsMainDocument (value : bool) (n : Node) : Node :=
  mkNode (_id n) value (_dependents n) (_dependencies n) (kind n).

Definition setDependents (l : list ref) (n : Node) : Node :=
  mkNode (_id n) (_isMainDocument n) l (_dependencies n) (kind n).

Definition setDependencies (l : list ref) (n : Node) : Node :=
  mkNode (_id n) (_isMainDocument n) (_dependents n) l (kind n).

(** Dereferencing; [undefined.prop] throws. *)
Definition getNode (r : ref) (h : heap) : outcome Node :=
  match h !! r with
  | Some n => Ok n
  | None => Throw TypeError
  end.

(** get type / startTime / endTime: unimplemented on the base class. *)
Definition nodeType (n : Node) : outcome NodeType :=
  match kind n with
  | Base => Throw Unimplemented
  | Network _ => Ok NETWORK_TYPE
  | CPU _ => Ok CPU_TYPE
  end.

Definition startTime (n : Node) : outcome Z :=
  match kind n with
  | Base => Throw Unimplemented
  | Network r => Ok (networkStartTime r)
  | CPU t => Ok (cpuStartTime t)
  end.

Definition endTime (n : Node) : outcome Z :=
  match kind n with
  | Base => Throw Unimplemented
  | Network r => Ok (networkEndTime r)
  | CPU t => Ok (cpuEndTime t)
  end.

Definition getDependents (n : Node) : list ref := _dependents n.
Definition getDependencies (n : Node) : list ref := _dependencies n.
Definition getNumberOfDependencies (n : Node) : nat := length (_dependencies n).

(** ** Edge operations *)

(** Array.prototype.indexOf; [None] is the -1 of a missing element. *)
Fixpoint indexOf (x : ref) (l : list ref) : option nat :=
  match l with
  | [] => None
  | y :: l' => if decide (y = x) then Some 0 else S <$> indexOf x l'
  end.

(** arr.splice(i, 1): a negative start counts from the end, so
    splice(-1, 1) takes the last element away. *)
Definition splice1 (i : option nat) (l : list ref) : list ref :=
  match i with
  | Some i => delete i l
  | None => removelast l
  end.

(** addDependency(node): [this] and [node] may be the same object, so the
    second write reads the heap the first write left. *)
Definition addDependency (this node : ref) (h : heap) : outcome heap :=
  t ← getNode this h;
  if bool_decide (node ∈ _dependencies t) then Ok h
  else
    n ← getNode node h;
    let h1 := alter (fun n => setDependents (_dependents n ++ [this]) n) node h in
    Ok (alter (fun t => setDependencies (_dependencies t ++ [node]) t) this h1).

Definition addDependent (this node : ref) (h : heap) : outcome heap :=
  addDependency node this h.

Definition removeDependency (this node : ref) (h : heap) : outcome heap :=
  t ← getNode this h;
  if negb (bool_decide (node ∈ _dependencies t)) then Ok h
  else
    n ← getNode node h;
    let thisIndex := indexOf this (_dependents n) in
    let h1 := alter (fun n => setDependents (splice1 thisIndex (_dependents n)) n) node h in
    Ok (alter (fun t => setDependencies
                 (splice1 (indexOf node (_dependencies t)) (_dependencies t)) t) this h1).

Definition removeDependent (this node : ref) (h : heap) : outcome heap :=
  removeDependency node this h.

(** removeAllDependencies: iterates over a snapshot of the list. *)
Fixpoint removeEach (this : ref) (snapshot : list ref) (h : heap) : outcome heap :=
  match snapshot with
  | [] => Ok h
  | node :: rest => h' ← removeDependency this node h; removeEach this rest h'
  end.

Definition removeAllDependencies (this : ref) (h : heap) : outcome heap :=
  t ← getNode this h;
  removeEach this (_dependencies t) h.

(** getRootNode: follows the first dependency while there is one. *)
Fixpoint getRootNode_loop (fuel : nat) (rootNode : ref) (h : heap) : outcome ref :=
  match fuel with
  | 0 => Diverge
  | S fuel' =>
      n ← getNode rootNode h;
      match _dependencies n with
      | [] => Ok rootNode
      | d :: _ => getRootNode_loop fuel' d h
      end
  end.

(** A chain of first dependencies that does not close has at most
    [length h] nodes. *)
Definition getRootNode (this : ref) (h : heap) : outcome ref :=
  getRootNode_loop (S (length h)) this h.

(** ** traverse *)

(** A callback closes over local variables of its caller (a set, a map, an
    array): they are the accumulator [A]; it may also write to the heap. *)
Definition Callback (A : Type) : Type :=
  ref → list ref → A → heap → outcome (A * heap).

(** The [for (const nextNode of getNextNodes(node))] loop. *)
Fixpoint enqueueNext (h : heap) (traversalPath : list ref) (nextNodes : list ref)
    (visited : gset string) (queue : list (list ref))
  : outcome (gset string * list (list ref)) :=
  match nextNodes with
  | [] => Ok (visited, queue)
  | nextNode :: rest =>
      n ← getNode nextNode h;
      if bool_decide (_id n ∈ visited) then enqueueNext h traversalPath rest visited queue
      else enqueueNext h traversalPath rest
             ({[ _id n ]} ∪ visited) (queue ++ [nextNode :: traversalPath])
  end.

(** The [while (queue.length)] loop. *)
Fixpoint traverse_loop {A : Type} (fuel : nat) (callback : Callback A)
    (getNextNodes : Node → list ref)
    (visited : gset string) (queue : list (list ref)) (a : A) (h : heap)
  : outcome (A * heap) :=
  match fuel with
  | 0 => Diverge
  | S fuel' =>
      match queue with
      | [] => Ok (a, h)
      | traversalPath :: queue' =>
          match traversalPath with
          | [] => Throw TypeError
          | node :: _ =>
              '(a', h') ← callback node traversalPath a h;
              n ← getNode node h';
              '(visited', queue'') ←
                 enqueueNext h' traversalPath (getNextNodes n) visited queue';
              traverse_loop fuel' callback getNextNodes visited' queue'' a' h'
          end
      end
  end.

(** traverse(callback, getNextNodes); the ids seen bound the iterations. *)
Definition traverse {A : Type} (callback : Callback A)
    (getNextNodes : option (Node → list ref)) (this : ref) (a : A) (h : heap)
  : outcome (A * heap) :=
  let next := default getDependents getNextNodes in
  n ← getNode this h;
  traverse_loop (S (length h)) callback next {[ _id n ]} [[this]] a h.

(** ** hasCycle *)

Inductive direction := dependents | dependencies | both.

(** Array.prototype.pop on a non-empty array. *)
Definition pop {A : Type} (l : list A) : option (A * list A) :=
  match last l with
  | Some x => Some (x, removelast l)
  | None => None
  end.

(** while (currentPath.length > depthAdded.get(currentNode)) currentPath.pop();
    a comparison with [undefined] is false. *)
Definition trimPath (depth : option nat) (currentPath : list ref) : list ref :=
  match depth with
  | Some d => take d currentPath
  | None => currentPath
  end.

(** The [for (const nextNode of nodesToExplore)] loop. *)
Fixpoint pushNext (pathLength : nat) (nodesToExplore : list ref)
    (toVisit : list ref) (depthAdded : gmap ref nat) : list ref * gmap ref nat :=
  match nodesToExplore with
  | [] => (toVisit, depthAdded)
  | nextNode :: rest =>
      if bool_decide (nextNode ∈ toVisit) then pushNext pathLength rest toVisit depthAdded
      else pushNext pathLength rest (toVisit ++ [nextNode])
             (<[nextNode := pathLength]> depthAdded)
  end.

(** direction === 'dependents' ? currentNode._dependents : currentNode._dependencies *)
Definition nodesToExplore (dir : direction) (n : Node) : list ref :=
  match dir with
  | dependents => _dependents n
  | _ => _dependencies n
  end.

Fixpoint hasCycle_loop (fuel : nat) (dir : direction) (visited : gset ref)
    (currentPath toVisit : list ref) (depthAdded : gmap ref nat) (h : heap)
  : outcome (bool * heap) :=
  match fuel with
  | 0 => Diverge
  | S fuel' =>
      match pop toVisit with
      | None => Ok (false, h)
      | Some (currentNode, toVisit') =>
          if bool_decide (currentNode ∈ currentPath) then Ok (true, h)
          else if bool_decide (currentNode ∈ visited) then
            hasCycle_loop fuel' dir visited currentPath toVisit' depthAdded h
          else
            let currentPath' :=
              trimPath (depthAdded !! currentNode) currentPath ++ [currentNode] in
            n ← getNode currentNode h;
            let '(toVisit'', depthAdded') :=
              pushNext (length currentPath') (nodesToExplore dir n) toVisit' depthAdded in
            hasCycle_loop fuel' dir ({[ currentNode ]} ∪ visited)
              currentPath' toVisit'' depthAdded' h
      end
  end.

(** Every iteration pops one entry and only a node met for the first time
    pushes, one entry per edge at most. *)
Definition hasCycle_fuel (h : heap) : nat :=
  2 + length h
    + foldr (fun n acc => length (_dependents n) + length (_dependencies n) + acc) 0 h.

Definition hasCycle_dir (node : ref) (dir : direction) (h : heap) : outcome (bool * heap) :=
  hasCycle_loop (hasCycle_fuel h) dir ∅ [] [node] {[ node := 0 ]} h.

(** static hasCycle(node, direction = 'both') *)
Definition hasCycle (node : ref) (dir : option direction) (h : heap)
  : outcome (bool * heap) :=
  match default both dir with
  | both =>
      '(b, h1) ← hasCycle_dir node dependents h;
      if (b : bool) then Ok (true, h1) else hasCycle_dir node dependencies h1
  | d => hasCycle_dir node d h
  end.

(** ** Cloning *)

(** cloneWithoutRelationships: a new object with the id and the
    main-document flag of this one.  The base class builds a BaseNode; the
    overrides of NetworkNode and CPUNode, which are not among the sources,
    are taken to build a node of their own variant over the same record or
    task, so the variant is carried over. *)
Definition cloneNode (n : Node) : Node :=
  setIsMainDocument (_isMainDocument n) (newBaseNode (_id n) (kind n)).

Definition cloneWithoutRelationships (this : ref) (h : heap) : outcome (ref * heap) :=
  n ← getNode this h;
  let node := cloneNode n in
  Ok (length h, h ++ [node]).

(** A predicate is a function of the node it is given; it may throw. *)
Definition Predicate : Type := Node → outcome bool.

(** node => idsToInclude.add(node.id) *)
Definition addIdCallback : Callback (gset string) := fun node _ ids h =>
  n ← getNode node h;
  Ok ({[ _id n ]} ∪ ids, h).

(** The callback of the first traversal. *)
Definition selectCallback (predicate : Predicate) : Callback (gset string) :=
  fun node _ ids h =>
    n ← getNode node h;
    b ← predicate n;
    if negb b then Ok (ids, h)
    else traverse addIdCallback (Some getDependencies) node ids h.

(** shouldIncludeNode: [None] is the [() => true] of a call without predicate. *)
Definition shouldIncludeNode (idsToInclude : option (gset string)) (n : Node) : bool :=
  match idsToInclude with
  | None => true
  | Some ids => bool_decide (_id n ∈ ids)
  end.

(** The callback of the second traversal. *)
Definition cloneCallback (idsToInclude : option (gset string))
  : Callback (gmap string ref) :=
  fun originalNode _ idToNodeMap h =>
    n ← getNode originalNode h;
    if negb (shouldIncludeNode idsToInclude n) then Ok (idToNodeMap, h)
    else
      '(clonedNode, h') ← cloneWithoutRelationships originalNode h;
      c ← getNode clonedNode h';
      Ok (<[_id c := clonedNode]> idToNodeMap, h').

(** for (const dependency of originalNode._dependencies) ...;
    [idToNodeMap.get] of a missing id is [undefined], and
    [addDependency(undefined)] throws at [node._dependents]. *)
Fixpoint rewire (idToNodeMap : gmap string ref) (clonedNode : option ref)
    (deps : list ref) (h : heap) : outcome heap :=
  match deps with
  | [] => Ok h
  | dependency :: rest =>
      d ← getNode dependency h;
      c ← from_option Ok (Throw TypeError) clonedNode;
      match idToNodeMap !! _id d with
      | None => getNode c h ≫= fun _ => Throw TypeError
      | Some clonedDependency =>
          h' ← addDependency c clonedDependency h;
          rewire idToNodeMap clonedNode rest h'
      end
  end.

(** The callback of the third traversal. *)
Definition rewireCallback (idsToInclude : option (gset string))
    (idToNodeMap : gmap string ref) : Callback unit :=
  fun originalNode _ _ h =>
    n ← getNode originalNode h;
    if negb (shouldIncludeNode idsToInclude n) then Ok ((), h)
    else
      h' ← rewire idToNodeMap (idToNodeMap !! _id n) (_dependencies n) h;
      Ok ((), h').

(** The inclusion set of a call with a predicate. *)
Definition computeIdsToInclude (rootNode : ref) (predicate : option Predicate) (h : heap)
  : outcome (option (gset string) * heap) :=
  match predicate with
  | None => Ok (None, h)
  | Some p =>
      '(ids, h') ← traverse (selectCallback p) None rootNode ∅ h;
      Ok (Some ids, h')
  end.

(** cloneWithRelationships up to, and without, its last two lines: the root,
    the inclusion set and the map of the clones. *)
Definition cloneGraph (this : ref) (predicate : option Predicate) (h : heap)
  : outcome (gmap string ref * heap) :=
  rootNode ← getRootNode this h;
  '(idsToInclude, h0) ← computeIdsToInclude rootNode predicate h;
  '(idToNodeMap, h1) ← traverse (cloneCallback idsToInclude) None rootNode ∅ h0;
  '(_, h2) ← traverse (rewireCallback idsToInclude idToNodeMap) None rootNode () h1;
  Ok (idToNodeMap, h2).

Definition cloneWithRelationships (this : ref) (predicate : option Predicate) (h : heap)
  : outcome (ref * heap) :=
  '(idToNodeMap, h') ← cloneGraph this predicate h;
  t ← getNode this h';
  match idToNodeMap !! _id t with
  | None => Throw ClonedGraphMissingNode
  | Some clone => Ok (clone, h')
  end.

(** ** The first-contentful-paint classifier *)

(** A JavaScript [Set] read in insertion order. *)
Definition setAdd {A : Type} `{EqDecision A} (x : A) (s : list A) : list A :=
  if bool_decide (x ∈ s) then s else s ++ [x].

Definition setHas {A : Type} `{EqDecision A} (x : A) (s : list A) : bool :=
  bool_decide (x ∈ s).

(** What a set typed [Set<string>] in a comment can hold at run time. *)
Inductive JsValue :=
| JsString (s : string)
| JsObject (r : ref).

#[global] Instance JsValue_eq_dec : EqDecision JsValue.
Proof. solve_decision. Defined.

(** A CPU node in the [cpuNodes] array: the object, and the fields the
    classifier reads from it (nothing writes them in between). *)
Record CpuNodeEntry := mkCpuNodeEntry {
  cpuRef : ref;
  cpuId : string;
  cpuTask : CpuTask
}.

Definition NetworkFilter : Type := NetworkRecord → bool.
Definition CpuFilter : Type := CpuTask → bool.

(** node => { if (node.type === CPU && node.startTime <= fcpTs) cpuNodes.push(node) } *)
Definition collectCpuCallback (fcpTs : Z) : Callback (list CpuNodeEntry) :=
  fun node _ cpuNodes h =>
    n ← getNode node h;
    match kind n with
    | Base => Throw Unimplemented
    | Network _ => Ok (cpuNodes, h)
    | CPU t =>
        if (cpuStartTime t <=? fcpTs)%Z
        then Ok (cpuNodes ++ [mkCpuNodeEntry node (_id n) t], h)
        else Ok (cpuNodes, h)
    end.

(** cpuNodes.sort((a, b) => a.startTime - b.startTime), a stable sort. *)
Fixpoint insertByStartTime (x : CpuNodeEntry) (l : list CpuNodeEntry) : list CpuNodeEntry :=
  match l with
  | [] => [x]
  | y :: l' =>
      if (cpuStartTime (cpuTask x) <=? cpuStartTime (cpuTask y))%Z
      then x :: y :: l'
      else y :: insertByStartTime x l'
  end.

Definition sortByStartTime (l : list CpuNodeEntry) : list CpuNodeEntry :=
  foldr insertByStartTime [] l.

(** Modelled from the spec: LanternMetric.getScriptUrls (lantern-metric.js) is
    not among the sources; section 4.3 step 2 has it collect the urls of the
    NETWORK nodes for which the condition holds. *)
Definition scriptUrlCallback (condition : NetworkRecord → bool) : Callback (list string) :=
  fun node _ scriptUrls h =>
    n ← getNode node h;
    match kind n with
    | Base => Throw Unimplemented
    | CPU _ => Ok (scriptUrls, h)
    | Network r =>
        if condition r then Ok (setAdd (url r) scriptUrls, h) else Ok (scriptUrls, h)
    end.

Definition getScriptUrls (graph : ref) (condition : NetworkRecord → bool) (h : heap)
  : outcome (list string * heap) :=
  traverse (scriptUrlCallback condition) None graph [] h.

(** Modelled from the spec: cpuNode.isEvaluateScriptFor(urls) of cpu-node.js,
    which is not among the sources: the task runs an EvaluateScript event
    for one of the urls. *)
Definition isEvaluateScriptFor (urls : list string) (c : CpuNodeEntry) : bool :=
  existsb (fun u => setHas u urls) (evaluateScriptUrls (cpuTask c)).

(** Modelled from the spec: cpuNode.didPerformLayout() of cpu-node.js. *)
Definition didPerformLayout (c : CpuNodeEntry) : bool := performedLayout (cpuTask c).

(** node.childEvents.some(e => e.name === name) *)
Definition hasChildEvent (name : string) (c : CpuNodeEntry) : bool :=
  setHas name (childEvents (cpuTask c)).

(** The inner [for (const cpuNode of cpuNodes)] loop with its [break]. *)
Fixpoint scanCpuNodes (theUrl : string) (cpuNodes : list CpuNodeEntry)
    (actually : list string) (blockingCpuNodeIds : list JsValue)
  : list string * list JsValue :=
  match cpuNodes with
  | [] => (actually, blockingCpuNodeIds)
  | cpuNode :: rest =>
      if isEvaluateScriptFor [theUrl] cpuNode
      then (setAdd theUrl actually, setAdd (JsObject (cpuRef cpuNode)) blockingCpuNodeIds)
      else scanCpuNodes theUrl rest actually blockingCpuNodeIds
  end.

(** The outer [for (const url of possiblyRenderBlockingScriptUrls)] loop. *)
Fixpoint scanUrls (urls : list string) (cpuNodes : list CpuNodeEntry)
    (actually : list string) (blockingCpuNodeIds : list JsValue)
  : list string * list JsValue :=
  match urls with
  | [] => (actually, blockingCpuNodeIds)
  | u :: rest =>
      let '(actually', ids') := scanCpuNodes u cpuNodes actually blockingCpuNodeIds in
      scanUrls rest cpuNodes actually' ids'
  end.

(** const first = cpuNodes.find(p); if (first) blockingCpuNodeIds.add(first.id) *)
Definition addFirst (p : CpuNodeEntry → bool) (cpuNodes : list CpuNodeEntry)
    (blockingCpuNodeIds : list JsValue) : list JsValue :=
  match find p cpuNodes with
  | Some first => setAdd (JsString (cpuId first)) blockingCpuNodeIds
  | None => blockingCpuNodeIds
  end.

Record BlockingCpuData := mkBlockingCpuData {
  possiblyRenderBlockingScriptUrls : list string;
  actuallyRenderBlockingScriptUrls : list string;
  blockingCpuNodeIds : list JsValue
}.

Definition getBlockingCpuData (graph : ref) (fcpTs : Z) (networkFilter : NetworkFilter)
    (cpuFilter : option CpuFilter) (h : heap) : outcome (BlockingCpuData * heap) :=
  '(collected, h1) ← traverse (collectCpuCallback fcpTs) None graph [] h;
  let cpuNodes := sortByStartTime collected in
  '(possibly, h2) ←
     getScriptUrls graph
       (fun r => (networkEndTime r <=? fcpTs)%Z && networkFilter r) h1;
  let '(actually, ids0) := scanUrls possibly cpuNodes [] [] in
  let ids1 := addFirst didPerformLayout cpuNodes ids0 in
  let ids2 := addFirst (hasChildEvent "Paint") cpuNodes ids1 in
  let ids3 := addFirst (hasChildEvent "ParseHTML") cpuNodes ids2 in
  let ids4 :=
    match cpuFilter with
    | Some f =>
        foldl (fun ids c => setAdd (JsString (cpuId c)) ids) ids3
              (filter (fun c => f (cpuTask c) = true) cpuNodes)
    | None => ids3
    end in
  Ok (mkBlockingCpuData possibly actually ids4, h2).

(** The predicate getFirstPaintBasedGraph hands to cloneWithRelationships. *)
Definition firstPaintPredicate (fcpTs : Z) (data : BlockingCpuData) : Predicate :=
  fun node =>
    match kind node with
    | Base => Throw Unimplemented
    | Network r =>
        if (networkEndTime r >? fcpTs)%Z && negb (_isMainDocument node) then Ok false
        else if setHas (url r) (possiblyRenderBlockingScriptUrls data)
        then Ok (setHas (url r) (actuallyRenderBlockingScriptUrls data))
        else Ok (renderBlockingPriority r)
    | CPU _ => Ok (setHas (JsString (_id node)) (blockingCpuNodeIds data))
    end.

Definition getFirstPaintBasedGraph (dependencyGraph : ref) (fcpTs : Z)
    (blockingScriptFilter : NetworkFilter) (cpuNodeFilter : option CpuFilter) (h : heap)
  : outcome (ref * heap) :=
  '(data, h1) ← getBlockingCpuData dependencyGraph fcpTs blockingScriptFilter cpuNodeFilter h;
  cloneWithRelationships dependencyGraph (Some (firstPaintPredicate fcpTs data)) h1.

(** traceOfTab.timestamps *)
Record TraceOfTab := mkTraceOfTab {
  firstContentfulPaint : Z
}.

Definition optimisticFilter : NetworkFilter := fun r =>
  renderBlockingPriority r && negb (bool_decide (initiatorType r = "script")).

Definition pessimisticFilter : NetworkFilter := fun r =>
  renderBlockingPriority r.

Definition getOptimisticGraph (dependencyGraph : ref) (traceOfTab : TraceOfTab) (h : heap)
  : outcome (ref * heap) :=
  getFirstPaintBasedGraph dependencyGraph (firstContentfulPaint traceOfTab)
    optimisticFilter None h.

Definition getPessimisticGraph (dependencyGraph : ref) (traceOfTab : TraceOfTab) (h : heap)
  : outcome (ref * heap) :=
  getFirstPaintBasedGraph dependencyGraph (firstContentfulPaint traceOfTab)
    pessimisticFilter None h.

(** ** Reading the graph *)

Definition dependentsOf (h : heap) (r : ref) : list ref :=
  from_option _dependents [] (h !! r).

Definition dependenciesOf (h : heap) (r : ref) : list ref :=
  from_option _dependencies [] (h !! r).

Definition idOf (h : heap) (r : ref) : string :=
  from_option _id "" (h !! r).

(** ** Well-formedness of the edge lists *)

(** [a] is in [b]'s dependents exactly when [b] is in [a]'s dependencies. *)
Definition symmetricEdges (h : heap) : Prop :=
  ∀ a b, a < length h → b < length h →
    (a ∈ dependentsOf h b ↔ b ∈ dependenciesOf h a).

(** No edge list names a node twice. *)
Definition noDuplicateEdges (h : heap) : Prop :=
  ∀ r, NoDup (dependentsOf h r) ∧ NoDup (dependenciesOf h r).

(** Every entry of an edge list is a node object. *)
Definition closedEdges (h : heap) : Prop :=
  ∀ r x, x ∈ dependentsOf h r ∨ x ∈ dependenciesOf h r → x < length h.

(** Two nodes whose edge lists agree on membership but not on multiplicity:
    node 0 lists node 1 twice among its dependencies. *)
Definition doubledEdgeHeap : heap :=
  [ mkNode "A" false [] [1; 1] Base;
    mkNode "B" false [0] [] Base ].

(** ** The states the edge operations build *)

Inductive edgeCall :=
| AddDependency (this node : ref)
| AddDependent (this node : ref)
| RemoveDependency (this node : ref)
| RemoveDependent (this node : ref)
| RemoveAllDependencies (this : ref).

Definition runEdgeCall (c : edgeCall) (h : heap) : outcome heap :=
  match c with
  | AddDependency this node => addDependency this node h
  | AddDependent this node => addDependent this node h
  | RemoveDependency this node => removeDependency this node h
  | RemoveDependent this node => removeDependent this node h
  | RemoveAllDependencies this => removeAllDependencies this h
  end.

Fixpoint runEdgeCalls (cs : list edgeCall) (h : heap) : outcome heap :=
  match cs with
  | [] => Ok h
  | c :: rest => h' ← runEdgeCall c h; runEdgeCalls rest h'
  end.

(** Nodes as the constructor leaves them: no edges. *)
Definition freshNodes (h : heap) : Prop :=
  ∀ r, dependentsOf h r = [] ∧ dependenciesOf h r = [].

(** ** Traversal, specified *)

(** The neighbours [getNextNodes] gives for the node at [r]. *)
Definition nextOf (h : heap) (next : Node → list ref) (r : ref) : list ref :=
  from_option next [] (h !! r).

(** [x] can be reached from [start] along [next]. *)
Definition reachable (h : heap) (next : Node → list ref) (start x : ref) : Prop :=
  rtc (fun a b => b ∈ nextOf h next a) start x.

(** A traversal path: the node first, [start] last, each entry a neighbour
    of the entry behind it. *)
Inductive isPath (h : heap) (next : Node → list ref) (start : ref) : list ref → Prop :=
| isPath_start : isPath h next start [start]
| isPath_step n m p :
    isPath h next start (m :: p) → n ∈ nextOf h next m →
    isPath h next start (n :: m :: p).

Definition hd0 (p : list ref) : ref := default 0 (head p).
Arguments hd0 !p /.

(** The calls [traverse] makes, [(node, traversalPath)] in order, when the
    callback leaves the heap alone. *)
Fixpoint visits_loop (fuel : nat) (h : heap) (next : Node → list ref)
    (visited : gset string) (queue : list (list ref)) : outcome (list (ref * list ref)) :=
  match fuel with
  | 0 => Diverge
  | S fuel' =>
      match queue with
      | [] => Ok []
      | traversalPath :: queue' =>
          match traversalPath with
          | [] => Throw TypeError
          | node :: _ =>
              n ← getNode node h;
              '(visited', queue'') ←
                 enqueueNext h traversalPath (next n) visited queue';
              rest ← visits_loop fuel' h next visited' queue'';
              Ok ((node, traversalPath) :: rest)
          end
      end
  end.

Definition visits (h : heap) (next : Node → list ref) (start : ref)
  : outcome (list (ref * list ref)) :=
  n ← getNode start h;
  visits_loop (S (length h)) h next {[ _id n ]} [[start]].

(** Running a callback over a list of calls. *)
Fixpoint runCalls {A : Type} (callback : Callback A) (calls : list (ref * list ref))
    (a : A) (h : heap) : outcome (A * heap) :=
  match calls with
  | [] => Ok (a, h)
  | (node, path) :: rest =>
      '(a', h') ← callback node path a h;
      runCalls callback rest a' h'
  end.

(** The callback that writes its arguments down. *)
Definition recordCalls : Callback (list (ref * list ref)) :=
  fun node traversalPath calls h => Ok (calls ++ [(node, traversalPath)], h).

(** Paths in the order of their length. *)
Definition sortedByLength (l : list (list ref)) : Prop :=
  ∀ i j p q, i ≤ j → l !! i = Some p → l !! j = Some q → length p ≤ length q.

(** The state of the loops of [traverse]: [done] are the paths handed to
    the callback so far, [cur] the last of them, [pend] the neighbours of
    its node the inner loop still has to look at. *)
Record traverseInv (h : heap) (next : Node → list ref) (start : ref)
    (done : list (list ref)) (cur : list ref) (pend : list ref)
    (queue : list (list ref)) (visited : gset string) : Prop := {
  inv_last : last done = Some cur;
  inv_pend : ∀ x, x ∈ pend → x ∈ nextOf h next (hd0 cur);
  inv_paths : ∀ p, p ∈ done ++ queue → isPath h next start p;
  inv_start : [start] ∈ done;
  inv_nodup : NoDup ((fun p => idOf h (hd0 p)) <$> (done ++ queue));
  inv_visited : ∀ s, s ∈ visited ↔ s ∈ ((fun p => idOf h (hd0 p)) <$> (done ++ queue));
  inv_sorted : sortedByLength (done ++ queue);
  inv_bound : ∀ q, q ∈ queue → length q ≤ length cur + 1;
  inv_closure : ∀ d x, d ∈ done → x ∈ nextOf h next (hd0 d) →
      (d = cur ∧ x ∈ pend) ∨
      (∃ p, p ∈ done ++ queue ∧ idOf h (hd0 p) = idOf h x ∧ length p ≤ length d + 1)
}.

(** ** Shapes for hasCycle *)

(** A linear dependency chain laid out in the heap: [c] lists its nodes,
    each depending on the one before it and on nothing else. *)
Definition isChain (h : heap) (c : list ref) : Prop :=
  NoDup c ∧
  ∀ i r, c !! i = Some r →
    ∃ n, h !! r = Some n ∧
         _dependencies n = option_list (match i with 0 => None | S j => c !! j end) ∧
         _dependents n = option_list (c !! S i).

(** Two nodes that depend on each other. *)
Definition mutualHeap : heap :=
  [ mkNode "A" false [1] [1] Base;
    mkNode "B" false [0] [0] Base ].

Definition singleHeap : heap := [ mkNode "A" false [] [] Base ].

(** The chain of [N] nodes, node [i+1] depending on node [i]. *)
Definition chainNode (N i : nat) : Node :=
  mkNode (pretty i) false
    (if decide (S i < N) then [S i] else [])
    (match i with 0 => [] | S j => [j] end)
    Base.

Definition chainHeap (N : nat) : heap := chainNode N <$> seq 0 N.

(** What a search by hasCycle still has to explore: the entries of the
    edge lists, in its direction, of the nodes it has not visited; [k] is
    the position of the first node of [l] in the heap. *)
Fixpoint unexploredFrom (k : nat) (l : list Node) (dir : direction) (visited : gset ref)
  : nat :=
  match l with
  | [] => 0
  | n :: l' =>
      (if decide (k ∈ visited) then 0 else length (nodesToExplore dir n))
      + unexploredFrom (S k) l' dir visited
  end.

(** ** Enumerating a graph *)

(** The nodes of the graph a node belongs to, as the code itself walks a
    graph: from the root, along the dependents. *)
Definition graphNodes (node : ref) (h : heap) : outcome (list ref) :=
  rootNode ← getRootNode node h;
  '(calls, _) ← traverse recordCalls None rootNode [] h;
  Ok (calls.*1).

Definition nodeCount (node : ref) (h : heap) : outcome nat :=
  nodes ← graphNodes node h; Ok (length nodes).

(** The dependency edges leaving the given nodes: pairs (node, dependency). *)
Definition dependencyEdges (h : heap) (nodes : list ref) : list (ref * ref) :=
  nodes ≫= fun a => (fun b => (a, b)) <$> dependenciesOf h a.

(** ** Scenarios for the classifier *)

(** Section 8 of the spec: a render-blocking script that finished at 100 and
    the CPU task that evaluates it, started at 90; first contentful paint at
    150.  Node 0 is the script, node 1 the task. *)
Definition scriptRecord : NetworkRecord :=
  mkNetworkRecord "https://example.com/app.js" true "parser" 0 100.

Definition evaluateTask : CpuTask :=
  mkCpuTask 90 110 ["EvaluateScript"] ["https://example.com/app.js"] false.

Definition classifierScenario : heap :=
  [ mkNode "script" false [1] [] (Network scriptRecord);
    mkNode "cpu-evaluate" false [] [0] (CPU evaluateTask) ].

(** A page whose main document (node 0) is parsed by a CPU task (node 1)
    and loads a render-blocking script that another script injected
    (node 2) and that no task evaluates before the paint. *)
Definition documentRecord : NetworkRecord :=
  mkNetworkRecord "https://example.com/" true "other" 0 50.

Definition parseTask : CpuTask :=
  mkCpuTask 60 70 ["ParseHTML"] [] false.

Definition injectedRecord : NetworkRecord :=
  mkNetworkRecord "https://example.com/injected.js" true "script" 55 100.

Definition injectedScriptPage : heap :=
  [ mkNode "document" true [1; 2] [] (Network documentRecord);
    mkNode "cpu-parse" false [] [0] (CPU parseTask);
    mkNode "injected" false [] [0] (Network injectedRecord) ].

Definition paintAt150 : TraceOfTab := mkTraceOfTab 150.

(** ** Well-formed graphs *)

(** Every node has an id of its own. *)
Definition uniqueIds (h : heap) : Prop := NoDup (_id <$> h).

(** No node depends, over one or more edges, on itself. *)
Definition acyclic (h : heap) : Prop :=
  ∀ x, ¬ tc (fun a b => b ∈ dependenciesOf h a) x x.

(** At most one node has no dependency (a finite acyclic graph has one). *)
Definition singleRoot (h : heap) : Prop :=
  ∀ a b, a < length h → b < length h →
    dependenciesOf h a = [] → dependenciesOf h b = [] → a = b.

(** The graph the heap holds is a well-formed dependency graph. *)
Record wellFormed (h : heap) : Prop := {
  wf_closed : closedEdges h;
  wf_symmetric : symmetricEdges h;
  wf_ids : uniqueIds h;
  wf_acyclic : acyclic h;
  wf_root : singleRoot h
}.

(** ** Cloning, specified *)

#[global] Instance Node_inhabited : Inhabited Node := populate (newBaseNode "" Base).

(** The id is in the inclusion set ([None]: no predicate, all are). *)
Definition includes (idsToInclude : option (gset string)) (s : string) : Prop :=
  match idsToInclude with
  | None => True
  | Some ids => s ∈ ids
  end.

#[global] Instance includes_dec ids s : Decision (includes ids s).
Proof. destruct ids; simpl; apply _. Defined.

(** The nodes of [vs] that get a clone, in the order of [vs]. *)
Definition includedNodes (idsToInclude : option (gset string)) (h : heap) (vs : list ref)
  : list ref :=
  filter (fun v => includes idsToInclude (idOf h v)) vs.

(** The map of the clones when the clones of the nodes with the ids [ids]
    are put at [base], [base + 1], ... *)
Fixpoint cloneMapOf (base : nat) (ids : list string) (m : gmap string ref)
  : gmap string ref :=
  match ids with
  | [] => m
  | s :: rest => cloneMapOf (S base) rest (<[s := base]> m)
  end.

(** The dependency list a run of addDependency calls builds. *)
Definition addEach (acc l : list ref) : list ref :=
  foldl (fun acc x => if bool_decide (x ∈ acc) then acc else acc ++ [x]) acc l.

(** The clone of the node at [x], by its id. *)
Definition cloneOf (idToNodeMap : gmap string ref) (h : heap) (x : ref) : ref :=
  default 0 (idToNodeMap !! idOf h x).

(** The inclusion set is closed under taking dependencies. *)
Definition ancestorClosed (h : heap) (idsToInclude : option (gset string)) : Prop :=
  ∀ v d, v < length h → includes idsToInclude (idOf h v) →
         d ∈ dependenciesOf h v → includes idsToInclude (idOf h d).

(** The number of distinct dependency edges that leave the given nodes. *)
Definition dependencyCount (h : heap) (nodes : list ref) : nat :=
  sum_list_with (fun a => length (remove_dups (dependenciesOf h a))) nodes.

(** The inclusion set cloneWithRelationships computes for a predicate: the
    ids of the nodes from which dependencies lead to a visited node that
    satisfies the predicate (that node included). *)
Definition selects (h : heap) (p : Predicate) (vs : list ref) (ids : gset string) : Prop :=
  ∀ s, s ∈ ids ↔
       ∃ v nv a, v ∈ vs ∧ h !! v = Some nv ∧ p nv = Ok true ∧
                 reachable h getDependencies v a ∧ idOf h a = s.

(** What holds of the heap while the clones get their edges: the original
    nodes are as they were, no object has been added, and the edge lists are
    symmetric and name node objects. *)
Definition rewireInv (h0 : heap) (size : nat) (h : heap) : Prop :=
  h0 `prefix_of` h ∧ length h = size ∧ symmetricEdges h ∧ closedEdges h.

(** What cloneGraph returns on a well-formed graph: [vs] are the nodes in
    the order of the traversal from the root, the [k]-th of those that are
    included has its clone at [length h + k]. *)
Record cloneResult (h : heap) (ids : option (gset string)) (vs : list ref)
    (m : gmap string ref) (h' : heap) : Prop := {
  cr_prefix : h `prefix_of` h';
  cr_length : length h' = length h + length (includedNodes ids h vs);
  cr_map : ∀ k v, includedNodes ids h vs !! k = Some v →
                  m !! idOf h v = Some (length h + k);
  cr_map_inv : ∀ s c, m !! s = Some c →
                  ∃ k v, includedNodes ids h vs !! k = Some v ∧ idOf h v = s ∧
                         c = length h + k;
  cr_id : ∀ k v, includedNodes ids h vs !! k = Some v →
                 idOf h' (length h + k) = idOf h v;
  cr_deps : ∀ k v, includedNodes ids h vs !! k = Some v →
                   dependenciesOf h' (length h + k) =
                   addEach [] (cloneOf m h <$> dependenciesOf h v);
  cr_symmetric : symmetricEdges h';
  cr_closed : closedEdges h'
}.

(** ** Shapes for the claims on cloning *)

(** The chain A -> B -> C -> X: each node is a dependency of the next. *)
Definition chainABCX : heap :=
  [ mkNode "A" false [1] [] Base;
    mkNode "B" false [2] [0] Base;
    mkNode "C" false [3] [1] Base;
    mkNode "X" false [] [2] Base ].

(** node => node.id === 'X' *)
Definition onlyX : Predicate := fun n => Ok (bool_decide (_id n = "X")).

(** () => true *)
Definition alwaysTrue : Predicate := fun _ => Ok true.

(** node => node.id === 'B' *)
Definition onlyB : Predicate := fun n => Ok (bool_decide (_id n = "B")).

(** A diamond: B and C depend on A, D on both. *)
Definition diamondHeap : heap :=
  [ mkNode "A" false [1; 2] [] Base;
    mkNode "B" false [3] [0] Base;
    mkNode "C" false [3] [0] Base;
    mkNode "D" false [] [1; 2] Base ].

(** Two node objects that carry the same id "B", both dependents of A. *)
Definition twinHeap : heap :=
  [ mkNode "A" false [1; 2] [] Base;
    mkNode "B" false [] [0] Base;
    mkNode "B" false [] [0] Base ].

(** A check of well-formedness that can be run. *)
Definition wellFormedb (h : heap) : bool :=
  let n := length h in
  forallb (fun r =>
    forallb (fun x => bool_decide (x < n)) (dependentsOf h r ++ dependenciesOf h r) &&
    forallb (fun x => bool_decide (x < r)) (dependenciesOf h r) &&
    forallb (fun b =>
      bool_decide (r ∈ dependentsOf h b ↔ b ∈ dependenciesOf h r) &&
      bool_decide (dependenciesOf h r = [] → dependenciesOf h b = [] → r = b))
      (seq 0 n))
    (seq 0 n) &&
  bool_decide (NoDup (_id <$> h)).

(** Every node object of [h] is in [h'] what it was in [h]: same id, same
    main-document flag, same edge lists, same variant. *)
Definition unchanged (h h' : heap) : Prop :=
  ∀ r n, h !! r = Some n → h' !! r = Some n.

(** Connected by edges of either kind. *)
Definition connected (h : heap) (a b : ref) : Prop :=
  rtc (fun x y => y ∈ dependentsOf h x ∨ y ∈ dependenciesOf h x) a b.

(** A page whose injected render-blocking script (node 1) is evaluated by a
    CPU task (node 2) before the paint. *)
Definition injectedEvaluateTask : CpuTask :=
  mkCpuTask 110 120 ["EvaluateScript"] ["https://example.com/injected.js"] false.

Definition evaluatedScriptPage : heap :=
  [ mkNode "document" true [1] [] (Network documentRecord);
    mkNode "injected" false [2] [0] (Network injectedRecord);
    mkNode "cpu-evaluate" false [] [1] (CPU injectedEvaluateTask) ].

(** The graph has a network node with render-blocking priority that a
    script initiated. *)
Definition hasBlockingInjectedScript (h : heap) : Prop :=
  ∃ r n record, h !! r = Some n ∧ kind n = Network record ∧
                renderBlockingPriority record = true ∧ initiatorType record = "script".

(** ** Vocabulary of the cloning proofs *)

(** The map of the clones names clones: objects made after [h0]. *)
Definition mapsToClones (h0 : heap) (idToNodeMap : gmap string ref) (h : heap) : Prop :=
  ∀ s c, idToNodeMap !! s = Some c → length h0 ≤ c < length h.

(** The edge lists of the clones name clones. *)
Definition clonesApart (h0 h : heap) : Prop :=
  ∀ r x, length h0 ≤ r → x ∈ dependentsOf h r ∨ x ∈ dependenciesOf h r → length h0 ≤ x.

(** [next] is the reading of one of the two edge lists. *)
Definition edgeReader (next : Node → list ref) : Prop :=
  next = getDependents ∨ next = getDependencies.

(** ** Further vocabulary: what an edge operation never touches *)

(** The fields of a node the edge operations have no business with. *)
Definition payload (n : Node) : string * bool * NodeKind :=
  (_id n, _isMainDocument n, kind n).

(** [b] is explored from [a] in the direction [dir]. *)
Definition edgeOf (h : heap) (dir : direction) (a b : ref) : Prop :=
  b ∈ nextOf h (nodesToExplore dir) a.

(** A state with a forward edge that has no back edge: A lists B among its
    dependencies, B does not list A among its dependents; C and B are
    linked both ways. *)
Definition strayEdgeHeap : heap :=
  [ mkNode "A" false [] [1] Base;
    mkNode "B" false [2] [] Base;
    mkNode "C" false [] [1] Base ].

(** ** The search of hasCycle, specified *)

(** Each entry of the list is explored from the entry before it. *)
Definition follows (h : heap) (dir : direction) (p : list ref) : Prop :=
  ∀ i a b, p !! i = Some a → p !! S i = Some b → edgeOf h dir a b.

(** What holds of the stack of hasCycle between two iterations: no node is
    on it twice; the depths recorded for its entries grow towards the top;
    and for an entry [x] recorded at depth [d], the first [d] nodes of the
    current path followed by [x] lead from the start to [x], edge by edge,
    while [x] is not on the path from position [d] on. *)
Record stackInv (h : heap) (dir : direction) (start : ref)
    (currentPath toVisit : list ref) (depthAdded : gmap ref nat) : Prop := {
  si_nodup : NoDup toVisit;
  si_sorted : ∀ i j x y dx dy, i ≤ j →
    toVisit !! i = Some x → toVisit !! j = Some y →
    depthAdded !! x = Some dx → depthAdded !! y = Some dy → dx ≤ dy;
  si_entry : ∀ x, x ∈ toVisit →
    ∃ d, depthAdded !! x = Some d ∧ d ≤ length currentPath ∧
         follows h dir (take d currentPath ++ [x]) ∧
         head (take d currentPath ++ [x]) = Some start ∧
         x ∉ drop d currentPath
}.

(** A root with two dependents X and Y that depend on each other, Y with a
    further dependent Z: the cycle X, Y is reached from the root. *)
Definition crossEdgeHeap : heap :=
  [ mkNode "R" false [1; 2] [] Base;
    mkNode "X" false [2] [0; 2] Base;
    mkNode "Y" false [1; 3] [0; 1] Base;
    mkNode "Z" false [] [2] Base ].

(** ** Copies *)

(** Every node object of [h] carries the id, the flag and the variant of a
    node object of [h0]. *)
Definition allCopies (h0 h : heap) : Prop :=
  ∀ c nc, h !! c = Some nc → ∃ v nv, h0 !! v = Some nv ∧ payload nc = payload nv.

(** ** The classifier, specified *)

(** An entry of the cpuNodes array stands for a CPU node of the heap that
    started at or before the paint. *)
Definition isCpuEntry (h : heap) (fcpTs : Z) (c : CpuNodeEntry) : Prop :=
  ∃ n, h !! cpuRef c = Some n ∧ kind n = CPU (cpuTask c) ∧ cpuId c = _id n ∧
       (cpuStartTime (cpuTask c) ≤ fcpTs)%Z.

(** The order of cpuNodes.sort. *)
Definition startsBefore (a b : CpuNodeEntry) : Prop :=
  (cpuStartTime (cpuTask a) ≤ cpuStartTime (cpuTask b))%Z.

(** The set blockingCpuNodeIds after the cpuFilter step. *)
Definition addFiltered (cpuFilter : option CpuFilter) (cpuNodes : list CpuNodeEntry)
    (ids : list JsValue) : list JsValue :=
  match cpuFilter with
  | Some f =>
      foldl (fun ids c => setAdd (JsString (cpuId c)) ids) ids
            (filter (fun c => f (cpuTask c) = true) cpuNodes)
  | None => ids
  end.

(** ** The returned graph as a heap of its own *)

(** The node objects made after the first [k], renumbered from 0: what was
    at [k + i] is at [i]. *)
Definition rebaseNode (k : nat) (n : Node) : Node :=
  mkNode (_id n) (_isMainDocument n)
         ((fun x => x - k) <$> _dependents n)
         ((fun x => x - k) <$> _dependencies n)
         (kind n).

Definition rebase (k : nat) (h : heap) : heap := rebaseNode k <$> drop k h.

(** What holds of the search of hasCycle once the start has been visited:
    the path begins at the start; the entries of the stack were recorded at
    a depth of one or more, so cutting the path back leaves the start on
    it; and every node explored from a visited node is visited or on the
    stack. *)
Record coverInv (h : heap) (dir : direction) (start : ref) (visited : gset ref)
    (currentPath toVisit : list ref) (depthAdded : gmap ref nat) : Prop := {
  ci_head : head currentPath = Some start;
  ci_depth : ∀ x, x ∈ toVisit → ∃ d, depthAdded !! x = Some d ∧ 1 ≤ d;
  ci_cover : ∀ x y, x ∈ visited → edgeOf h dir x y → y ∈ visited ∨ y ∈ toVisit
}.

(** A check, that can be run, of the two properties of the edge lists. *)
Definition edgesOkb (h : heap) : bool :=
  let n := length h in
  forallb (fun r =>
    forallb (fun x => bool_decide (x < n)) (dependentsOf h r ++ dependenciesOf h r) &&
    forallb (fun b => bool_decide (r ∈ dependentsOf h b ↔ b ∈ dependenciesOf h r))
      (seq 0 n))
    (seq 0 n).

(** * Edge operations *)

#[global] Arguments getNode : simpl never.

Lemma getNode_Ok r h n : getNode r h = Ok n ↔ h !! r = Some n.
Proof. unfold getNode. destruct (h !! r); split; intros; simplify_eq; done. Qed.

Lemma getNode_lookup r h n : h !! r = Some n → getNode r h = Ok n.
Proof. apply getNode_Ok. Qed.

Lemma dependentsOf_lookup h r n : h !! r = Some n → dependentsOf h r = _dependents n.
Proof. unfold dependentsOf. by intros ->. Qed.

Lemma dependenciesOf_lookup h r n : h !! r = Some n → dependenciesOf h r = _dependencies n.
Proof. unfold dependenciesOf. by intros ->. Qed.

Lemma idOf_lookup h r n : h !! r = Some n → idOf h r = _id n.
Proof. unfold idOf. by intros ->. Qed.

Lemma dependentsOf_invalid h r : length h ≤ r → dependentsOf h r = [].
Proof. intros H. unfold dependentsOf. by rewrite lookup_ge_None_2. Qed.

Lemma dependenciesOf_invalid h r : length h ≤ r → dependenciesOf h r = [].
Proof. intros H. unfold dependenciesOf. by rewrite lookup_ge_None_2. Qed.

(** Writing one edge list of one node. *)
Lemma dependentsOf_alter_dependents g i h r :
  i < length h →
  dependentsOf (alter (fun n => setDependents (g (_dependents n)) n) i h) r
  = (if decide (r = i) then g (dependentsOf h r) else dependentsOf h r).
Proof.
  intros Hi. unfold dependentsOf. destruct (decide (r = i)) as [->|Hne].
  - rewrite list_lookup_alter_eq. destruct (lookup_lt_is_Some_2 h i Hi) as [n ->]. done.
  - by rewrite list_lookup_alter_ne.
Qed.

Lemma dependenciesOf_alter_dependents g i h r :
  dependenciesOf (alter (fun n => setDependents (g n) n) i h) r = dependenciesOf h r.
Proof.
  unfold dependenciesOf. destruct (decide (r = i)) as [->|Hne].
  - rewrite list_lookup_alter_eq. by destruct (h !! i).
  - by rewrite list_lookup_alter_ne.
Qed.

Lemma dependenciesOf_alter_dependencies g i h r :
  i < length h →
  dependenciesOf (alter (fun n => setDependencies (g (_dependencies n)) n) i h) r
  = (if decide (r = i) then g (dependenciesOf h r) else dependenciesOf h r).
Proof.
  intros Hi. unfold dependenciesOf. destruct (decide (r = i)) as [->|Hne].
  - rewrite list_lookup_alter_eq. destruct (lookup_lt_is_Some_2 h i Hi) as [n ->]. done.
  - by rewrite list_lookup_alter_ne.
Qed.

Lemma dependentsOf_alter_dependencies g i h r :
  dependentsOf (alter (fun n => setDependencies (g n) n) i h) r = dependentsOf h r.
Proof.
  unfold dependentsOf. destruct (decide (r = i)) as [->|Hne].
  - rewrite list_lookup_alter_eq. by destruct (h !! i).
  - by rewrite list_lookup_alter_ne.
Qed.

Lemma idOf_alter_dependents g i h r :
  idOf (alter (fun n => setDependents (g n) n) i h) r = idOf h r.
Proof.
  unfold idOf. destruct (decide (r = i)) as [->|Hne].
  - rewrite list_lookup_alter_eq. by destruct (h !! i).
  - by rewrite list_lookup_alter_ne.
Qed.

Lemma idOf_alter_dependencies g i h r :
  idOf (alter (fun n => setDependencies (g n) n) i h) r = idOf h r.
Proof.
  unfold idOf. destruct (decide (r = i)) as [->|Hne].
  - rewrite list_lookup_alter_eq. by destruct (h !! i).
  - by rewrite list_lookup_alter_ne.
Qed.

(** What addDependency does to the edge lists. *)
Lemma addDependency_spec this node h h' :
  addDependency this node h = Ok h' →
  this < length h ∧
  ((node ∈ dependenciesOf h this ∧ h' = h) ∨
   ((node ∉ dependenciesOf h this) ∧ node < length h ∧ length h' = length h ∧
    (∀ r, dependenciesOf h' r =
            (if decide (r = this) then dependenciesOf h r ++ [node] else dependenciesOf h r)) ∧
    (∀ r, dependentsOf h' r =
            (if decide (r = node) then dependentsOf h r ++ [this] else dependentsOf h r)) ∧
    (∀ r, idOf h' r = idOf h r))).
Proof.
  unfold addDependency. intros H.
  destruct (getNode this h) as [t| |] eqn:Ht; simplify_eq/=.
  apply getNode_Ok in Ht. pose proof (lookup_lt_Some _ _ _ Ht) as Hlt.
  split; [done|]. rewrite (dependenciesOf_lookup _ _ _ Ht).
  case_bool_decide as Hin; simplify_eq/=; [left; done|right].
  destruct (getNode node h) as [n| |] eqn:Hn; simplify_eq/=.
  apply getNode_Ok in Hn. pose proof (lookup_lt_Some _ _ _ Hn) as Hlt'.
  split; [done|]. split; [done|]. split; [by rewrite !length_alter|].
  split; [|split].
  - intros r.
    rewrite (dependenciesOf_alter_dependencies (fun l => l ++ [node]))
      by (by rewrite length_alter).
    by rewrite (dependenciesOf_alter_dependents (fun n => _dependents n ++ [this])).
  - intros r.
    rewrite (dependentsOf_alter_dependencies (fun n => _dependencies n ++ [node])).
    by rewrite (dependentsOf_alter_dependents (fun l => l ++ [this])).
  - intros r.
    rewrite (idOf_alter_dependencies (fun n => _dependencies n ++ [node])).
    by rewrite (idOf_alter_dependents (fun n => _dependents n ++ [this])).
Qed.

Lemma addDependency_total this node h :
  this < length h → node < length h → ∃ h', addDependency this node h = Ok h'.
Proof.
  intros [t Ht]%lookup_lt_is_Some_2 [n Hn]%lookup_lt_is_Some_2.
  unfold addDependency. rewrite (getNode_lookup _ _ _ Ht). simpl.
  case_bool_decide; [eauto|]. rewrite (getNode_lookup _ _ _ Hn). simpl. eauto.
Qed.

(** indexOf and splice *)
Lemma indexOf_Some x l : x ∈ l → ∃ i, indexOf x l = Some i ∧ l !! i = Some x.
Proof.
  induction l as [|y l IH]; [by intros ?%elem_of_nil|].
  intros Hin. simpl. case_decide as Hy; [subst; by exists 0|].
  apply elem_of_cons in Hin as [->|Hin]; [done|].
  destruct (IH Hin) as (i & -> & Hi). by exists (S i).
Qed.

Lemma indexOf_None x l : x ∉ l → indexOf x l = None.
Proof.
  induction l as [|y l IH]; [done|].
  intros Hin. apply not_elem_of_cons in Hin as [Hne Hin].
  simpl. case_decide; [congruence|]. by rewrite IH.
Qed.

Lemma elem_of_delete_NoDup (l : list ref) i x y :
  NoDup l → l !! i = Some x → (y ∈ delete i l ↔ y ∈ l ∧ y ≠ x).
Proof.
  intros Hnd Hi.
  rewrite <- (take_drop_middle l i x Hi) in Hnd |- *.
  assert (length (take i l) = i) as Hlen.
  { rewrite length_take. apply lookup_lt_Some in Hi. lia. }
  rewrite <- Hlen at 1.
  rewrite delete_middle.
  apply NoDup_app in Hnd as (_ & Hdisj & Hnd2).
  apply NoDup_cons in Hnd2 as [Hx _].
  rewrite !elem_of_app, elem_of_cons. split.
  - intros [H|H]; (split; [tauto|]); intros ->; [by apply (Hdisj x); [|left]|done].
  - intros [[H|[H|H]] Hne]; tauto.
Qed.

Lemma splice1_indexOf_elem (l : list ref) x y :
  NoDup l → x ∈ l → (y ∈ splice1 (indexOf x l) l ↔ y ∈ l ∧ y ≠ x).
Proof.
  intros Hnd Hin. destruct (indexOf_Some _ _ Hin) as (i & -> & Hi).
  simpl. by apply elem_of_delete_NoDup.
Qed.

Lemma splice1_indexOf_NoDup (l : list ref) x :
  NoDup l → NoDup (splice1 (indexOf x l) l).
Proof.
  intros Hnd. destruct (indexOf x l) as [i|]; simpl.
  - eapply sublist_NoDup; [done|apply sublist_delete].
  - revert Hnd. induction l as [|a [|b l] IH]; simpl; intros Hnd; [done|constructor|].
    apply NoDup_cons in Hnd as [Ha Hnd]. apply NoDup_cons. split; [|by apply IH].
    intros Hin. apply Ha.
    assert (∀ k : list ref, removelast k ⊆ k) as Hsub.
    { clear. induction k as [|c [|d k] IH]; simpl; [done|set_solver|].
      intros z [->|Hz]%elem_of_cons; [left|right; by apply IH]. }
    by apply Hsub.
Qed.

(** What removeDependency does to the edge lists of a symmetric heap that
    has no doubled entry. *)
Lemma removeDependency_spec this node h h' :
  removeDependency this node h = Ok h' →
  this < length h ∧
  (((node ∉ dependenciesOf h this) ∧ h' = h) ∨
   (node ∈ dependenciesOf h this ∧ node < length h ∧ length h' = length h ∧
    (∀ r, dependenciesOf h' r =
            (if decide (r = this)
             then splice1 (indexOf node (dependenciesOf h r)) (dependenciesOf h r)
             else dependenciesOf h r)) ∧
    (∀ r, dependentsOf h' r =
            (if decide (r = node)
             then splice1 (indexOf this (dependentsOf h r)) (dependentsOf h r)
             else dependentsOf h r)) ∧
    (∀ r, idOf h' r = idOf h r))).
Proof.
  unfold removeDependency. intros H.
  destruct (getNode this h) as [t| |] eqn:Ht; simplify_eq/=.
  apply getNode_Ok in Ht. pose proof (lookup_lt_Some _ _ _ Ht) as Hlt.
  split; [done|]. rewrite (dependenciesOf_lookup _ _ _ Ht).
  case_bool_decide as Hin; simplify_eq/=; [right|left; done].
  destruct (getNode node h) as [n| |] eqn:Hn; simplify_eq/=.
  apply getNode_Ok in Hn. pose proof (lookup_lt_Some _ _ _ Hn) as Hlt'.
  split; [done|]. split; [done|]. split; [by rewrite !length_alter|].
  split; [|split].
  - intros r.
    rewrite (dependenciesOf_alter_dependencies (fun l => splice1 (indexOf node l) l))
      by (by rewrite length_alter).
    by rewrite (dependenciesOf_alter_dependents
                  (fun m => splice1 (indexOf this (_dependents n)) (_dependents m))).
  - intros r.
    rewrite (dependentsOf_alter_dependencies
               (fun t => splice1 (indexOf node (_dependencies t)) (_dependencies t))).
    rewrite (dependentsOf_alter_dependents
               (fun l => splice1 (indexOf this (_dependents n)) l)) by done.
    case_decide; [subst r|done]. by rewrite (dependentsOf_lookup _ _ _ Hn).
  - intros r.
    rewrite (idOf_alter_dependencies
               (fun t => splice1 (indexOf node (_dependencies t)) (_dependencies t))).
    by rewrite (idOf_alter_dependents
               (fun m => splice1 (indexOf this (_dependents n)) (_dependents m))).
Qed.

Lemma addDependency_symmetric this node h h' :
  symmetricEdges h → addDependency this node h = Ok h' → symmetricEdges h'.
Proof.
  intros Hsym H.
  apply addDependency_spec in H as (Hthis & [[_ ->]|(Hnin & Hnode & Hlen & Hdeps & Hdpts & _)]);
    [done|].
  intros a b Ha Hb. rewrite Hlen in Ha, Hb. rewrite Hdeps, Hdpts.
  specialize (Hsym a b Ha Hb).
  repeat case_decide; subst; rewrite ?elem_of_app, ?list_elem_of_singleton; intuition congruence.
Qed.

Lemma addDependency_closed this node h h' :
  closedEdges h → addDependency this node h = Ok h' → closedEdges h'.
Proof.
  intros Hc H.
  apply addDependency_spec in H as (Hthis & [[_ ->]|(Hnin & Hnode & Hlen & Hdeps & Hdpts & _)]);
    [done|].
  intros r x Hx. rewrite Hlen. rewrite Hdeps, Hdpts in Hx.
  destruct Hx as [Hx|Hx]; case_decide; subst;
    try (apply elem_of_app in Hx as [Hx| ->%list_elem_of_singleton]; [|done]);
    eapply Hc; eauto.
Qed.

Lemma addDependency_preserves this node h h' :
  symmetricEdges h → noDuplicateEdges h →
  addDependency this node h = Ok h' →
  symmetricEdges h' ∧ noDuplicateEdges h'.
Proof.
  intros Hsym Hnd H.
  apply addDependency_spec in H as (Hthis & [[_ ->]|(Hnin & Hnode & Hlen & Hdeps & Hdpts & _)]);
    [done|].
  split.
  - intros a b Ha Hb. rewrite Hlen in Ha, Hb. rewrite Hdeps, Hdpts.
    specialize (Hsym a b Ha Hb).
    repeat case_decide; subst; rewrite ?elem_of_app, ?list_elem_of_singleton; intuition congruence.
  - intros r. rewrite Hdeps, Hdpts. destruct (Hnd r) as [Hn1 Hn2].
    split; case_decide; subst; try done.
    + apply NoDup_app. split; [done|]. split; [|apply NoDup_singleton].
      intros x Hx ->%list_elem_of_singleton. apply Hnin. by apply Hsym.
    + apply NoDup_app. split; [done|]. split; [|apply NoDup_singleton].
      by intros x Hx ->%list_elem_of_singleton.
Qed.

Lemma removeDependency_preserves this node h h' :
  symmetricEdges h → noDuplicateEdges h →
  removeDependency this node h = Ok h' →
  symmetricEdges h' ∧ noDuplicateEdges h'.
Proof.
  intros Hsym Hnd H.
  apply removeDependency_spec in H
    as (Hthis & [[_ ->]|(Hin & Hnode & Hlen & Hdeps & Hdpts & _)]); [done|].
  assert (this ∈ dependentsOf h node) as Hin' by by apply Hsym.
  split.
  - intros a b Ha Hb. rewrite Hlen in Ha, Hb. rewrite Hdeps, Hdpts.
    specialize (Hsym a b Ha Hb).
    repeat case_decide; subst;
      rewrite ?splice1_indexOf_elem by (done || apply Hnd); intuition congruence.
  - intros r. rewrite Hdeps, Hdpts. destruct (Hnd r) as [Hn1 Hn2].
    split; case_decide; subst; try done; by apply splice1_indexOf_NoDup.
Qed.

Lemma removeEach_preserves this snapshot h h' :
  symmetricEdges h → noDuplicateEdges h →
  removeEach this snapshot h = Ok h' →
  symmetricEdges h' ∧ noDuplicateEdges h'.
Proof.
  revert h. induction snapshot as [|node rest IH]; intros h Hsym Hnd H; simplify_eq/=; [done|].
  destruct (removeDependency this node h) as [h1| |] eqn:H1; simplify_eq/=.
  destruct (removeDependency_preserves _ _ _ _ Hsym Hnd H1). by eapply IH.
Qed.

Lemma removeAllDependencies_preserves this h h' :
  symmetricEdges h → noDuplicateEdges h →
  removeAllDependencies this h = Ok h' →
  symmetricEdges h' ∧ noDuplicateEdges h'.
Proof.
  unfold removeAllDependencies. intros Hsym Hnd H.
  destruct (getNode this h); simplify_eq/=. by eapply removeEach_preserves.
Qed.

(** Whatever sequence of edge operations is run on nodes fresh from the
    constructor, the edge lists it leaves are symmetric and name no node
    twice. *)
Lemma runEdgeCalls_preserves cs : ∀ h h',
  symmetricEdges h → noDuplicateEdges h →
  runEdgeCalls cs h = Ok h' →
  symmetricEdges h' ∧ noDuplicateEdges h'.
Proof.
  induction cs as [|c cs IH]; intros h h' Hsym Hnd H; simplify_eq/=; [done|].
  destruct (runEdgeCall c h) as [h1| |] eqn:H1; simplify_eq/=.
  assert (symmetricEdges h1 ∧ noDuplicateEdges h1) as [Hs1 Hn1].
  { destruct c; simpl in H1.
    - by eapply addDependency_preserves.
    - by eapply addDependency_preserves.
    - by eapply removeDependency_preserves.
    - by eapply removeDependency_preserves.
    - by eapply removeAllDependencies_preserves. }
  by eapply IH.
Qed.

Lemma freshNodes_symmetric h : freshNodes h → symmetricEdges h ∧ noDuplicateEdges h.
Proof.
  intros Hf. split.
  - intros a b _ _. destruct (Hf a) as [_ ->]. destruct (Hf b) as [-> _].
    by rewrite !elem_of_nil.
  - intros r. destruct (Hf r) as [-> ->]. split; apply NoDup_nil_2.
Qed.

Lemma built_states_symmetric cs h h' :
  freshNodes h → runEdgeCalls cs h = Ok h' →
  symmetricEdges h' ∧ noDuplicateEdges h'.
Proof.
  intros [Hsym Hnd]%freshNodes_symmetric H. by eapply runEdgeCalls_preserves.
Qed.

Lemma addDependency_present this node h :
  this < length h → node ∈ dependenciesOf h this → addDependency this node h = Ok h.
Proof.
  intros [t Ht]%lookup_lt_is_Some_2 Hin. rewrite (dependenciesOf_lookup _ _ _ Ht) in Hin.
  unfold addDependency. rewrite (getNode_lookup _ _ _ Ht). simpl. by rewrite bool_decide_true.
Qed.

Lemma removeDependency_absent this node h :
  this < length h → node ∉ dependenciesOf h this → removeDependency this node h = Ok h.
Proof.
  intros [t Ht]%lookup_lt_is_Some_2 Hin. rewrite (dependenciesOf_lookup _ _ _ Ht) in Hin.
  unfold removeDependency. rewrite (getNode_lookup _ _ _ Ht). simpl. by rewrite bool_decide_false.
Qed.

Lemma removeDependency_total this node h :
  this < length h → node < length h → ∃ h', removeDependency this node h = Ok h'.
Proof.
  intros [t Ht]%lookup_lt_is_Some_2 [n Hn]%lookup_lt_is_Some_2.
  unfold removeDependency. rewrite (getNode_lookup _ _ _ Ht). simpl.
  case_bool_decide; simpl; [|eauto]. rewrite (getNode_lookup _ _ _ Hn). simpl. eauto.
Qed.

(** After removeAllDependencies the node has no dependency left. *)
Lemma removeEach_clears this snapshot h h' :
  noDuplicateEdges h → symmetricEdges h →
  removeEach this snapshot h = Ok h' →
  (∀ x, x ∈ dependenciesOf h this → x ∈ snapshot) →
  dependenciesOf h' this = [].
Proof.
  revert h. induction snapshot as [|node rest IH]; intros h Hnd Hsym H Hall; simplify_eq/=.
  - destruct (dependenciesOf _ this) as [|x l]; [done|].
    exfalso. eapply elem_of_nil, (Hall x). left.
  - destruct (removeDependency this node h) as [h1| |] eqn:H1; simplify_eq/=.
    destruct (removeDependency_preserves _ _ _ _ Hsym Hnd H1) as [Hsym1 Hnd1].
    apply (IH h1 Hnd1 Hsym1 H).
    intros x Hx.
    apply removeDependency_spec in H1
      as (Hthis & [[Hnin ->]|(Hin & Hnode & Hlen & Hdeps & Hdpts & _)]).
    + apply Hall in Hx as Hx'. apply elem_of_cons in Hx' as [->|]; [done|done].
    + rewrite Hdeps in Hx. rewrite decide_True in Hx by done.
      apply splice1_indexOf_elem in Hx as [Hx Hne]; [|apply Hnd|done].
      apply Hall in Hx. apply elem_of_cons in Hx as [->|]; done.
Qed.

(** C9, as stated, fails on a state whose lists agree on membership only:
    one removeDependency takes the single back edge away and leaves a copy
    of the forward edge. *)
Lemma edge_symmetry_lost_with_doubled_entry :
  symmetricEdges doubledEdgeHeap ∧
  ∃ h', removeDependency 0 1 doubledEdgeHeap = Ok h' ∧
        1 ∈ dependenciesOf h' 0 ∧ (0 ∉ dependentsOf h' 1) ∧
        ¬ symmetricEdges h'.
Proof.
  split.
  - intros a b Ha Hb. simpl in Ha, Hb.
    destruct a as [|[|a]]; [| |lia]; (destruct b as [|[|b]]; [| |lia]);
      unfold dependentsOf, dependenciesOf; simpl;
      rewrite ?elem_of_cons, ?elem_of_nil; intuition lia.
  - eexists. split; [reflexivity|].
    assert (1 ∈ [1]) as H1 by set_solver.
    split; [exact H1|]. split; [set_solver|].
    intros Hsym. specialize (Hsym 0 1). simpl in Hsym.
    unfold dependentsOf, dependenciesOf in Hsym. simpl in Hsym.
    assert (0 ∈ @nil nat) as Hbad by (apply Hsym; [lia|lia|exact H1]).
    by apply elem_of_nil in Hbad.
Qed.

(** C9 (amended): on a state whose edge lists are symmetric and hold no
    node twice, addDependency, addDependent, removeDependency,
    removeDependent and removeAllDependencies keep both properties;
    addDependency does nothing when the edge is there and removeDependency
    nothing when it is not; on node objects the four edge operations return. *)
Theorem edge_symmetry_invariant (h : heap) (this node : ref) :
  symmetricEdges h → noDuplicateEdges h →
  (∀ h', addDependency this node h = Ok h' → symmetricEdges h' ∧ noDuplicateEdges h') ∧
  (∀ h', addDependent this node h = Ok h' → symmetricEdges h' ∧ noDuplicateEdges h') ∧
  (∀ h', removeDependency this node h = Ok h' → symmetricEdges h' ∧ noDuplicateEdges h') ∧
  (∀ h', removeDependent this node h = Ok h' → symmetricEdges h' ∧ noDuplicateEdges h') ∧
  (∀ h', removeAllDependencies this h = Ok h' →
         symmetricEdges h' ∧ noDuplicateEdges h' ∧ dependenciesOf h' this = []) ∧
  (this < length h → node ∈ dependenciesOf h this → addDependency this node h = Ok h) ∧
  (this < length h → (node ∉ dependenciesOf h this) → removeDependency this node h = Ok h) ∧
  (this < length h → node < length h →
     (∃ h', addDependency this node h = Ok h') ∧ (∃ h', addDependent this node h = Ok h') ∧
     (∃ h', removeDependency this node h = Ok h') ∧ (∃ h', removeDependent this node h = Ok h')).
Proof.
  intros Hsym Hnd.
  split; [intros h'; by apply addDependency_preserves|].
  split; [intros h'; by apply addDependency_preserves|].
  split; [intros h'; by apply removeDependency_preserves|].
  split; [intros h'; by apply removeDependency_preserves|].
  split.
  { intros h' H.
    destruct (removeAllDependencies_preserves _ _ _ Hsym Hnd H) as [Hs' Hn'].
    split; [done|]. split; [done|].
    unfold removeAllDependencies in H.
    destruct (getNode this h) as [t| |] eqn:Ht; simplify_eq/=.
    apply getNode_Ok in Ht.
    apply (removeEach_clears _ _ _ _ Hnd Hsym H).
    intros x. by rewrite (dependenciesOf_lookup _ _ _ Ht). }
  split; [by apply addDependency_present|].
  split; [by apply removeDependency_absent|].
  intros Ht Hn.
  split; [by apply addDependency_total|].
  split; [by apply addDependency_total|].
  split; [by apply removeDependency_total|].
  by apply removeDependency_total.
Qed.

(** * traverse: breadth-first, each reachable node once, shortest paths *)

Lemma nextOf_lookup h next r n : h !! r = Some n → nextOf h next r = next n.
Proof. unfold nextOf. by intros ->. Qed.

Lemma sortedByLength_snoc l x :
  sortedByLength l → (∀ p, p ∈ l → length p ≤ length x) → sortedByLength (l ++ [x]).
Proof.
  intros Hs Hx i j p q Hij Hi Hj.
  destruct (decide (j < length l)) as [Hj'|Hj'].
  - rewrite lookup_app_l in Hi, Hj by lia. exact (Hs i j p q Hij Hi Hj).
  - assert (q = x) as ->.
    { rewrite lookup_app_r in Hj by lia.
      destruct (j - length l) as [|k]; simpl in Hj; [by simplify_eq|].
      by rewrite lookup_nil in Hj. }
    destruct (decide (i < length l)) as [Hi'|Hi'].
    + rewrite lookup_app_l in Hi by lia. apply Hx. by eapply list_elem_of_lookup_2.
    + rewrite lookup_app_r in Hi by lia.
      destruct (i - length l) as [|k]; simpl in Hi; [by simplify_eq|].
      by rewrite lookup_nil in Hi.
Qed.

Lemma sortedByLength_le_last l1 l2 cur p :
  sortedByLength (l1 ++ l2) → last l1 = Some cur → p ∈ l1 → length p ≤ length cur.
Proof.
  intros Hs Hlast [i Hi]%list_elem_of_lookup_1.
  rewrite last_lookup in Hlast.
  pose proof (lookup_lt_Some _ _ _ Hi) as Hlt.
  eapply (Hs i (pred (length l1))); [lia| |]; by rewrite lookup_app_l by lia.
Qed.

Lemma sortedByLength_last_le l1 l2 cur q :
  sortedByLength (l1 ++ l2) → last l1 = Some cur → q ∈ l2 → length cur ≤ length q.
Proof.
  intros Hs Hlast [j Hj]%list_elem_of_lookup_1.
  rewrite last_lookup in Hlast.
  pose proof (lookup_lt_Some _ _ _ Hlast) as Hlt.
  eapply (Hs (pred (length l1)) (length l1 + j)); [lia| |].
  - by rewrite lookup_app_l by lia.
  - rewrite lookup_app_r by lia. by replace (length l1 + j - length l1) with j by lia.
Qed.

Lemma NoDup_bounded_length (l : list nat) n :
  NoDup l → (∀ x, x ∈ l → x < n) → length l ≤ n.
Proof.
  intros Hnd Hb. rewrite <- (length_seq n 0).
  apply submseteq_length, NoDup_submseteq; [done|].
  intros x Hx. apply elem_of_seq. specialize (Hb x Hx). lia.
Qed.

Section traversal.
Context (h : heap) (next : Node → list ref) (start : ref).
Hypothesis Hstart : start < length h.
Hypothesis Hclosed :
  ∀ r x, reachable h next start r → x ∈ nextOf h next r → x < length h.

Lemma isPath_nonempty p : isPath h next start p → ∃ n p', p = n :: p'.
Proof. destruct 1; eauto. Qed.

Lemma isPath_reachable p : isPath h next start p → reachable h next start (hd0 p).
Proof.
  induction 1 as [|n m p Hp IH Hn]; simpl; [apply rtc_refl|].
  eapply rtc_r; [exact IH|done].
Qed.

Lemma reachable_isPath x :
  reachable h next start x → ∃ p, isPath h next start p ∧ hd0 p = x.
Proof.
  unfold reachable. intros Hr. revert x Hr. apply rtc_ind_r.
  - exists [start]. split; [constructor|done].
  - intros y z Hy Hyz IH. destruct IH as (p & Hp & Hhd).
    destruct (isPath_nonempty _ Hp) as (m & p' & ->). simpl in Hhd. subst m.
    exists (z :: y :: p'). split; [by constructor|done].
Qed.

Lemma isPath_last p : isPath h next start p → last p = Some start.
Proof. induction 1 as [|n m p Hp IH Hn]; [done|]. by rewrite last_cons_cons. Qed.

Lemma reachable_valid x : reachable h next start x → x < length h.
Proof.
  intros [->|(y & Hy & Hyx)]%rtc_inv_r; [done|]. by eapply Hclosed.
Qed.

Lemma isPath_valid p : isPath h next start p → hd0 p < length h.
Proof. intros Hp. by apply reachable_valid, isPath_reachable. Qed.

(** The paths seen so far are at most as many as the heap has nodes. *)
Lemma traverseInv_length done cur pend queue visited :
  traverseInv h next start done cur pend queue visited →
  length (done ++ queue) ≤ length h.
Proof.
  intros Hinv.
  rewrite <- (length_fmap hd0).
  apply NoDup_bounded_length.
  - eapply (NoDup_fmap_1 (idOf h)). rewrite <- list_fmap_compose. apply Hinv.
  - intros x (p & -> & Hp)%list_elem_of_fmap. apply isPath_valid. by eapply inv_paths.
Qed.

(** The inner loop. *)
Lemma enqueueNext_inv pend : ∀ done cur queue visited,
  traverseInv h next start done cur pend queue visited →
  ∃ visited' queue',
    enqueueNext h cur pend visited queue = Ok (visited', queue') ∧
    traverseInv h next start done cur [] queue' visited'.
Proof.
  induction pend as [|x rest IH]; intros done cur queue visited Hinv.
  { exists visited, queue. split; [done|]. done. }
  assert (cur ∈ done) as Hcur.
  { pose proof (inv_last _ _ _ _ _ _ _ _ Hinv) as Hl.
    rewrite last_lookup in Hl. by eapply list_elem_of_lookup_2. }
  assert (isPath h next start cur) as Hpcur.
  { eapply inv_paths; [done|]. apply elem_of_app. by left. }
  assert (x ∈ nextOf h next (hd0 cur)) as Hx by (eapply inv_pend; [done|left]).
  assert (reachable h next start x) as Hrx.
  { eapply rtc_r; [by apply isPath_reachable|done]. }
  destruct (lookup_lt_is_Some_2 h x (reachable_valid _ Hrx)) as [n Hn].
  simpl. rewrite (getNode_lookup _ _ _ Hn). simpl.
  rewrite <- (idOf_lookup _ _ _ Hn).
  case_bool_decide as Hv.
  - (* already seen *)
    apply IH. destruct Hinv as [Hl Hpe Hpa Hst Hnd Hvi Hso Hbo Hcl].
    apply Hvi in Hv. apply list_elem_of_fmap in Hv as (p & Hid & Hp).
    split; try done.
    + intros y Hy. apply Hpe. by right.
    + intros d y Hd Hy. destruct (Hcl d y Hd Hy) as [[-> Hin]|Hex]; [|by right].
      apply elem_of_cons in Hin as [->|Hin]; [|by left].
      right. exists p. split; [done|]. split; [done|].
      apply elem_of_app in Hp as [Hp|Hp].
      * pose proof (sortedByLength_le_last _ _ _ _ Hso Hl Hp). lia.
      * by apply Hbo.
  - (* new *)
    apply IH. destruct Hinv as [Hl Hpe Hpa Hst Hnd Hvi Hso Hbo Hcl].
    destruct (isPath_nonempty _ Hpcur) as (m & p' & ->). simpl in Hx.
    split; try done.
    + intros y Hy. apply Hpe. by right.
    + intros p. rewrite app_assoc, elem_of_app, list_elem_of_singleton.
      intros [Hp| ->]; [by apply Hpa|]. by constructor.
    + rewrite app_assoc, fmap_app. apply NoDup_app. split; [done|].
      split; [|apply NoDup_singleton].
      intros s Hs ->%list_elem_of_singleton. simpl in Hv. by apply Hv, Hvi.
    + intros s. rewrite app_assoc, fmap_app, elem_of_app, elem_of_union, Hvi.
      simpl. rewrite elem_of_singleton, list_elem_of_singleton. tauto.
    + rewrite app_assoc. apply sortedByLength_snoc; [done|].
      intros p [Hp|Hp]%elem_of_app.
      * pose proof (sortedByLength_le_last _ _ _ _ Hso Hl Hp). simpl in *. lia.
      * specialize (Hbo p Hp). simpl in *. lia.
    + intros q [Hq| ->%list_elem_of_singleton]%elem_of_app; [by apply Hbo|]. simpl. lia.
    + intros d y Hd Hy. destruct (Hcl d y Hd Hy) as [[-> Hin]|(p & Hp & Hpy & Hlen)].
      * apply elem_of_cons in Hin as [->|Hin]; [|by left].
        right. exists (x :: m :: p'). split; [|split; [done|simpl; lia]].
        rewrite app_assoc, elem_of_app, list_elem_of_singleton. by right.
      * right. exists p. split; [|done].
        rewrite app_assoc, elem_of_app. by left.
Qed.

(** The outer loop. *)
Lemma visits_loop_inv fuel : ∀ done cur queue visited,
  traverseInv h next start done cur [] queue visited →
  length h < fuel + length done →
  ∃ calls visited' cur',
    visits_loop fuel h next visited queue = Ok calls ∧
    (∀ c, c ∈ calls → c.1 = hd0 c.2) ∧
    traverseInv h next start (done ++ calls.*2) cur' [] [] visited'.
Proof.
  induction fuel as [|fuel IH]; intros done cur queue visited Hinv Hfuel.
  { pose proof (traverseInv_length _ _ _ _ _ Hinv) as Hlen.
    rewrite length_app in Hlen. lia. }
  destruct queue as [|p queue].
  { exists [], visited, cur. simpl. split; [done|]. split; [by intros c ?%elem_of_nil|].
    by rewrite app_nil_r. }
  pose proof (traverseInv_length _ _ _ _ _ Hinv) as Hlen.
  rewrite length_app in Hlen. simpl in Hlen.
  assert (isPath h next start p) as Hp.
  { eapply inv_paths; [done|]. apply elem_of_app. right. left. }
  destruct (isPath_nonempty _ Hp) as (node & p' & ->).
  pose proof (isPath_valid _ Hp) as Hvalid. simpl in Hvalid.
  destruct (lookup_lt_is_Some_2 h node Hvalid) as [n Hn].
  simpl. rewrite (getNode_lookup _ _ _ Hn). simpl.
  assert (traverseInv h next start (done ++ [node :: p']) (node :: p') (next n)
            queue visited) as Hinv'.
  { destruct Hinv as [Hl Hpe Hpa Hst Hnd Hvi Hso Hbo Hcl].
    split.
    - by rewrite last_snoc.
    - intros x Hx. simpl. by rewrite (nextOf_lookup _ _ _ _ Hn).
    - intros q. rewrite <- app_assoc. apply Hpa.
    - apply elem_of_app. by left.
    - by rewrite <- app_assoc.
    - intros s. by rewrite <- app_assoc.
    - by rewrite <- app_assoc.
    - intros q Hq.
      assert (length q ≤ length cur + 1) by (apply Hbo; by right).
      assert (length cur ≤ length (node :: p')).
      { eapply sortedByLength_last_le; [done|done|left]. }
      lia.
    - intros d x [Hd| ->%list_elem_of_singleton]%elem_of_app Hx.
      + destruct (Hcl d x Hd Hx) as [[_ Hin]|(q & Hq & ?)]; [by apply elem_of_nil in Hin|].
        right. exists q. split; [|done]. by rewrite <- app_assoc.
      + left. split; [done|]. simpl in Hx. by rewrite (nextOf_lookup _ _ _ _ Hn) in Hx. }
  destruct (enqueueNext_inv _ _ _ _ _ Hinv') as (visited' & queue' & -> & Hinv'').
  simpl.
  destruct (IH _ _ _ _ Hinv'') as (calls & visited'' & cur' & -> & Hcalls & Hfinal).
  { rewrite length_app. simpl. lia. }
  simpl. exists ((node, node :: p') :: calls), visited'', cur'.
  split; [done|]. split.
  - intros c [->|Hc]%elem_of_cons; [done|by apply Hcalls].
  - simpl. by rewrite <- app_assoc in Hfinal.
Qed.

(** The whole traversal. *)
Lemma visits_inv :
  ∃ calls visited cur,
    visits h next start = Ok calls ∧
    (∀ c, c ∈ calls → c.1 = hd0 c.2) ∧
    traverseInv h next start (calls.*2) cur [] [] visited.
Proof.
  destruct (lookup_lt_is_Some_2 h start Hstart) as [n Hn].
  unfold visits. rewrite (getNode_lookup _ _ _ Hn). simpl.
  rewrite (getNode_lookup _ _ _ Hn). simpl.
  assert (traverseInv h next start [[start]] [start] (next n) [] {[ _id n ]}) as Hinv.
  { split.
    - done.
    - intros x Hx. simpl. by rewrite (nextOf_lookup _ _ _ _ Hn).
    - intros p ->%list_elem_of_singleton. constructor.
    - left.
    - simpl. apply NoDup_singleton.
    - intros s. simpl. rewrite (idOf_lookup _ _ _ Hn).
      by rewrite elem_of_singleton, list_elem_of_singleton.
    - intros i j p q Hij Hi Hj. simpl in *.
      destruct i, j; simplify_eq/=; try done; by rewrite lookup_nil in *.
    - by intros q ?%elem_of_nil.
    - intros d x ->%list_elem_of_singleton Hx. left. split; [done|].
      simpl in Hx. by rewrite (nextOf_lookup _ _ _ _ Hn) in Hx. }
  destruct (enqueueNext_inv _ _ _ _ _ Hinv) as (visited' & queue' & -> & Hinv').
  simpl.
  destruct (visits_loop_inv (length h) _ _ _ _ Hinv')
    as (calls & visited'' & cur' & -> & Hcalls & Hfinal); [simpl; lia|].
  simpl. exists ((start, [start]) :: calls), visited'', cur'.
  split; [done|]. split; [|done].
  intros c [->|Hc]%elem_of_cons; [done|by apply Hcalls].
Qed.
End traversal.

(** ** What the final state says *)

Section traversal_result.
Context (h : heap) (next : Node → list ref) (start : ref).
Context (done : list (list ref)) (cur : list ref) (visited : gset string).
Hypothesis Hinv : traverseInv h next start done cur [] [] visited.

Lemma traverseInv_isPath p : p ∈ done → isPath h next start p.
Proof. intros Hp. eapply inv_paths; [exact Hinv|]. by rewrite app_nil_r. Qed.

Lemma traverseInv_shortest q :
  (∀ a b, reachable h next start a → reachable h next start b →
          idOf h a = idOf h b → a = b) →
  isPath h next start q →
  ∃ p, p ∈ done ∧ hd0 p = hd0 q ∧ length p ≤ length q.
Proof.
  intros Hinj. induction 1 as [|n m q Hq IH Hn].
  - exists [start]. split; [apply Hinv|done].
  - destruct IH as (p' & Hp' & Hhd & Hlen). simpl in Hhd.
    destruct (inv_closure _ _ _ _ _ _ _ _ Hinv p' n Hp') as [[_ Hin]|(p & Hp & Hpn & Hl)].
    + by rewrite Hhd.
    + by apply elem_of_nil in Hin.
    + rewrite app_nil_r in Hp. exists p. split; [done|]. split; [|simpl in *; lia].
      simpl. apply Hinj; [|by apply (isPath_reachable _ _ _ (n :: m :: q)); constructor|done].
      by apply isPath_reachable, traverseInv_isPath.
Qed.

Lemma traverseInv_heads_NoDup : NoDup (hd0 <$> done).
Proof.
  eapply (NoDup_fmap_1 (idOf h)). rewrite <- list_fmap_compose.
  pose proof (inv_nodup _ _ _ _ _ _ _ _ Hinv) as Hnd. by rewrite app_nil_r in Hnd.
Qed.

Lemma traverseInv_ids_NoDup : NoDup ((fun p => idOf h (hd0 p)) <$> done).
Proof.
  pose proof (inv_nodup _ _ _ _ _ _ _ _ Hinv) as Hnd. by rewrite app_nil_r in Hnd.
Qed.

Lemma traverseInv_sorted : sortedByLength done.
Proof. pose proof (inv_sorted _ _ _ _ _ _ _ _ Hinv) as Hs. by rewrite app_nil_r in Hs. Qed.
End traversal_result.

Lemma isPath_head h next start p : isPath h next start p → head p = Some (hd0 p).
Proof. by destruct 1. Qed.

(** Whatever the ids, no two of the nodes handed to the callback share one. *)
Lemma visits_ids h next start :
  start < length h →
  (∀ r x, reachable h next start r → x ∈ nextOf h next r → x < length h) →
  ∃ calls,
    visits h next start = Ok calls ∧
    NoDup (idOf h <$> calls.*1) ∧
    (∀ x, x ∈ calls.*1 → reachable h next start x).
Proof.
  intros Hstart Hclosed.
  destruct (visits_inv h next start Hstart Hclosed)
    as (calls & visited & cur & Hv & Hcalls & Hinv).
  assert (calls.*1 = hd0 <$> calls.*2) as Hfst.
  { rewrite <- list_fmap_compose. apply list_fmap_ext. intros i c Hc.
    apply Hcalls. by eapply list_elem_of_lookup_2. }
  exists calls. split; [done|]. rewrite Hfst. split.
  - rewrite <- list_fmap_compose. by eapply traverseInv_ids_NoDup.
  - intros x (p & -> & Hp)%list_elem_of_fmap.
    apply isPath_reachable. by eapply traverseInv_isPath.
Qed.

(** The calls of a traversal on a heap whose reachable part is closed and
    has one node per id. *)
Lemma visits_spec h next start :
  start < length h →
  (∀ r x, reachable h next start r → x ∈ nextOf h next r → x < length h) →
  (∀ a b, reachable h next start a → reachable h next start b →
          idOf h a = idOf h b → a = b) →
  ∃ calls,
    visits h next start = Ok calls ∧
    NoDup (calls.*1) ∧
    NoDup (idOf h <$> calls.*1) ∧
    (∀ x, x ∈ calls.*1 ↔ reachable h next start x) ∧
    (∀ node path, (node, path) ∈ calls →
       head path = Some node ∧ last path = Some start ∧ isPath h next start path ∧
       ∀ q, isPath h next start q → head q = Some node → length path ≤ length q) ∧
    sortedByLength (calls.*2) ∧
    head calls = Some (start, [start]).
Proof.
  intros Hstart Hclosed Hinj.
  destruct (visits_inv h next start Hstart Hclosed)
    as (calls & visited & cur & Hv & Hcalls & Hinv).
  assert (calls.*1 = hd0 <$> calls.*2) as Hfst.
  { rewrite <- list_fmap_compose. apply list_fmap_ext. intros i c Hc.
    apply Hcalls. by eapply list_elem_of_lookup_2. }
  exists calls. split; [done|]. rewrite Hfst.
  split; [by eapply traverseInv_heads_NoDup|].
  split; [rewrite <- list_fmap_compose; by eapply traverseInv_ids_NoDup|].
  split; [|split; [|split]].
  - intros x. split.
    + intros (p & -> & Hp)%list_elem_of_fmap.
      apply isPath_reachable. by eapply traverseInv_isPath.
    + intros (q & Hq & <-)%reachable_isPath.
      destruct (traverseInv_shortest _ _ _ _ _ _ Hinv q Hinj Hq) as (p & Hp & <- & _).
      by apply list_elem_of_fmap_2.
  - intros node path Hc.
    assert (path ∈ calls.*2) as Hp by (by apply (list_elem_of_fmap_2 snd) in Hc).
    pose proof (traverseInv_isPath _ _ _ _ _ _ Hinv _ Hp) as Hpath.
    assert (hd0 path = node) as Hhd by (symmetry; by apply (Hcalls _ Hc)).
    split; [by rewrite (isPath_head _ _ _ _ Hpath), Hhd|].
    split; [by eapply isPath_last|]. split; [done|].
    intros q Hq Hqh.
    destruct (traverseInv_shortest _ _ _ _ _ _ Hinv q Hinj Hq) as (p & Hp' & Hpq & Hlen).
    rewrite (isPath_head _ _ _ _ Hq) in Hqh. simplify_eq.
    assert (p = path) as ->; [|done].
    pose proof (traverseInv_heads_NoDup _ _ _ _ _ _ Hinv) as Hnd.
    apply list_elem_of_lookup_1 in Hp as [i Hi], Hp' as [j Hj].
    assert (i = j) as ->; [|congruence].
    eapply NoDup_lookup; [exact Hnd| |].
    + by rewrite list_lookup_fmap, Hi.
    + rewrite list_lookup_fmap, Hj. simpl. by rewrite Hpq, Hqh.
  - by eapply traverseInv_sorted.
  - unfold visits in Hv.
    destruct (getNode start h) as [n| |]; simplify_eq/=.
    destruct (getNode start h) as [n'| |]; simplify_eq/=.
    destruct (enqueueNext h [start] (next n') {[_id n]} []) as [[v q]| |]; simplify_eq/=.
    destruct (visits_loop (length h) h next v q); simplify_eq/=. done.
Qed.

(** ** A callback that keeps the original nodes sees the same traversal *)

Lemma getNode_prefix h0 h r n : h0 `prefix_of` h → getNode r h0 = Ok n → getNode r h = Ok n.
Proof.
  intros Hpre Hn%getNode_Ok. apply getNode_Ok. by eapply prefix_lookup_Some.
Qed.

Lemma enqueueNext_prefix h0 h path nexts visited queue r :
  h0 `prefix_of` h →
  enqueueNext h0 path nexts visited queue = Ok r →
  enqueueNext h path nexts visited queue = Ok r.
Proof.
  intros Hpre. revert visited queue.
  induction nexts as [|x rest IH]; intros visited queue H; [done|].
  simpl in *. destruct (getNode x h0) as [n| |] eqn:Hn; simplify_eq/=.
  rewrite (getNode_prefix _ _ _ _ Hpre Hn). simpl.
  case_bool_decide; by apply IH.
Qed.

Lemma visits_loop_fuel fuel fuel' h next visited queue calls :
  visits_loop fuel h next visited queue = Ok calls → fuel ≤ fuel' →
  visits_loop fuel' h next visited queue = Ok calls.
Proof.
  revert fuel' visited queue calls.
  induction fuel as [|fuel IH]; intros fuel' visited queue calls H Hle; [done|].
  destruct fuel' as [|fuel']; [lia|].
  simpl in *. destruct queue as [|[|node p] queue]; try done.
  destruct (getNode node h) as [n| |]; simplify_eq/=.
  destruct (enqueueNext h (node :: p) (next n) visited queue) as [[v q]| |]; simplify_eq/=.
  destruct (visits_loop fuel h next v q) as [rest| |] eqn:Hrest; simplify_eq/=.
  rewrite (IH fuel' v q rest Hrest) by lia. done.
Qed.

Lemma visits_unfold h next start n :
  getNode start h = Ok n →
  visits h next start = visits_loop (S (length h)) h next {[ _id n ]} [[start]].
Proof. unfold visits. by intros ->. Qed.

Lemma traverse_unfold {A} (callback : Callback A) getNextNodes start a h n :
  getNode start h = Ok n →
  traverse callback getNextNodes start a h =
  traverse_loop (S (length h)) callback (default getDependents getNextNodes)
    {[ _id n ]} [[start]] a h.
Proof. unfold traverse. by intros ->. Qed.

Section frame.
Context {A : Type} (callback : Callback A) (h0 : heap) (next : Node → list ref).
Hypothesis Hframe : ∀ node path a h a' h',
  h0 `prefix_of` h → callback node path a h = Ok (a', h') → h0 `prefix_of` h'.

Lemma traverse_loop_runCalls fuel : ∀ visited queue a h calls,
  h0 `prefix_of` h →
  visits_loop fuel h0 next visited queue = Ok calls →
  traverse_loop fuel callback next visited queue a h = runCalls callback calls a h.
Proof.
  induction fuel as [|fuel IH]; intros visited queue a h calls Hpre Hv; [done|].
  simpl in *. destruct queue as [|[|node p] queue]; simplify_eq/=; [done|].
  destruct (getNode node h0) as [n| |] eqn:Hn; simplify_eq/=.
  destruct (enqueueNext h0 (node :: p) (next n) visited queue) as [[v q]| |] eqn:He;
    simplify_eq/=.
  destruct (visits_loop fuel h0 next v q) as [rest| |] eqn:Hrest; simplify_eq/=.
  destruct (callback node (node :: p) a h) as [[a' h']| |] eqn:Hcb; simpl; [|done|done].
  pose proof (Hframe _ _ _ _ _ _ Hpre Hcb) as Hpre'.
  rewrite (getNode_prefix _ _ _ _ Hpre' Hn). simpl.
  rewrite (enqueueNext_prefix _ _ _ _ _ _ _ Hpre' He). simpl.
  by apply IH.
Qed.

Lemma traverse_runCalls getNextNodes start a h calls :
  next = default getDependents getNextNodes →
  h0 `prefix_of` h →
  visits h0 next start = Ok calls →
  traverse callback getNextNodes start a h = runCalls callback calls a h.
Proof.
  intros Hnext Hpre Hv.
  destruct (getNode start h0) as [n| |] eqn:Hn;
    [|unfold visits in Hv; by rewrite Hn in Hv..].
  rewrite (visits_unfold _ _ _ _ Hn) in Hv.
  rewrite (traverse_unfold _ _ _ _ _ _ (getNode_prefix _ _ _ _ Hpre Hn)).
  rewrite <- Hnext.
  apply traverse_loop_runCalls; [done|].
  eapply visits_loop_fuel; [done|]. apply prefix_length in Hpre. lia.
Qed.

(** A property the callback keeps holds after all the calls. *)
Lemma runCalls_inv (P : A → heap → Prop) calls : ∀ a h a' h',
  (∀ node path a h a' h', (node, path) ∈ calls →
     P a h → callback node path a h = Ok (a', h') → P a' h') →
  P a h → runCalls callback calls a h = Ok (a', h') → P a' h'.
Proof.
  induction calls as [|[node path] calls IH]; intros a h a' h' Hstep HP H; simplify_eq/=;
    [done|].
  destruct (callback node path a h) as [[a1 h1]| |] eqn:Hcb; simplify_eq/=.
  eapply IH; [|eapply Hstep; [left|done|done]|done].
  intros ???????. eapply Hstep. by right.
Qed.
End frame.

Lemma runCalls_recordCalls calls acc h :
  runCalls recordCalls calls acc h = Ok (acc ++ calls, h).
Proof.
  revert acc. induction calls as [|[node path] calls IH]; intros acc; simpl.
  - by rewrite app_nil_r.
  - rewrite IH. by rewrite <- app_assoc.
Qed.

(** The calls a recording callback sees. *)
Lemma traverse_recordCalls_spec
    (h : heap) (getNextNodes : option (Node → list ref)) (start : ref) :
  let next := default getDependents getNextNodes in
  start < length h →
  (∀ r x, reachable h next start r → x ∈ nextOf h next r → x < length h) →
  (∀ a b, reachable h next start a → reachable h next start b →
          idOf h a = idOf h b → a = b) →
  ∃ calls,
    traverse recordCalls getNextNodes start [] h = Ok (calls, h) ∧
    NoDup (calls.*1) ∧
    (∀ x, x ∈ calls.*1 ↔ reachable h next start x) ∧
    (∀ node path, (node, path) ∈ calls →
       head path = Some node ∧ last path = Some start ∧ isPath h next start path ∧
       ∀ q, isPath h next start q → head q = Some node → length path ≤ length q) ∧
    sortedByLength (calls.*2).
Proof.
  intros next Hstart Hclosed Hinj.
  destruct (visits_spec h next start Hstart Hclosed Hinj)
    as (calls & Hv & Hnd & _ & Hreach & Hpaths & Hsorted & _).
  exists calls. split; [|done].
  rewrite (traverse_runCalls recordCalls h next) with (calls := calls); try done.
  - apply runCalls_recordCalls.
  - intros node path a h1 a' h' Hpre H. unfold recordCalls in H. by simplify_eq.
Qed.

(** C7: on a finite graph whose reachable nodes are node objects with
    pairwise distinct ids, traverse calls the callback exactly once on
    every node reachable from the start along getNextNodes, in breadth-first
    order (paths never get shorter), each time with a shortest path: the
    node in front, the start at the back.  The calls are a list fixed by the
    graph and the order of its edge lists: the callback that writes its
    arguments down returns it, and the traversal with any callback that
    leaves the node objects of the graph in place is that callback run over
    the list. *)
Theorem traverse_visits_each_reachable_node_once
    (h : heap) (getNextNodes : option (Node → list ref)) (start : ref) :
  let next := default getDependents getNextNodes in
  start < length h →
  (∀ r x, reachable h next start r → x ∈ nextOf h next r → x < length h) →
  (∀ a b, reachable h next start a → reachable h next start b →
          idOf h a = idOf h b → a = b) →
  ∃ calls,
    traverse recordCalls getNextNodes start [] h = Ok (calls, h) ∧
    (∀ A (callback : Callback A) (a : A),
       (∀ node path a h1 a' h1',
          h `prefix_of` h1 → callback node path a h1 = Ok (a', h1') → h `prefix_of` h1') →
       traverse callback getNextNodes start a h = runCalls callback calls a h) ∧
    NoDup (calls.*1) ∧
    (∀ x, x ∈ calls.*1 ↔ reachable h next start x) ∧
    (∀ node path, (node, path) ∈ calls →
       head path = Some node ∧ last path = Some start ∧ isPath h next start path ∧
       ∀ q, isPath h next start q → head q = Some node → length path ≤ length q) ∧
    sortedByLength (calls.*2).
Proof.
  intros next Hstart Hclosed Hinj.
  destruct (visits_spec h next start Hstart Hclosed Hinj)
    as (calls & Hv & Hnd & _ & Hreach & Hpaths & Hsorted & _).
  exists calls. split; [|split; [|done]].
  - rewrite (traverse_runCalls recordCalls h next) with (calls := calls); try done.
    + apply runCalls_recordCalls.
    + intros node path a h1 a' h' Hpre H. unfold recordCalls in H. by simplify_eq.
  - intros A callback a Hframe.
    by apply (traverse_runCalls callback h next).
Qed.

(** * hasCycle *)

Section line.
Context (h : heap) (dir : direction) (c : list ref).
Hypothesis Hnd : NoDup c.
Hypothesis Hline : ∀ i r, c !! i = Some r →
  ∃ n, h !! r = Some n ∧ nodesToExplore dir n = option_list (c !! S i).

(** The search walks down the line, one node per iteration. *)
Lemma hasCycle_loop_line m : ∀ i r fuel visited currentPath depthAdded,
  length c = i + m → c !! i = Some r →
  m + 1 ≤ fuel →
  (∀ x, x ∈ visited → ∃ j, j < i ∧ c !! j = Some x) →
  (∀ x, x ∈ currentPath → ∃ j, j < i ∧ c !! j = Some x) →
  depthAdded !! r = Some (length currentPath) →
  hasCycle_loop fuel dir visited currentPath [r] depthAdded h = Ok (false, h).
Proof.
  induction m as [|m IH]; intros i r fuel visited currentPath depthAdded Hlen Hi Hfuel Hv Hp Hd.
  { apply lookup_lt_Some in Hi. lia. }
  destruct fuel as [|fuel]; [lia|].
  assert (∀ x j, j < i → c !! j = Some x → x ≠ r) as Hfresh.
  { intros x j Hj Hx ->. assert (j = i) by (eapply NoDup_lookup; done). lia. }
  cbn [hasCycle_loop pop last removelast].
  rewrite bool_decide_false by (intros (j & Hj & Hx)%Hp; by eapply Hfresh).
  rewrite bool_decide_false by (intros (j & Hj & Hx)%Hv; by eapply Hfresh).
  destruct (Hline i r Hi) as (n & Hn & Hexp).
  rewrite (getNode_lookup _ _ _ Hn). cbn [mbind outcome_bind].
  rewrite Hexp, Hd. cbn [trimPath]. rewrite firstn_all.
  destruct (c !! S i) as [r'|] eqn:Hi'.
  - change (option_list (Some r')) with [r']. cbn [pushNext].
    rewrite bool_decide_false by apply not_elem_of_nil.
    cbn [pushNext app].
    apply (IH (S i)); try done; try lia.
    + intros x [->%elem_of_singleton|Hx]%elem_of_union; [exists i; split; [lia|done]|].
      destruct (Hv x Hx) as (j & ? & ?). exists j. split; [lia|done].
    + intros x [Hx| ->%list_elem_of_singleton]%elem_of_app;
        [|exists i; split; [lia|done]].
      destruct (Hp x Hx) as (j & ? & ?). exists j. split; [lia|done].
    + by rewrite lookup_insert_eq.
  - change (option_list None) with (@nil nat). cbn [pushNext].
    destruct fuel as [|fuel]; [|done].
    apply lookup_ge_None in Hi'. lia.
Qed.

Lemma hasCycle_dir_line k r :
  c !! k = Some r → length c ≤ length h →
  hasCycle_dir r dir h = Ok (false, h).
Proof.
  intros Hk Hle. unfold hasCycle_dir.
  pose proof (lookup_lt_Some _ _ _ Hk) as Hlt.
  apply (hasCycle_loop_line (length c - k) k).
  - lia.
  - done.
  - unfold hasCycle_fuel. lia.
  - by intros x ?%elem_of_empty.
  - by intros x ?%elem_of_nil.
  - by rewrite lookup_singleton_eq.
Qed.
End line.

Lemma isChain_length h c : isChain h c → length c ≤ length h.
Proof.
  intros [Hnd Hc]. apply NoDup_bounded_length; [done|].
  intros x [i Hi]%list_elem_of_lookup_1.
  destruct (Hc i x Hi) as (n & Hn & _). by eapply lookup_lt_Some.
Qed.

Lemma isChain_dependents h c k r :
  isChain h c → c !! k = Some r → hasCycle_dir r dependents h = Ok (false, h).
Proof.
  intros Hch Hk. pose proof (isChain_length _ _ Hch) as Hlen. destruct Hch as [Hnd Hc].
  apply (hasCycle_dir_line h dependents c Hnd) with (k := k); try done.
  intros i x Hi. destruct (Hc i x Hi) as (n & Hn & _ & Hd). by exists n.
Qed.

Lemma isChain_dependencies h c k r :
  isChain h c → c !! k = Some r → hasCycle_dir r dependencies h = Ok (false, h).
Proof.
  intros Hch Hk. pose proof (isChain_length _ _ Hch) as Hlen. destruct Hch as [Hnd Hc].
  pose proof (lookup_lt_Some _ _ _ Hk) as Hlt.
  apply (hasCycle_dir_line h dependencies (reverse c)) with (k := length c - S k).
  - by rewrite reverse_Permutation.
  - intros i x Hi.
    pose proof (lookup_lt_Some _ _ _ Hi) as Hlti. rewrite length_reverse in Hlti.
    rewrite reverse_lookup in Hi by done.
    destruct (Hc _ x Hi) as (n & Hn & Hd & _). exists n. split; [done|].
    simpl. rewrite Hd.
    destruct (decide (S i < length c)) as [Hlt'|Hge].
    + rewrite reverse_lookup by done.
      destruct (length c - S i) as [|j] eqn:E; [lia|].
      by replace (length c - S (S i)) with j by lia.
    + rewrite (lookup_ge_None_2 (reverse c)) by (rewrite length_reverse; lia).
      by replace (length c - S i) with 0 by lia.
  - rewrite reverse_lookup by lia.
    by replace (length c - S (length c - S k)) with k by lia.
  - by rewrite length_reverse.
Qed.

Lemma chainHeap_isChain N : isChain (chainHeap N) (seq 0 N).
Proof.
  split; [apply NoDup_seq|].
  intros i r Hi. apply lookup_seq in Hi as [-> Hlt]. simpl.
  exists (chainNode N i). split.
  - unfold chainHeap. rewrite list_lookup_fmap, lookup_seq_lt by done. done.
  - split.
    + destruct i as [|j]; [done|]. simpl. by rewrite lookup_seq_lt by lia.
    + simpl. case_decide.
      * by rewrite lookup_seq_lt by lia.
      * by rewrite lookup_seq_ge by lia.
Qed.

(** C8: hasCycle answers true on two nodes that depend on each other, false
    on every linear dependency chain, from any of its nodes, and false on a
    node without edges; in each case for the direction dependents, for
    dependencies, for both and for the default. *)
Theorem hasCycle_mutual_chain_single :
  (∀ node dir, node < 2 → hasCycle node dir mutualHeap = Ok (true, mutualHeap)) ∧
  (∀ h c r dir, isChain h c → r ∈ c → hasCycle r dir h = Ok (false, h)) ∧
  (∀ N r dir, r < N → hasCycle r dir (chainHeap N) = Ok (false, chainHeap N)) ∧
  (∀ dir, hasCycle 0 dir singleHeap = Ok (false, singleHeap)).
Proof.
  assert (∀ h c r dir, isChain h c → r ∈ c → hasCycle r dir h = Ok (false, h)) as Hchain.
  { intros h c r dir Hch [k Hk]%list_elem_of_lookup_1.
    pose proof (isChain_dependents _ _ _ _ Hch Hk) as H1.
    pose proof (isChain_dependencies _ _ _ _ Hch Hk) as H2.
    unfold hasCycle. destruct dir as [[| |]|]; simpl; rewrite ?H1; simpl; done. }
  split; [|split; [done|split]].
  - intros node dir Hnode.
    destruct node as [|[|node]]; [| |lia]; by destruct dir as [[| |]|].
  - intros N r dir Hr. apply (Hchain _ (seq 0 N)); [apply chainHeap_isChain|].
    apply elem_of_seq. lia.
  - by intros [[| |]|].
Qed.

(** ** The search ends *)

Lemma pop_Some {A} (l : list A) x l' : pop l = Some (x, l') → l = l' ++ [x].
Proof.
  unfold pop. destruct (last l) as [y|] eqn:Hl; [|done]. intros [= <- <-].
  destruct l as [|z l] using rev_ind; [done|].
  rewrite last_snoc in Hl. injection Hl as ->. by rewrite removelast_last.
Qed.

Lemma pop_None {A} (l : list A) : pop l = None → l = [].
Proof.
  unfold pop. destruct l as [|z l] using rev_ind; [done|]. by rewrite last_snoc.
Qed.

Lemma pushNext_length pathLength nodes : ∀ toVisit depthAdded,
  length (pushNext pathLength nodes toVisit depthAdded).1 ≤ length toVisit + length nodes.
Proof.
  induction nodes as [|x nodes IH]; intros toVisit depthAdded; simpl; [lia|].
  case_bool_decide.
  - specialize (IH toVisit depthAdded). lia.
  - specialize (IH (toVisit ++ [x]) (<[x:=pathLength]> depthAdded)).
    rewrite length_app in IH. simpl in IH. lia.
Qed.

Lemma pushNext_elem pathLength nodes : ∀ toVisit depthAdded x,
  x ∈ (pushNext pathLength nodes toVisit depthAdded).1 → x ∈ toVisit ∨ x ∈ nodes.
Proof.
  induction nodes as [|y nodes IH]; intros toVisit depthAdded x; simpl; [by left|].
  case_bool_decide.
  - intros [?|?]%IH; [by left|right; by right].
  - intros [[?| ->%list_elem_of_singleton]%elem_of_app|?]%IH;
      [by left|right; left|right; by right].
Qed.

Lemma unexploredFrom_mono l dir (visited visited' : gset ref) : ∀ k,
  visited ⊆ visited' →
  unexploredFrom k l dir visited' ≤ unexploredFrom k l dir visited.
Proof.
  induction l as [|n l IH]; intros k Hsub; simpl; [lia|].
  specialize (IH (S k) Hsub).
  destruct (decide (k ∈ visited')), (decide (k ∈ visited)); try lia.
  exfalso. auto.
Qed.

Lemma unexploredFrom_visit l dir (visited : gset ref) : ∀ k i n,
  l !! i = Some n → (k + i ∉ visited) →
  unexploredFrom k l dir ({[ k + i ]} ∪ visited) + length (nodesToExplore dir n)
    ≤ unexploredFrom k l dir visited.
Proof.
  induction l as [|m l IH]; intros k i n Hi Hnin; [done|]. simpl.
  destruct i as [|i]; simpl in Hi.
  - injection Hi as ->. replace (k + 0) with k in * by lia.
    rewrite decide_True by (apply elem_of_union_l; by apply elem_of_singleton).
    rewrite decide_False by done.
    pose proof (unexploredFrom_mono l dir visited ({[k]} ∪ visited) (S k)) as Hm.
    assert (visited ⊆ {[k]} ∪ visited) as Hsub by apply union_subseteq_r.
    specialize (Hm Hsub). lia.
  - replace (k + S i) with (S k + i) in * by lia.
    specialize (IH (S k) i n Hi Hnin).
    destruct (decide (k ∈ {[S k + i]} ∪ visited)) as [Hin|Hout],
             (decide (k ∈ visited)) as [Hv|Hv]; try lia.
    exfalso. apply Hout. by apply elem_of_union_r.
Qed.

Lemma unexploredFrom_bound l dir visited : ∀ k,
  unexploredFrom k l dir visited
    ≤ foldr (fun n acc => length (_dependents n) + length (_dependencies n) + acc) 0 l.
Proof.
  induction l as [|n l IH]; intros k; simpl; [lia|].
  specialize (IH (S k)).
  destruct (decide (k ∈ visited)); [lia|]. destruct dir; simpl; lia.
Qed.

(** Each iteration takes one entry from the stack, and only the first visit
    of a node pushes, its edge list at most: the iterations are bounded by
    the stack and the edge lists not yet explored. *)
Lemma hasCycle_loop_returns h dir fuel : ∀ visited currentPath toVisit depthAdded,
  length toVisit + unexploredFrom 0 h dir visited < fuel →
  (∃ b, hasCycle_loop fuel dir visited currentPath toVisit depthAdded h = Ok (b, h)) ∨
  (hasCycle_loop fuel dir visited currentPath toVisit depthAdded h = Throw TypeError ∧
   ∃ x, (x ∈ toVisit ∨ ∃ r, x ∈ nextOf h (nodesToExplore dir) r) ∧ length h ≤ x).
Proof.
  induction fuel as [|fuel IH]; intros visited currentPath toVisit depthAdded Hfuel; [lia|].
  cbn [hasCycle_loop].
  destruct (pop toVisit) as [[currentNode toVisit']|] eqn:Hpop; [|left; by exists false].
  apply pop_Some in Hpop as ->. rewrite length_app in Hfuel. simpl in Hfuel.
  case_bool_decide; [left; by exists true|].
  case_bool_decide as Hvisited.
  - destruct (IH visited currentPath toVisit' depthAdded) as [Hok|(Hthrow & x & Hx & Hlen)];
      [lia|by left|].
    right. split; [done|]. exists x. split; [|done].
    destruct Hx as [Hx|Hx]; [left; apply elem_of_app; by left|by right].
  - destruct (h !! currentNode) as [n|] eqn:Hn.
    + rewrite (getNode_lookup _ _ _ Hn). cbn [mbind outcome_bind].
      destruct (pushNext _ (nodesToExplore dir n) toVisit' depthAdded)
        as [toVisit'' depthAdded'] eqn:Hpush.
      pose proof (pushNext_length
        (length (trimPath (depthAdded !! currentNode) currentPath ++ [currentNode]))
        (nodesToExplore dir n) toVisit' depthAdded) as Hlen.
      rewrite Hpush in Hlen. simpl in Hlen.
      pose proof (unexploredFrom_visit h dir visited 0 currentNode n Hn Hvisited) as Hvisit.
      simpl in Hvisit.
      destruct (IH ({[currentNode]} ∪ visited)
                  (trimPath (depthAdded !! currentNode) currentPath ++ [currentNode])
                  toVisit'' depthAdded') as [Hok|(Hthrow & x & Hx & Hlx)];
        [lia|by left|].
      right. split; [done|]. exists x. split; [|done].
      destruct Hx as [Hx|Hx]; [|by right].
      pose proof (pushNext_elem
        (length (trimPath (depthAdded !! currentNode) currentPath ++ [currentNode]))
        (nodesToExplore dir n) toVisit' depthAdded x) as Hel.
      rewrite Hpush in Hel. destruct (Hel Hx) as [Ht|He].
      * left. apply elem_of_app. by left.
      * right. exists currentNode. by rewrite (nextOf_lookup _ _ _ _ Hn).
    + unfold getNode. rewrite Hn. cbn [mbind outcome_bind].
      right. split; [done|]. exists currentNode. split.
      * left. apply elem_of_app. right. by apply list_elem_of_singleton.
      * by apply lookup_ge_None.
Qed.

Lemma hasCycle_dir_returns h dir node :
  closedEdges h → node < length h →
  ∃ b, hasCycle_dir node dir h = Ok (b, h).
Proof.
  intros Hc Hnode. unfold hasCycle_dir.
  destruct (hasCycle_loop_returns h dir (hasCycle_fuel h) ∅ [] [node] {[node := 0]})
    as [Hok|(_ & x & Hx & Hlen)]; [|done|exfalso].
  - pose proof (unexploredFrom_bound h dir ∅ 0). unfold hasCycle_fuel. simpl. lia.
  - destruct Hx as [->%list_elem_of_singleton|[r Hx]]; [lia|].
    assert (x < length h); [|lia].
    apply (Hc r x). unfold nextOf, dependentsOf, dependenciesOf in *.
    destruct (h !! r) as [n|]; simpl in *; [|by apply elem_of_nil in Hx].
    destruct dir; simpl in Hx; auto.
Qed.

(** On node objects whose edge lists name node objects, hasCycle returns an
    answer, in every direction, and the heap as it was. *)
Lemma hasCycle_returns h node dir :
  closedEdges h → node < length h →
  ∃ b, hasCycle node dir h = Ok (b, h).
Proof.
  intros Hc Hnode. unfold hasCycle.
  destruct (default both dir); try by apply hasCycle_dir_returns.
  destruct (hasCycle_dir_returns h dependents node Hc Hnode) as [b ->].
  cbn [mbind outcome_bind]. destruct b; [by exists true|].
  by apply hasCycle_dir_returns.
Qed.

(** * What the graph operations leave as it is *)

(** A property of the accumulator and the heap that the callback keeps is
    kept by the traversal. *)
Lemma traverse_loop_keeps {A} (P : A → heap → Prop) (callback : Callback A) next fuel :
  (∀ node path a h a' h', P a h → callback node path a h = Ok (a', h') → P a' h') →
  ∀ visited queue a h a' h',
    P a h → traverse_loop fuel callback next visited queue a h = Ok (a', h') → P a' h'.
Proof.
  intros Hcb. induction fuel as [|fuel IH]; intros visited queue a h a' h' HP H; [done|].
  simpl in H. destruct queue as [|[|node p] queue]; simplify_eq/=; [done|].
  destruct (callback node (node :: p) a h) as [[a1 h1]| |] eqn:Hc; simplify_eq/=.
  destruct (getNode node h1) as [n| |]; simplify_eq/=.
  destruct (enqueueNext h1 (node :: p) (next n) visited queue) as [[v q]| |]; simplify_eq/=.
  eapply IH; [|done]. by eapply Hcb.
Qed.

Lemma traverse_keeps {A} (P : A → heap → Prop) (callback : Callback A)
    getNextNodes start a h a' h' :
  (∀ node path a h a' h', P a h → callback node path a h = Ok (a', h') → P a' h') →
  P a h → traverse callback getNextNodes start a h = Ok (a', h') → P a' h'.
Proof.
  intros Hcb HP H.
  destruct (getNode start h) as [n| |] eqn:Hn;
    [|unfold traverse in H; by rewrite Hn in H..].
  rewrite (traverse_unfold _ _ _ _ _ _ Hn) in H.
  by eapply (traverse_loop_keeps P).
Qed.

(** A callback that does not write to the heap: neither does the traversal. *)
Lemma traverse_reads {A} (callback : Callback A) getNextNodes start a h a' h' :
  (∀ node path a h a' h', callback node path a h = Ok (a', h') → h' = h) →
  traverse callback getNextNodes start a h = Ok (a', h') → h' = h.
Proof.
  intros Hcb H.
  apply (traverse_keeps (fun _ h1 => h1 = h) callback _ _ _ _ _ _) in H; [done| |done].
  intros node path a1 h1 a2 h2 -> Hc. by eapply Hcb.
Qed.

Lemma addIdCallback_reads node path ids h ids' h' :
  addIdCallback node path ids h = Ok (ids', h') → h' = h.
Proof. unfold addIdCallback. intros H. destruct (getNode node h); by simplify_eq/=. Qed.

Lemma selectCallback_reads p node path ids h ids' h' :
  selectCallback p node path ids h = Ok (ids', h') → h' = h.
Proof.
  unfold selectCallback. intros H.
  destruct (getNode node h) as [n| |]; simplify_eq/=.
  destruct (p n) as [[|]| |]; simplify_eq/=; [|done].
  eapply traverse_reads; [|done]. apply addIdCallback_reads.
Qed.

Lemma computeIdsToInclude_reads rootNode predicate h ids h' :
  computeIdsToInclude rootNode predicate h = Ok (ids, h') → h' = h.
Proof.
  unfold computeIdsToInclude. intros H. destruct predicate as [p|]; [|by simplify_eq].
  destruct (traverse (selectCallback p) None rootNode ∅ h) as [[i h1]| |] eqn:Ht;
    simplify_eq/=.
  eapply traverse_reads; [|done]. apply selectCallback_reads.
Qed.

Lemma hasCycle_loop_reads fuel : ∀ dir visited currentPath toVisit depthAdded h b h',
  hasCycle_loop fuel dir visited currentPath toVisit depthAdded h = Ok (b, h') → h' = h.
Proof.
  induction fuel as [|fuel IH]; intros dir visited currentPath toVisit depthAdded h b h' H;
    [done|].
  simpl in H. destruct (pop toVisit) as [[currentNode toVisit']|]; [|by simplify_eq].
  case_bool_decide; [by simplify_eq|].
  case_bool_decide; [by eapply IH|].
  destruct (getNode currentNode h) as [n| |]; simplify_eq/=.
  destruct (pushNext _ _ _ _) as [tv da]. by eapply IH.
Qed.

Lemma hasCycle_dir_reads node dir h b h' : hasCycle_dir node dir h = Ok (b, h') → h' = h.
Proof. unfold hasCycle_dir. apply hasCycle_loop_reads. Qed.

Lemma hasCycle_reads node dir h b h' : hasCycle node dir h = Ok (b, h') → h' = h.
Proof.
  unfold hasCycle. intros H.
  destruct (default both dir); try by eapply hasCycle_dir_reads.
  destruct (hasCycle_dir node dependents h) as [[b1 h1]| |] eqn:H1;
    cbn -[hasCycle_dir] in H; [|done..].
  apply hasCycle_dir_reads in H1 as ->.
  destruct b1; [by simplify_eq|]. by eapply hasCycle_dir_reads.
Qed.

Lemma getBlockingCpuData_reads graph fcpTs networkFilter cpuFilter h data h' :
  getBlockingCpuData graph fcpTs networkFilter cpuFilter h = Ok (data, h') → h' = h.
Proof.
  unfold getBlockingCpuData, getScriptUrls. intros H.
  destruct (traverse (collectCpuCallback fcpTs) None graph [] h) as [[cpus h1]| |] eqn:H1;
    simplify_eq/=.
  apply traverse_reads in H1 as ->.
  2:{ intros node path a h2 a' h2' Hc. unfold collectCpuCallback in Hc.
      destruct (getNode node h2) as [n| |]; simplify_eq/=.
      destruct (kind n); simplify_eq/=; [done|]. by case_match; simplify_eq. }
  destruct (traverse (scriptUrlCallback _) None graph [] h) as [[urls h2]| |] eqn:H2;
    simplify_eq/=.
  apply traverse_reads in H2 as ->.
  2:{ intros node path a h2' a' h2'' Hc. unfold scriptUrlCallback in Hc.
      destruct (getNode node h2') as [n| |]; simplify_eq/=.
      destruct (kind n); simplify_eq/=; [|done]. by case_match; simplify_eq. }
  destruct (scanUrls _ _ _ _). by simplify_eq.
Qed.

(** ** Cloning writes to the clones only *)

Lemma prefix_alter {A} (f : A → A) (l0 l : list A) i :
  l0 `prefix_of` l → length l0 ≤ i → l0 `prefix_of` alter f i l.
Proof.
  intros [k ->] Hi. exists (alter f (i - length l0) k).
  by rewrite alter_app_r_alt.
Qed.

Lemma addDependency_prefix h0 this node h h' :
  h0 `prefix_of` h → length h0 ≤ this → length h0 ≤ node →
  addDependency this node h = Ok h' → h0 `prefix_of` h'.
Proof.
  unfold addDependency. intros Hpre Ht Hn H.
  destruct (getNode this h) as [t| |]; simplify_eq/=.
  case_bool_decide; [by simplify_eq|].
  destruct (getNode node h) as [n| |]; simplify_eq/=.
  apply prefix_alter; [apply prefix_alter|]; done.
Qed.

Lemma cloneCallback_keeps h0 ids node path m h m' h' :
  (h0 `prefix_of` h ∧ mapsToClones h0 m h ∧ clonesApart h0 h) →
  cloneCallback ids node path m h = Ok (m', h') →
  h0 `prefix_of` h' ∧ mapsToClones h0 m' h' ∧ clonesApart h0 h'.
Proof.
  intros (Hpre & Hm & Hc) H. unfold cloneCallback, cloneWithoutRelationships in H.
  destruct (getNode node h) as [n| |] eqn:Hn; simplify_eq/=.
  destruct (shouldIncludeNode ids n); simplify_eq/=; [|done].
  unfold getNode in H. rewrite lookup_app_r, Nat.sub_diag in H by done. simplify_eq/=.
  split; [by apply prefix_app_r|]. split.
  - intros s c. rewrite length_app. simpl. destruct (decide (s = _id n)) as [->|Hne].
    + rewrite lookup_insert_eq. intros ?; simplify_eq. apply prefix_length in Hpre. lia.
    + rewrite lookup_insert_ne by done. intros Hs. specialize (Hm s c Hs). lia.
  - intros r x Hr. unfold dependentsOf, dependenciesOf.
    destruct (decide (r < length h)) as [Hlt|Hge].
    + rewrite lookup_app_l by done. by apply Hc.
    + rewrite lookup_app_r by lia.
      destruct (r - length h) as [|k]; simpl; rewrite ?lookup_nil; simpl;
        intros [[]%elem_of_nil|[]%elem_of_nil].
Qed.

Lemma rewire_keeps h0 m c deps : ∀ h h',
  mapsToClones h0 m h → from_option (fun c => length h0 ≤ c) True c →
  (h0 `prefix_of` h ∧ clonesApart h0 h) →
  rewire m c deps h = Ok h' →
  (h0 `prefix_of` h' ∧ clonesApart h0 h') ∧ length h' = length h.
Proof.
  induction deps as [|d deps IH]; intros h h' Hm Hc (Hpre & Hap) H; simplify_eq/=; [done|].
  destruct (getNode d h) as [nd| |]; simplify_eq/=.
  destruct c as [c|]; simplify_eq/=.
  destruct (m !! _id nd) as [cd|] eqn:Hcd; simplify_eq/=.
  2:{ by destruct (getNode c h). }
  destruct (addDependency c cd h) as [h1| |] eqn:Hadd; simplify_eq/=.
  pose proof (Hm _ _ Hcd) as [Hcd1 Hcd2].
  pose proof (addDependency_prefix _ _ _ _ _ Hpre Hc Hcd1 Hadd) as Hpre1.
  apply addDependency_spec in Hadd
    as (Hthis & [[_ ->]|(Hnin & Hnode & Hlen & Hdeps & Hdpts & _)]).
  { by apply (IH h h'). }
  destruct (IH h1 h') as [HP Hl].
  - intros s x Hs. rewrite Hlen. by apply (Hm s).
  - done.
  - split; [done|]. intros r x Hr Hx. rewrite Hdeps, Hdpts in Hx.
    destruct Hx as [Hx|Hx]; case_decide; subst;
      try (apply elem_of_app in Hx as [Hx| ->%list_elem_of_singleton]; [|done]);
      apply (Hap _ x Hr); tauto.
  - done.
  - split; [done|]. congruence.
Qed.

Lemma rewireCallback_keeps h0 ids m node path h h' u u' :
  mapsToClones h0 m h →
  (h0 `prefix_of` h ∧ clonesApart h0 h) →
  rewireCallback ids m node path u h = Ok (u', h') →
  (h0 `prefix_of` h' ∧ clonesApart h0 h') ∧ length h' = length h.
Proof.
  intros Hm HP H. unfold rewireCallback in H.
  destruct (getNode node h) as [n| |]; simplify_eq/=.
  destruct (shouldIncludeNode ids n); simplify_eq/=; [|done].
  destruct (rewire m (m !! _id n) (_dependencies n) h) as [h1| |] eqn:Hr; simplify_eq/=.
  eapply rewire_keeps; [done| |done|done].
  destruct (m !! _id n) as [c|] eqn:Hc; [|done]. simpl. by apply (Hm _ _ Hc).
Qed.

(** cloneGraph keeps every node of the heap it is given, and what it adds
    is apart from them. *)
Lemma cloneGraph_keeps this predicate h m h' :
  cloneGraph this predicate h = Ok (m, h') →
  h `prefix_of` h' ∧ mapsToClones h m h' ∧ clonesApart h h'.
Proof.
  unfold cloneGraph. intros H.
  destruct (getRootNode this h) as [root| |]; simplify_eq/=.
  destruct (computeIdsToInclude root predicate h) as [[ids h0]| |] eqn:Hids; simplify_eq/=.
  apply computeIdsToInclude_reads in Hids as ->.
  destruct (traverse (cloneCallback ids) None root ∅ h) as [[m1 h1]| |] eqn:H1; simplify_eq/=.
  apply (traverse_keeps
           (fun m h1 => h `prefix_of` h1 ∧ mapsToClones h m h1 ∧ clonesApart h h1)) in H1
    as (Hpre1 & Hm1 & Hap1).
  2:{ intros ??????. apply cloneCallback_keeps. }
  2:{ split; [done|]. split; [by intros s c ?|].
      intros r x Hr. rewrite dependentsOf_invalid, dependenciesOf_invalid by done.
      intros [[]%elem_of_nil|[]%elem_of_nil]. }
  destruct (traverse (rewireCallback ids m1) None root () h1) as [[u h2]| |] eqn:H2;
    simplify_eq/=.
  apply (traverse_keeps
           (fun _ h2 => (h `prefix_of` h2 ∧ clonesApart h h2) ∧ length h2 = length h1)) in H2
    as ((Hpre2 & Hap2) & Hlen2).
  2:{ intros node path a hx a' hx' [HP Hl] Hc.
      eapply rewireCallback_keeps in Hc as [? ?]; [| |done].
      - split; [done|]. congruence.
      - intros s c Hs. rewrite Hl. by apply (Hm1 s). }
  2:{ done. }
  split; [done|]. split; [|done]. intros s c Hs. rewrite Hlen2. by apply (Hm1 s).
Qed.

Lemma cloneWithRelationships_keeps this predicate h clone h' :
  cloneWithRelationships this predicate h = Ok (clone, h') →
  h `prefix_of` h' ∧ length h ≤ clone < length h' ∧ clonesApart h h'.
Proof.
  unfold cloneWithRelationships. intros H.
  destruct (cloneGraph this predicate h) as [[m h1]| |] eqn:Hg; simplify_eq/=.
  apply cloneGraph_keeps in Hg as (Hpre & Hm & Hap).
  destruct (getNode this h1) as [t| |]; simplify_eq/=.
  destruct (m !! _id t) as [c|] eqn:Hc; simplify_eq/=.
  split; [done|]. split; [by apply (Hm _ _ Hc)|done].
Qed.

(** Nothing reachable from a clone, along edges of either kind, is a node
    of the original heap. *)
Lemma clonesApart_connected h0 h c x :
  clonesApart h0 h → length h0 ≤ c →
  rtc (fun a b => b ∈ dependentsOf h a ∨ b ∈ dependenciesOf h a) c x →
  length h0 ≤ x.
Proof.
  intros Hap Hc Hr. induction Hr as [|a b z Hab _ IH]; [done|].
  apply IH. by apply (Hap a b).
Qed.

(** * getRootNode and the shape of a well-formed graph *)

Lemma closedEdges_dependents h r x : closedEdges h → x ∈ dependentsOf h r → x < length h.
Proof. intros Hc Hx. apply (Hc r x). by left. Qed.

Lemma closedEdges_dependencies h r x : closedEdges h → x ∈ dependenciesOf h r → x < length h.
Proof. intros Hc Hx. apply (Hc r x). by right. Qed.

Lemma getRootNode_loop_fuel fuel fuel' x h r :
  getRootNode_loop fuel x h = Ok r → fuel ≤ fuel' → getRootNode_loop fuel' x h = Ok r.
Proof.
  revert fuel' x. induction fuel as [|fuel IH]; intros fuel' x H Hle; [done|].
  destruct fuel' as [|fuel']; [lia|]. simpl in *.
  destruct (getNode x h) as [n| |]; simplify_eq/=.
  destruct (_dependencies n); [done|]. apply IH; [done|lia].
Qed.

(** The root is reached along dependencies and has none itself. *)
Lemma getRootNode_loop_spec fuel : ∀ x h r,
  getRootNode_loop fuel x h = Ok r →
  rtc (fun a b => b ∈ dependenciesOf h a) x r ∧ r < length h ∧ dependenciesOf h r = [].
Proof.
  induction fuel as [|fuel IH]; intros x h r H; [done|]. simpl in H.
  destruct (getNode x h) as [n| |] eqn:Hn; simplify_eq/=. apply getNode_Ok in Hn.
  destruct (_dependencies n) as [|d ds] eqn:Hd.
  - simplify_eq. split; [apply rtc_refl|]. split; [by eapply lookup_lt_Some|].
    by rewrite (dependenciesOf_lookup _ _ _ Hn).
  - destruct (IH _ _ _ H) as (Hr & Hv & He). split; [|done].
    eapply rtc_l; [|done]. simpl. rewrite (dependenciesOf_lookup _ _ _ Hn), Hd. left.
Qed.

Section acyclic.
Context (h : heap).
Hypothesis Hclosed : closedEdges h.
Hypothesis Hacyclic : acyclic h.

Lemma getRootNode_loop_total fuel : ∀ x chain,
  NoDup (x :: chain) →
  (∀ y, y ∈ chain → tc (fun a b => b ∈ dependenciesOf h a) y x) →
  (∀ y, y ∈ x :: chain → y < length h) →
  length h ≤ fuel + length chain →
  ∃ r, getRootNode_loop fuel x h = Ok r.
Proof.
  induction fuel as [|fuel IH]; intros x chain Hnd Htc Hvalid Hfuel.
  { pose proof (NoDup_bounded_length _ _ Hnd Hvalid) as Hlen. simpl in *. lia. }
  simpl. destruct (lookup_lt_is_Some_2 h x) as [n Hn]; [apply Hvalid; left|].
  rewrite (getNode_lookup _ _ _ Hn). simpl.
  destruct (_dependencies n) as [|d ds] eqn:Hd; [eauto|].
  assert (d ∈ dependenciesOf h x) as Hdx.
  { rewrite (dependenciesOf_lookup _ _ _ Hn), Hd. left. }
  apply (IH d (x :: chain)).
  - apply NoDup_cons. split; [|done].
    intros [->|Hin]%elem_of_cons.
    + apply (Hacyclic x). by apply tc_once.
    + apply (Hacyclic d). eapply tc_r; [by apply Htc|done].
  - intros y [->|Hy]%elem_of_cons; [by apply tc_once|].
    eapply tc_r; [by apply Htc|done].
  - intros y [->|Hy]%elem_of_cons; [by eapply closedEdges_dependencies|by apply Hvalid].
  - simpl. lia.
Qed.

Lemma getRootNode_total x : x < length h → ∃ r, getRootNode x h = Ok r.
Proof.
  intros Hx. apply (getRootNode_loop_total _ x []).
  - apply NoDup_singleton.
  - by intros y ?%elem_of_nil.
  - by intros y ->%list_elem_of_singleton.
  - simpl. lia.
Qed.
End acyclic.

Lemma getRootNode_spec x h r :
  getRootNode x h = Ok r →
  rtc (fun a b => b ∈ dependenciesOf h a) x r ∧ r < length h ∧ dependenciesOf h r = [].
Proof. apply getRootNode_loop_spec. Qed.

Lemma uniqueIds_inj h a b :
  uniqueIds h → a < length h → b < length h → idOf h a = idOf h b → a = b.
Proof.
  intros Hu [na Ha]%lookup_lt_is_Some_2 [nb Hb]%lookup_lt_is_Some_2.
  rewrite (idOf_lookup _ _ _ Ha), (idOf_lookup _ _ _ Hb). intros Heq.
  eapply (NoDup_lookup _ a b (_id na) Hu); rewrite list_lookup_fmap.
  - by rewrite Ha.
  - rewrite Hb. simpl. by rewrite Heq.
Qed.

Section wellFormed.
Context (h : heap).
Hypothesis Hwf : wellFormed h.

(** Dependencies, read backwards, are dependents. *)
Lemma dependencies_dependents x y :
  x < length h →
  rtc (fun a b => b ∈ dependenciesOf h a) x y →
  rtc (fun a b => b ∈ dependentsOf h a) y x.
Proof.
  intros Hx Hr. induction Hr as [|a b c Hab Hbc IH]; [apply rtc_refl|].
  assert (b < length h) as Hb by (eapply closedEdges_dependencies; [apply Hwf|done]).
  eapply rtc_r; [by apply IH|]. by apply (wf_symmetric _ Hwf).
Qed.

Lemma dependents_dependencies x y :
  x < length h →
  rtc (fun a b => b ∈ dependentsOf h a) x y →
  rtc (fun a b => b ∈ dependenciesOf h a) y x.
Proof.
  intros Hx Hr. induction Hr as [|a b c Hab Hbc IH]; [apply rtc_refl|].
  assert (b < length h) as Hb by (eapply closedEdges_dependents; [apply Hwf|done]).
  eapply rtc_r; [by apply IH|]. by apply (wf_symmetric _ Hwf).
Qed.

(** Every node has the one root, and the root reaches every node. *)
Lemma wellFormed_root x r v :
  getRootNode x h = Ok r → v < length h →
  getRootNode v h = Ok r ∧ reachable h getDependents r v.
Proof.
  intros Hr Hv.
  destruct (getRootNode_total h (wf_closed _ Hwf) (wf_acyclic _ Hwf) v Hv) as [r' Hr'].
  destruct (getRootNode_spec _ _ _ Hr) as (_ & Hrv & Hre).
  destruct (getRootNode_spec _ _ _ Hr') as (Hpath & Hrv' & Hre').
  assert (r' = r) as -> by by apply (wf_root _ Hwf).
  split; [done|]. by apply dependencies_dependents.
Qed.
End wellFormed.

Lemma reachable_dependents h start x :
  reachable h getDependents start x ↔ rtc (fun a b => b ∈ dependentsOf h a) start x.
Proof. done. Qed.

Lemma reachable_dependencies h start x :
  reachable h getDependencies start x ↔ rtc (fun a b => b ∈ dependenciesOf h a) start x.
Proof. done. Qed.

(** * cloneWithRelationships *)

(** ** The traversals of a closed heap with one node per id *)

Lemma reachable_closed h next start x :
  (∀ r y, y ∈ nextOf h next r → y < length h) →
  start < length h → reachable h next start x → x < length h.
Proof.
  intros Hc Hs [->|(y & _ & Hy)]%rtc_inv_r; [done|]. by eapply Hc.
Qed.

Lemma closedEdges_nextOf_dependents h r y :
  closedEdges h → y ∈ nextOf h getDependents r → y < length h.
Proof. intros Hc Hy. by eapply closedEdges_dependents. Qed.

Lemma closedEdges_nextOf_dependencies h r y :
  closedEdges h → y ∈ nextOf h getDependencies r → y < length h.
Proof. intros Hc Hy. by eapply closedEdges_dependencies. Qed.

Lemma closedEdges_nextOf h next r y :
  edgeReader next → closedEdges h → y ∈ nextOf h next r → y < length h.
Proof.
  intros [-> | ->] Hc Hy;
    [by eapply closedEdges_nextOf_dependents|by eapply closedEdges_nextOf_dependencies].
Qed.

Lemma visits_closed h next start :
  edgeReader next → closedEdges h → uniqueIds h → start < length h →
  ∃ calls,
    visits h next start = Ok calls ∧
    NoDup (calls.*1) ∧
    NoDup (idOf h <$> calls.*1) ∧
    (∀ x, x ∈ calls.*1 ↔ reachable h next start x) ∧
    (∀ x, x ∈ calls.*1 → x < length h) ∧
    head calls = Some (start, [start]).
Proof.
  intros Hnext Hc Hu Hs.
  destruct (visits_spec h next start Hs) as (calls & Hv & Hnd & Hndi & Hr & _ & _ & Hhd).
  - intros r x _. by apply closedEdges_nextOf.
  - intros a b Ha Hb. apply uniqueIds_inj; [done| |].
    + eapply reachable_closed; [|done|done]. intros ??. by apply closedEdges_nextOf.
    + eapply reachable_closed; [|done|done]. intros ??. by apply closedEdges_nextOf.
  - exists calls. repeat (split; [done|]). split; [|done].
    intros x Hx%Hr. eapply reachable_closed; [|done|done].
    intros ??. by apply closedEdges_nextOf.
Qed.

(** ** The inclusion set *)

Lemma runCalls_cons {A} (callback : Callback A) v p calls a h :
  runCalls callback ((v, p) :: calls) a h =
  callback v p a h ≫= fun '(a', h') => runCalls callback calls a' h'.
Proof. done. Qed.

Lemma addIdCallback_lookup h v p ids n :
  h !! v = Some n → addIdCallback v p ids h = Ok ({[_id n]} ∪ ids, h).
Proof. intros Hn. unfold addIdCallback. by rewrite (getNode_lookup _ _ _ Hn). Qed.

Lemma selectCallback_lookup h v path ids n p :
  h !! v = Some n →
  selectCallback p v path ids h =
  p n ≫= fun b : bool =>
    if negb b then Ok (ids, h)
    else traverse addIdCallback (Some getDependencies) v ids h.
Proof. intros Hn. unfold selectCallback. by rewrite (getNode_lookup _ _ _ Hn). Qed.

Lemma runCalls_addId h calls : ∀ ids,
  (∀ x, x ∈ calls.*1 → x < length h) →
  ∃ ids', runCalls addIdCallback calls ids h = Ok (ids', h) ∧
          ∀ s, s ∈ ids' ↔ s ∈ ids ∨ s ∈ (idOf h <$> calls.*1).
Proof.
  induction calls as [|[v p] calls IH]; intros ids Hvalid.
  { exists ids. split; [done|]. intros s. simpl. rewrite elem_of_nil. tauto. }
  destruct (lookup_lt_is_Some_2 h v) as [n Hn]; [apply Hvalid; left|].
  rewrite runCalls_cons, (addIdCallback_lookup _ _ _ _ _ Hn). cbn [mbind outcome_bind].
  destruct (IH ({[_id n]} ∪ ids)) as (ids' & -> & Hids').
  { intros x Hx. apply Hvalid. by right. }
  exists ids'. split; [done|]. intros s. rewrite Hids', elem_of_union, elem_of_singleton.
  simpl. rewrite elem_of_cons, (idOf_lookup _ _ _ Hn). tauto.
Qed.

Lemma addId_traverse h v ids :
  closedEdges h → uniqueIds h → v < length h →
  ∃ ids', traverse addIdCallback (Some getDependencies) v ids h = Ok (ids', h) ∧
          ∀ s, s ∈ ids' ↔ s ∈ ids ∨ ∃ a, reachable h getDependencies v a ∧ idOf h a = s.
Proof.
  intros Hc Hu Hv.
  destruct (visits_closed h getDependencies v) as (calls & Hvis & _ & _ & Hr & Hvalid & _);
    [by right|done..|].
  destruct (runCalls_addId h calls ids Hvalid) as (ids' & Hrun & Hids').
  exists ids'. split.
  - rewrite (traverse_runCalls addIdCallback h getDependencies) with (calls := calls);
      try done.
    intros node path a h1 a' h' Hpre H. by apply addIdCallback_reads in H as ->.
  - intros s. rewrite Hids'. apply or_iff_compat_l. rewrite list_elem_of_fmap.
    split; intros (a & H1 & H2); exists a; [split; [by apply Hr|done]|split; [done|by apply Hr]].
Qed.

Lemma runCalls_select h p calls : ∀ ids ids' h',
  closedEdges h → uniqueIds h →
  (∀ x, x ∈ calls.*1 → x < length h) →
  runCalls (selectCallback p) calls ids h = Ok (ids', h') →
  h' = h ∧
  ∀ s, s ∈ ids' ↔ s ∈ ids ∨
       ∃ v nv a, v ∈ calls.*1 ∧ h !! v = Some nv ∧ p nv = Ok true ∧
                 reachable h getDependencies v a ∧ idOf h a = s.
Proof.
  induction calls as [|[v path] calls IH]; intros ids ids' h' Hc Hu Hvalid H.
  { simpl in H. simplify_eq. split; [done|]. intros s. split; [by left|].
    intros [?|(v & nv & a & []%elem_of_nil & _)]. done. }
  destruct (lookup_lt_is_Some_2 h v) as [n Hn]; [apply Hvalid; left|].
  rewrite runCalls_cons, (selectCallback_lookup _ _ _ _ _ _ Hn) in H.
  destruct (p n) as [b| |] eqn:Hp; [|done..].
  destruct b; cbn [mbind outcome_bind negb] in H.
  - destruct (addId_traverse h v ids Hc Hu) as (ids1 & Ht & Hids1);
      [apply Hvalid; left|].
    rewrite Ht in H. cbn [mbind outcome_bind] in H.
    apply IH in H as [-> Hids']; [|done|done|intros x Hx; apply Hvalid; by right].
    split; [done|]. intros s. rewrite Hids', Hids1. split.
    + intros [[?|(a & Ha & Hs)]|(v' & nv & a & Hv' & ?)].
      * by left.
      * right. exists v, n, a. split; [left|done].
      * right. exists v', nv, a. split; [by right|done].
    + intros [?|(v' & nv & a & [->|Hv']%elem_of_cons & Hnv & Hpn & Ha & Hs)].
      * by do 2 left.
      * left. right. by exists a.
      * right. by exists v', nv, a.
  - apply IH in H as [-> Hids']; [|done|done|intros x Hx; apply Hvalid; by right].
    split; [done|]. intros s. rewrite Hids'. split.
    + intros [?|(v' & nv & a & Hv' & ?)]; [by left|].
      right. exists v', nv, a. split; [by right|done].
    + intros [?|(v' & nv & a & [->|Hv']%elem_of_cons & Hnv & Hpn & Ha & Hs)].
      * by left.
      * exfalso. simpl in *. congruence.
      * right. by exists v', nv, a.
Qed.

Lemma computeIdsToInclude_spec h root predicate calls idsToInclude h' :
  closedEdges h → uniqueIds h →
  visits h getDependents root = Ok calls →
  (∀ x, x ∈ calls.*1 → x < length h) →
  computeIdsToInclude root predicate h = Ok (idsToInclude, h') →
  h' = h ∧
  match predicate with
  | None => idsToInclude = None
  | Some p => ∃ ids, idsToInclude = Some ids ∧ selects h p (calls.*1) ids
  end.
Proof.
  intros Hc Hu Hv Hvalid H. unfold computeIdsToInclude in H.
  destruct predicate as [p|]; [|by simplify_eq].
  rewrite (traverse_runCalls (selectCallback p) h getDependents) with (calls := calls) in H;
    try done.
  2:{ intros node path a h1 a' h1' Hpre Hs. by apply selectCallback_reads in Hs as ->. }
  destruct (runCalls (selectCallback p) calls ∅ h) as [[ids h1]| |] eqn:Hrun; simplify_eq/=.
  apply runCalls_select in Hrun as [-> Hids]; try done.
  split; [done|]. exists ids. split; [done|].
  intros s. rewrite Hids, elem_of_empty. tauto.
Qed.

Lemma selects_ancestorClosed h p vs ids :
  closedEdges h → uniqueIds h → (∀ x, x ∈ vs → x < length h) →
  selects h p vs ids → ancestorClosed h (Some ids).
Proof.
  intros Hc Hu Hvalid Hsel v d Hv Hin Hd. simpl in *.
  apply Hsel in Hin as (w & nw & a & Hw & Hnw & Hp & Ha & Hid).
  assert (a = v) as ->.
  { apply (uniqueIds_inj h); [done| |done|done].
    eapply reachable_closed; [|by apply Hvalid|done].
    intros ??. by apply closedEdges_nextOf_dependencies. }
  apply Hsel. exists w, nw, d. repeat (split; [done|]). split; [|done].
  eapply rtc_r; [exact Ha|done].
Qed.

Lemma ancestorClosed_None h : ancestorClosed h None.
Proof. by intros v d _ _ _. Qed.

(** ** The clones *)

Lemma shouldIncludeNode_includes ids n :
  shouldIncludeNode ids n = true ↔ includes ids (_id n).
Proof.
  destruct ids as [i|]; simpl; [|done]. by rewrite bool_decide_eq_true.
Qed.

Lemma cloneCallback_lookup ids h v path m n :
  h !! v = Some n →
  cloneCallback ids v path m h =
  if negb (shouldIncludeNode ids n) then Ok (m, h)
  else Ok (<[_id n := length h]> m, h ++ [cloneNode n]).
Proof.
  intros Hn. unfold cloneCallback, cloneWithoutRelationships.
  rewrite (getNode_lookup _ _ _ Hn). cbn [mbind outcome_bind].
  destruct (negb (shouldIncludeNode ids n)); [done|].
  rewrite (getNode_lookup (length h) (h ++ [cloneNode n]) (cloneNode n)); [done|].
  by rewrite lookup_app_r, Nat.sub_diag.
Qed.

Lemma runCalls_clone ids h0 calls : ∀ m hc,
  h0 `prefix_of` hc →
  (∀ x, x ∈ calls.*1 → x < length h0) →
  runCalls (cloneCallback ids) calls m hc =
  Ok (cloneMapOf (length hc) (idOf h0 <$> includedNodes ids h0 (calls.*1)) m,
      hc ++ ((fun v => cloneNode (h0 !!! v)) <$> includedNodes ids h0 (calls.*1))).
Proof.
  induction calls as [|[v p] calls IH]; intros m hc Hpre Hvalid.
  { simpl. by rewrite app_nil_r. }
  destruct (lookup_lt_is_Some_2 h0 v) as [n Hn]; [apply Hvalid; left|].
  rewrite runCalls_cons.
  rewrite (cloneCallback_lookup _ _ _ _ _ _ (prefix_lookup_Some _ _ _ _ Hn Hpre)).
  unfold includedNodes. simpl. rewrite filter_cons.
  fold (includedNodes ids h0 (calls.*1)).
  rewrite (idOf_lookup _ _ _ Hn).
  destruct (shouldIncludeNode ids n) eqn:Hs; simpl.
  - rewrite decide_True by by apply shouldIncludeNode_includes.
    rewrite IH.
    + simpl. rewrite length_app, (idOf_lookup _ _ _ Hn). simpl.
      rewrite Nat.add_1_r, <- app_assoc. simpl.
      by rewrite (list_lookup_total_correct _ _ _ Hn).
    + by apply prefix_app_r.
    + intros x Hx. apply Hvalid. by right.
  - rewrite decide_False.
    2:{ intros Hi%shouldIncludeNode_includes. congruence. }
    apply IH; [done|]. intros x Hx. apply Hvalid. by right.
Qed.

Lemma cloneMapOf_notin ids : ∀ base m s,
  s ∉ ids → cloneMapOf base ids m !! s = m !! s.
Proof.
  induction ids as [|i ids IH]; intros base m s Hs; [done|].
  apply not_elem_of_cons in Hs as [Hne Hs]. simpl.
  rewrite IH by done. by rewrite lookup_insert_ne.
Qed.

Lemma cloneMapOf_lookup ids : ∀ base m k s,
  NoDup ids → ids !! k = Some s → cloneMapOf base ids m !! s = Some (base + k).
Proof.
  induction ids as [|i ids IH]; intros base m k s Hnd Hk; [done|].
  apply NoDup_cons in Hnd as [Hi Hnd]. simpl. destruct k as [|k]; simpl in Hk.
  - simplify_eq. rewrite cloneMapOf_notin by done.
    rewrite lookup_insert_eq. f_equal. lia.
  - rewrite (IH (S base) _ k s) by done. f_equal. lia.
Qed.

Lemma cloneMapOf_inv ids : ∀ base m s c,
  cloneMapOf base ids m !! s = Some c →
  m !! s = Some c ∨ ∃ k, ids !! k = Some s ∧ c = base + k.
Proof.
  induction ids as [|i ids IH]; intros base m s c H; [by left|].
  simpl in H. apply IH in H as [H|(k & Hk & ->)].
  - destruct (decide (i = s)) as [->|Hne].
    + rewrite lookup_insert_eq in H. simplify_eq. right. exists 0. split; [done|lia].
    + rewrite lookup_insert_ne in H by done. by left.
  - right. exists (S k). split; [done|lia].
Qed.

Lemma includedNodes_spec ids h vs v :
  v ∈ includedNodes ids h vs ↔ v ∈ vs ∧ includes ids (idOf h v).
Proof. unfold includedNodes. rewrite list_elem_of_filter. tauto. Qed.

Lemma includedNodes_NoDup_ids ids h vs :
  NoDup (idOf h <$> vs) → NoDup (idOf h <$> includedNodes ids h vs).
Proof.
  intros Hnd. eapply sublist_NoDup; [done|].
  apply fmap_sublist, sublist_filter.
Qed.

(** ** The edges of the clones *)

Lemma addEach_cons acc x l :
  addEach acc (x :: l) = addEach (if bool_decide (x ∈ acc) then acc else acc ++ [x]) l.
Proof. done. Qed.

Lemma elem_of_addEach l : ∀ acc y, y ∈ addEach acc l ↔ y ∈ acc ∨ y ∈ l.
Proof.
  induction l as [|x l IH]; intros acc y.
  { simpl. rewrite elem_of_nil. tauto. }
  rewrite addEach_cons, IH, elem_of_cons. case_bool_decide as Hx.
  - split; [tauto|]. intros [?|[->|?]]; tauto.
  - rewrite elem_of_app, list_elem_of_singleton. tauto.
Qed.

Lemma NoDup_addEach l : ∀ acc, NoDup acc → NoDup (addEach acc l).
Proof.
  induction l as [|x l IH]; intros acc Hnd; [done|].
  rewrite addEach_cons. apply IH. case_bool_decide as Hx; [done|].
  apply NoDup_app. split; [done|]. split; [|apply NoDup_singleton].
  by intros y Hy ->%list_elem_of_singleton.
Qed.

Lemma head_addEach l : ∀ acc, head (addEach acc l) = head (acc ++ l).
Proof.
  induction l as [|x l IH]; intros acc; [by rewrite app_nil_r|].
  rewrite addEach_cons, IH. case_bool_decide as Hx.
  - destruct acc; [by apply elem_of_nil in Hx|done].
  - by rewrite <- app_assoc.
Qed.

Lemma length_addEach_nil l : length (addEach [] l) = length (remove_dups l).
Proof.
  apply Permutation_length, NoDup_Permutation.
  - apply NoDup_addEach, NoDup_nil_2.
  - apply NoDup_remove_dups.
  - intros y. rewrite elem_of_addEach, elem_of_remove_dups, elem_of_nil. tauto.
Qed.

Lemma rewireCallback_lookup ids m h v path u n :
  h !! v = Some n →
  rewireCallback ids m v path u h =
  if negb (shouldIncludeNode ids n) then Ok ((), h)
  else rewire m (m !! _id n) (_dependencies n) h ≫= fun h' => Ok ((), h').
Proof. intros Hn. unfold rewireCallback. by rewrite (getNode_lookup _ _ _ Hn). Qed.

Section rewire.
Context (h0 : heap) (m : gmap string ref) (size : nat).
Hypothesis Hm : ∀ s c, m !! s = Some c → length h0 ≤ c < size.

Lemma rewire_spec c deps : ∀ h,
  rewireInv h0 size h →
  length h0 ≤ c < size →
  (∀ d, d ∈ deps → d < length h0 ∧ is_Some (m !! idOf h0 d)) →
  ∃ h', rewire m (Some c) deps h = Ok h' ∧
        rewireInv h0 size h' ∧
        (∀ r, idOf h' r = idOf h r) ∧
        (∀ r, dependenciesOf h' r =
              (if decide (r = c)
               then addEach (dependenciesOf h c) (cloneOf m h0 <$> deps)
               else dependenciesOf h r)).
Proof.
  induction deps as [|d deps IH]; intros h Hinv Hc Hdeps.
  { exists h. split; [done|]. split; [done|]. split; [done|].
    intros r. simpl. by case_decide; subst. }
  destruct Hinv as (Hpre & Hlen & Hsym & Hcl).
  destruct (Hdeps d) as [Hd [cd Hcd]]; [left|].
  destruct (lookup_lt_is_Some_2 h0 d Hd) as [nd Hnd].
  assert (h !! d = Some nd) as Hnd' by by eapply prefix_lookup_Some.
  rewrite (idOf_lookup _ _ _ Hnd) in Hcd.
  destruct (Hm _ _ Hcd) as [Hcd1 Hcd2].
  destruct (addDependency_total c cd h) as [h1 Hadd]; [lia..|].
  cbn [rewire]. rewrite (getNode_lookup _ _ _ Hnd'). cbn [mbind outcome_bind from_option].
  rewrite Hcd, Hadd. cbn [mbind outcome_bind].
  assert (rewireInv h0 size h1) as Hinv1.
  { split; [eapply addDependency_prefix; [exact Hpre| | |exact Hadd]; lia|]. split.
    - apply addDependency_spec in Hadd as (_ & [[_ ->]|(_ & _ & Hl & _)]); congruence.
    - split; [by eapply addDependency_symmetric|by eapply addDependency_closed]. }
  destruct (IH h1 Hinv1 Hc) as (h' & Hr & Hinv' & Hid' & Hdeps').
  { intros x Hx. apply Hdeps. by right. }
  exists h'. split; [done|]. split; [done|].
  assert (cloneOf m h0 d = cd) as Hclone.
  { unfold cloneOf. by rewrite (idOf_lookup _ _ _ Hnd), Hcd. }
  apply addDependency_spec in Hadd
    as (_ & [[Hin ->]|(Hnin & _ & _ & Hd1 & _ & Hi1)]).
  - split; [done|]. intros r. rewrite Hdeps'. case_decide; [|done].
    rewrite fmap_cons, addEach_cons, Hclone. by rewrite bool_decide_true.
  - split; [intros r; by rewrite Hid', Hi1|].
    intros r. rewrite Hdeps'. destruct (decide (r = c)) as [->|Hrc].
    + rewrite Hd1, decide_True by done.
      rewrite fmap_cons, addEach_cons, Hclone. by rewrite bool_decide_false.
    + by rewrite Hd1, decide_False.
Qed.

Context (ids : option (gset string)).

(** The third traversal, call by call. *)
Lemma runCalls_rewire calls : ∀ h,
  rewireInv h0 size h →
  NoDup (idOf h0 <$> calls.*1) →
  (∀ s s' c, m !! s = Some c → m !! s' = Some c → s = s') →
  (∀ v, v ∈ calls.*1 → v < length h0) →
  (∀ v, v ∈ calls.*1 → includes ids (idOf h0 v) →
        is_Some (m !! idOf h0 v) ∧
        ∀ d, d ∈ dependenciesOf h0 v → d < length h0 ∧ is_Some (m !! idOf h0 d)) →
  ∃ h', runCalls (rewireCallback ids m) calls () h = Ok ((), h') ∧
        rewireInv h0 size h' ∧
        (∀ r, idOf h' r = idOf h r) ∧
        (∀ v, v ∈ calls.*1 → includes ids (idOf h0 v) →
              dependenciesOf h' (cloneOf m h0 v) =
              addEach (dependenciesOf h (cloneOf m h0 v))
                      (cloneOf m h0 <$> dependenciesOf h0 v)) ∧
        (∀ c, (∀ v, v ∈ calls.*1 → includes ids (idOf h0 v) → cloneOf m h0 v ≠ c) →
              dependenciesOf h' c = dependenciesOf h c).
Proof.
  induction calls as [|[v p] calls IH]; intros h Hinv Hnd Hinj Hvalid Hcov.
  { exists h. split; [done|]. split; [done|]. split; [done|].
    split; [by intros v ?%elem_of_nil|done]. }
  simpl in Hnd. apply NoDup_cons in Hnd as [Hv Hnd].
  destruct (lookup_lt_is_Some_2 h0 v) as [n Hn]; [apply Hvalid; left|].
  assert (h !! v = Some n) as Hn' by (eapply prefix_lookup_Some; [done|apply Hinv]).
  rewrite runCalls_cons, (rewireCallback_lookup _ _ _ _ _ _ _ Hn').
  assert (∀ w, w ∈ calls.*1 → includes ids (idOf h0 w) →
               cloneOf m h0 w ≠ cloneOf m h0 v ∨ ¬ includes ids (idOf h0 v)) as Hother.
  { intros w Hw Hiw.
    destruct (decide (includes ids (idOf h0 v))) as [Hiv|]; [left|by right].
    destruct (Hcov w) as [[cw Hcw] _]; [by right|done|].
    destruct (Hcov v) as [[cv Hcv] _]; [left|done|].
    unfold cloneOf. rewrite Hcw, Hcv. simpl. intros ->.
    apply Hv. rewrite <- (Hinj _ _ _ Hcw Hcv). by apply list_elem_of_fmap_2. }
  destruct (shouldIncludeNode ids n) eqn:Hs; cbn [negb].
  - apply shouldIncludeNode_includes in Hs as Hiv.
    rewrite <- (idOf_lookup _ _ _ Hn) in Hiv.
    destruct (Hcov v) as [[cv Hcv] Hdv]; [left|done|].
    rewrite <- (idOf_lookup _ _ _ Hn), Hcv.
    rewrite <- (dependenciesOf_lookup _ _ _ Hn).
    destruct (rewire_spec cv (dependenciesOf h0 v) h Hinv (Hm _ _ Hcv) Hdv)
      as (h1 & -> & Hinv1 & Hid1 & Hdeps1).
    cbn [mbind outcome_bind].
    destruct (IH h1 Hinv1 Hnd Hinj) as (h' & -> & Hinv' & Hid' & Hdeps' & Hframe').
    { intros w Hw. apply Hvalid. by right. }
    { intros w Hw. apply Hcov. by right. }
    assert (cloneOf m h0 v = cv) as Hcl by (unfold cloneOf; by rewrite Hcv).
    exists h'. split; [done|]. split; [done|].
    split; [intros r; by rewrite Hid', Hid1|]. split.
    + intros w Hw Hiw. simpl in Hw. apply elem_of_cons in Hw as [->|Hw].
      * rewrite Hframe'.
        -- by rewrite Hdeps1, Hcl, decide_True.
        -- intros w Hw Hiw'. destruct (Hother w Hw Hiw'); done.
      * rewrite (Hdeps' w Hw Hiw), Hdeps1.
        rewrite decide_False; [done|].
        rewrite <- Hcl. destruct (Hother w Hw Hiw); done.
    + intros c Hc. rewrite Hframe'.
      * rewrite Hdeps1, decide_False; [done|]. rewrite <- Hcl.
        intros Heq. apply (Hc v); [left|done|done].
      * intros w Hw. apply Hc. by right.
  - assert (¬ includes ids (idOf h0 v)) as Hniv.
    { rewrite (idOf_lookup _ _ _ Hn). intros Hi%shouldIncludeNode_includes. congruence. }
    cbn [mbind outcome_bind].
    destruct (IH h Hinv Hnd Hinj) as (h' & -> & Hinv' & Hid' & Hdeps' & Hframe').
    { intros w Hw. apply Hvalid. by right. }
    { intros w Hw. apply Hcov. by right. }
    exists h'. split; [done|]. split; [done|]. split; [done|]. split.
    + intros w Hw Hiw. simpl in Hw. apply elem_of_cons in Hw as [->|Hw]; [done|].
      by apply Hdeps'.
    + intros c Hc. apply Hframe'. intros w Hw. apply Hc. by right.
Qed.
End rewire.

(** ** cloneGraph on a well-formed graph *)

Lemma rewire_prefix h0 m c deps : ∀ h h',
  (∀ s x, m !! s = Some x → length h0 ≤ x) →
  from_option (fun c => length h0 ≤ c) True c →
  h0 `prefix_of` h → rewire m c deps h = Ok h' → h0 `prefix_of` h'.
Proof.
  induction deps as [|d deps IH]; intros h h' Hm Hc Hpre H; simplify_eq/=; [done|].
  destruct (getNode d h) as [nd| |]; simplify_eq/=.
  destruct c as [c|]; simplify_eq/=.
  destruct (m !! _id nd) as [cd|] eqn:Hcd; simplify_eq/=.
  2:{ by destruct (getNode c h). }
  destruct (addDependency c cd h) as [h1| |] eqn:Hadd; simplify_eq/=.
  eapply (IH h1); [done|done| |done].
  eapply addDependency_prefix; [done|done| |done]. by eapply Hm.
Qed.

Lemma rewireCallback_prefix h0 ids m node path u h u' h' :
  (∀ s x, m !! s = Some x → length h0 ≤ x) →
  h0 `prefix_of` h → rewireCallback ids m node path u h = Ok (u', h') → h0 `prefix_of` h'.
Proof.
  intros Hm Hpre H. unfold rewireCallback in H.
  destruct (getNode node h) as [n| |]; simplify_eq/=.
  destruct (shouldIncludeNode ids n); simplify_eq/=; [|done].
  destruct (rewire m (m !! _id n) (_dependencies n) h) as [h1| |] eqn:Hr; simplify_eq/=.
  eapply rewire_prefix; [done| |done|done].
  destruct (m !! _id n) as [c|] eqn:Hc; [|done]. simpl. by eapply Hm.
Qed.

Lemma cloneCallback_prefix h0 ids node path m h m' h' :
  h0 `prefix_of` h → cloneCallback ids node path m h = Ok (m', h') → h0 `prefix_of` h'.
Proof.
  intros Hpre H. unfold cloneCallback, cloneWithoutRelationships in H.
  destruct (getNode node h) as [n| |]; simplify_eq/=.
  destruct (shouldIncludeNode ids n); simplify_eq/=; [|done].
  destruct (getNode (length h) (h ++ [cloneNode n])); simplify_eq/=.
  by apply prefix_app_r.
Qed.

(** The heap with the fresh clones appended. *)
Lemma fresh_clones_lookup (h : heap) (cl : list Node) r :
  length h ≤ r → (∀ n, n ∈ cl → _dependents n = [] ∧ _dependencies n = []) →
  dependentsOf (h ++ cl) r = [] ∧ dependenciesOf (h ++ cl) r = [].
Proof.
  intros Hr Hcl. unfold dependentsOf, dependenciesOf. rewrite lookup_app_r by done.
  destruct (cl !! (r - length h)) as [n|] eqn:Hn; [|done].
  apply list_elem_of_lookup_2 in Hn. by apply Hcl.
Qed.

Lemma fresh_clones_old (h : heap) (cl : list Node) r :
  r < length h →
  dependentsOf (h ++ cl) r = dependentsOf h r ∧
  dependenciesOf (h ++ cl) r = dependenciesOf h r.
Proof. intros Hr. unfold dependentsOf, dependenciesOf. by rewrite lookup_app_l. Qed.

Lemma fresh_clones_inv (h : heap) (cl : list Node) :
  symmetricEdges h → closedEdges h →
  (∀ n, n ∈ cl → _dependents n = [] ∧ _dependencies n = []) →
  rewireInv h (length (h ++ cl)) (h ++ cl).
Proof.
  intros Hsym Hc Hcl. split; [by apply prefix_app_r|]. split; [done|]. split.
  - intros a b Ha Hb.
    destruct (decide (a < length h)) as [Ha'|Ha'], (decide (b < length h)) as [Hb'|Hb'].
    + destruct (fresh_clones_old h cl a Ha') as [_ ->].
      destruct (fresh_clones_old h cl b Hb') as [-> _]. by apply Hsym.
    + destruct (fresh_clones_old h cl a Ha') as [_ ->].
      destruct (fresh_clones_lookup h cl b) as [-> _]; [lia|done|].
      split; [by intros ?%elem_of_nil|].
      intros Hin. apply closedEdges_dependencies in Hin; [lia|done].
    + destruct (fresh_clones_lookup h cl a) as [_ ->]; [lia|done|].
      destruct (fresh_clones_old h cl b Hb') as [-> _].
      split; [|by intros ?%elem_of_nil].
      intros Hin. apply closedEdges_dependents in Hin; [lia|done].
    + destruct (fresh_clones_lookup h cl a) as [_ ->]; [lia|done|].
      destruct (fresh_clones_lookup h cl b) as [-> _]; [lia|done|].
      by rewrite !elem_of_nil.
  - intros r x Hx. rewrite length_app.
    destruct (decide (r < length h)) as [Hr|Hr].
    + destruct (fresh_clones_old h cl r Hr) as [E1 E2]. rewrite E1, E2 in Hx.
      specialize (Hc r x Hx). lia.
    + destruct (fresh_clones_lookup h cl r) as [E1 E2]; [lia|done|].
      rewrite E1, E2 in Hx. destruct Hx as [[]%elem_of_nil|[]%elem_of_nil].
Qed.

Lemma cloneGraph_spec h this predicate root calls ids :
  closedEdges h → symmetricEdges h →
  this < length h →
  getRootNode this h = Ok root →
  visits h getDependents root = Ok calls →
  NoDup (idOf h <$> calls.*1) →
  (∀ v, v ∈ calls.*1 ↔ v < length h) →
  computeIdsToInclude root predicate h = Ok (ids, h) →
  ancestorClosed h ids →
  ∃ m h', cloneGraph this predicate h = Ok (m, h') ∧ cloneResult h ids (calls.*1) m h'.
Proof.
  intros Hc Hsym Hthis Hroot Hvis Hnd Hall Hids Hanc.
  pose (inc := includedNodes ids h (calls.*1)).
  pose (m := cloneMapOf (length h) (idOf h <$> inc) ∅).
  pose (cl := (fun v => cloneNode (h !!! v)) <$> inc).
  assert (NoDup (idOf h <$> inc)) as Hndi by by apply includedNodes_NoDup_ids.
  assert (length cl = length inc) as Hlcl by (unfold cl; by rewrite length_fmap).
  assert (∀ k v, inc !! k = Some v → m !! idOf h v = Some (length h + k)) as Hmap.
  { intros k v Hk. apply cloneMapOf_lookup; [done|]. by rewrite list_lookup_fmap, Hk. }
  assert (∀ s c, m !! s = Some c →
            ∃ k v, inc !! k = Some v ∧ idOf h v = s ∧ c = length h + k) as Hmapinv.
  { intros s c [Hs|(k & Hk & ->)]%cloneMapOf_inv; [by rewrite lookup_empty in Hs|].
    apply list_lookup_fmap_Some in Hk as (v & -> & Hv). by exists k, v. }
  assert (∀ s c, m !! s = Some c → length h ≤ c < length (h ++ cl)) as Hm.
  { intros s c (k & v & Hk & _ & ->)%Hmapinv. apply lookup_lt_Some in Hk.
    rewrite length_app, Hlcl. lia. }
  assert (∀ v, v ∈ calls.*1 → includes ids (idOf h v) → is_Some (m !! idOf h v)) as Hcov.
  { intros v Hv Hi.
    assert (v ∈ inc) as [k Hk]%list_elem_of_lookup_1 by by apply includedNodes_spec.
    rewrite (Hmap _ _ Hk). eauto. }
  unfold cloneGraph. rewrite Hroot. cbn [mbind outcome_bind]. rewrite Hids.
  cbn [mbind outcome_bind].
  rewrite (traverse_runCalls (cloneCallback ids) h getDependents) with (calls := calls);
    [|intros ??????; apply cloneCallback_prefix|done|done|done].
  rewrite (runCalls_clone ids h calls ∅ h); [|done|intros x Hx; by apply Hall].
  fold inc. fold m. fold cl. cbn [mbind outcome_bind].
  rewrite (traverse_runCalls (rewireCallback ids m) h getDependents) with (calls := calls);
    [|intros ??????; apply rewireCallback_prefix; intros s x Hs; by apply (Hm s)
     |done|by apply prefix_app_r|done].
  destruct (runCalls_rewire h m (length (h ++ cl)) Hm ids calls (h ++ cl))
    as (h2 & -> & Hinv2 & Hid2 & Hdeps2 & _).
  { apply fresh_clones_inv; [done|done|].
    intros n (v & -> & _)%list_elem_of_fmap. done. }
  { done. }
  { intros s s' c (k & v & Hk & <- & ->)%Hmapinv (k' & v' & Hk' & <- & Heq)%Hmapinv.
    assert (k' = k) as -> by lia. congruence. }
  { intros v Hv. by apply Hall. }
  { intros v Hv Hi. split; [by apply Hcov|].
    intros d Hd. assert (d < length h) by by eapply closedEdges_dependencies.
    split; [done|]. apply Hcov; [by apply Hall|].
    eapply Hanc; [|done|done]. by apply Hall. }
  cbn [mbind outcome_bind]. exists m, h2. split; [done|].
  destruct Hinv2 as (Hpre2 & Hlen2 & Hsym2 & Hcl2).
  assert (∀ k v, inc !! k = Some v → cloneOf m h v = length h + k) as Hclone.
  { intros k v Hk. unfold cloneOf. by rewrite (Hmap _ _ Hk). }
  split.
  - done.
  - rewrite Hlen2, length_app. fold inc. lia.
  - done.
  - done.
  - intros k v Hk. fold inc in Hk. rewrite Hid2. unfold idOf at 1.
    rewrite lookup_app_r by lia.
    replace (length h + k - length h) with k by lia.
    unfold cl. rewrite list_lookup_fmap, Hk. simpl.
    assert (v < length h) as [n Hn]%lookup_lt_is_Some_2.
    { apply Hall. eapply includedNodes_spec, list_elem_of_lookup_2, Hk. }
    by rewrite (list_lookup_total_correct _ _ _ Hn), (idOf_lookup _ _ _ Hn).
  - intros k v Hk. fold inc in Hk.
    assert (v ∈ inc) as [Hv Hi]%includedNodes_spec by by eapply list_elem_of_lookup_2.
    specialize (Hdeps2 v Hv Hi). rewrite (Hclone _ _ Hk) in Hdeps2.
    rewrite Hdeps2.
    destruct (fresh_clones_lookup h cl (length h + k)) as [_ ->]; [lia| |done].
    intros n (w & -> & _)%list_elem_of_fmap. done.
  - done.
  - done.
Qed.

(** ** The graph of the clones *)

Lemma wellFormed_visits h this root :
  wellFormed h → this < length h → getRootNode this h = Ok root →
  ∃ calls,
    visits h getDependents root = Ok calls ∧
    NoDup (calls.*1) ∧
    NoDup (idOf h <$> calls.*1) ∧
    (∀ v, v ∈ calls.*1 ↔ v < length h) ∧
    head calls = Some (root, [root]).
Proof.
  intros Hwf Hthis Hroot.
  destruct (getRootNode_spec _ _ _ Hroot) as (_ & Hrv & _).
  destruct (visits_closed h getDependents root) as (calls & Hv & Hnd & Hndi & Hr & Hval & Hhd);
    [by left|apply Hwf..|done|].
  exists calls. repeat (split; [done|]). split; [|done].
  intros v. split; [apply Hval|].
  intros Hv'. apply Hr. by eapply wellFormed_root.
Qed.

Section cloneGraph.
Context (h : heap) (ids : option (gset string)) (vs : list ref)
        (m : gmap string ref) (h' : heap).
Hypothesis Hwf : wellFormed h.
Hypothesis Hres : cloneResult h ids vs m h'.
Hypothesis Hvs : ∀ v, v ∈ vs ↔ v < length h.
Hypothesis Hndi : NoDup (idOf h <$> vs).
Hypothesis Hanc : ancestorClosed h ids.

Lemma cloneOf_included v :
  v < length h → includes ids (idOf h v) →
  ∃ k, includedNodes ids h vs !! k = Some v ∧ cloneOf m h v = length h + k.
Proof.
  intros Hv Hi.
  assert (v ∈ includedNodes ids h vs) as [k Hk]%list_elem_of_lookup_1.
  { apply includedNodes_spec. split; [by apply Hvs|done]. }
  exists k. split; [done|]. unfold cloneOf. by rewrite (cr_map _ _ _ _ _ Hres _ _ Hk).
Qed.

Lemma cloneOf_valid v :
  v < length h → includes ids (idOf h v) → length h ≤ cloneOf m h v < length h'.
Proof.
  intros Hv Hi. destruct (cloneOf_included v Hv Hi) as (k & Hk & ->).
  apply lookup_lt_Some in Hk. rewrite (cr_length _ _ _ _ _ Hres). lia.
Qed.

Lemma clone_dependencies v :
  v < length h → includes ids (idOf h v) →
  dependenciesOf h' (cloneOf m h v) = addEach [] (cloneOf m h <$> dependenciesOf h v).
Proof.
  intros Hv Hi. destruct (cloneOf_included v Hv Hi) as (k & Hk & ->).
  by apply (cr_deps _ _ _ _ _ Hres).
Qed.

Lemma original_edges r :
  r < length h →
  dependentsOf h' r = dependentsOf h r ∧ dependenciesOf h' r = dependenciesOf h r.
Proof.
  intros [n Hn]%lookup_lt_is_Some_2.
  pose proof (prefix_lookup_Some _ _ _ _ Hn (cr_prefix _ _ _ _ _ Hres)) as Hn'.
  by rewrite (dependentsOf_lookup _ _ _ Hn), (dependenciesOf_lookup _ _ _ Hn),
    (dependentsOf_lookup _ _ _ Hn'), (dependenciesOf_lookup _ _ _ Hn').
Qed.

(** A dependency of a clone is the clone of a dependency. *)
Lemma clone_dependency_inv c x :
  length h ≤ c → c < length h' → x ∈ dependenciesOf h' c → length h ≤ x.
Proof.
  intros Hc Hc' Hx.
  rewrite (cr_length _ _ _ _ _ Hres) in Hc'.
  destruct (lookup_lt_is_Some_2 (includedNodes ids h vs) (c - length h)) as [v Hk]; [lia|].
  replace c with (length h + (c - length h)) in Hx by lia.
  rewrite (cr_deps _ _ _ _ _ Hres _ _ Hk) in Hx.
  apply elem_of_addEach in Hx as [[]%elem_of_nil|Hx].
  apply list_elem_of_fmap in Hx as (d & -> & Hd).
  assert (v ∈ includedNodes ids h vs) as [Hv Hi]%includedNodes_spec
    by by eapply list_elem_of_lookup_2.
  apply Hvs in Hv.
  apply cloneOf_valid.
  - eapply closedEdges_dependencies; [apply Hwf|done].
  - by eapply Hanc.
Qed.

(** The dependents of a clone are clones. *)
Lemma clone_dependent_inv c x :
  length h ≤ c → c < length h' → x ∈ dependentsOf h' c → length h ≤ x.
Proof.
  intros Hc Hc' Hx.
  assert (x < length h') as Hx' by (eapply closedEdges_dependents; [apply Hres|done]).
  apply (cr_symmetric _ _ _ _ _ Hres) in Hx; [|done..].
  destruct (decide (length h ≤ x)) as [|Hlt]; [done|]. exfalso.
  destruct (original_edges x) as [_ E]; [lia|]. rewrite E in Hx.
  apply closedEdges_dependencies in Hx; [lia|apply Hwf].
Qed.

Lemma clones_reachable c x :
  length h ≤ c → c < length h' →
  reachable h' getDependents c x → length h ≤ x < length h'.
Proof.
  intros Hc Hc' Hr. induction Hr as [|a b z Hab _ IH]; [done|].
  assert (b < length h') by (eapply closedEdges_dependents; [apply Hres|done]).
  apply IH; [|done]. by eapply clone_dependent_inv.
Qed.

Lemma clone_getRootNode_loop fuel : ∀ x root,
  x < length h → includes ids (idOf h x) →
  getRootNode_loop fuel x h = Ok root →
  getRootNode_loop fuel (cloneOf m h x) h' = Ok (cloneOf m h root).
Proof.
  induction fuel as [|fuel IH]; intros x root Hx Hi H; [done|].
  destruct (lookup_lt_is_Some_2 h x Hx) as [n Hn].
  destruct (cloneOf_valid x Hx Hi) as [_ Hcv].
  destruct (lookup_lt_is_Some_2 h' _ Hcv) as [n' Hn'].
  pose proof (clone_dependencies x Hx Hi) as Hd.
  rewrite (dependenciesOf_lookup _ _ _ Hn'), (dependenciesOf_lookup _ _ _ Hn) in Hd.
  simpl in *. rewrite (getNode_lookup _ _ _ Hn) in H. rewrite (getNode_lookup _ _ _ Hn').
  cbn [mbind outcome_bind] in *.
  destruct (_dependencies n) as [|d ds] eqn:Hdn.
  - simplify_eq. simpl in Hd. by rewrite Hd.
  - pose proof (head_addEach (cloneOf m h <$> d :: ds) []) as Hhd.
    rewrite <- Hd in Hhd. simpl in Hhd.
    destruct (_dependencies n') as [|d' ds']; simplify_eq/=.
    assert (d ∈ dependenciesOf h x) as Hdx.
    { rewrite (dependenciesOf_lookup _ _ _ Hn), Hdn. left. }
    apply IH; [|by eapply Hanc|done].
    eapply closedEdges_dependencies; [apply Hwf|done].
Qed.

Lemma clone_reaches root v :
  root < length h →
  rtc (fun a b => b ∈ dependentsOf h a) root v →
  includes ids (idOf h v) →
  includes ids (idOf h root) ∧
  reachable h' getDependents (cloneOf m h root) (cloneOf m h v).
Proof.
  intros Hroot Hr. revert v Hr. apply (rtc_ind_r (fun v => includes ids (idOf h v) → _)).
  { intros Hi. split; [done|apply rtc_refl]. }
  intros u v Hu Huv IH Hi.
  assert (u < length h) as Hul.
  { eapply (reachable_closed h getDependents root); [|done|done].
    intros ??. apply closedEdges_nextOf_dependents, Hwf. }
  assert (v < length h) as Hvl by (eapply closedEdges_dependents; [apply Hwf|done]).
  assert (u ∈ dependenciesOf h v) as Hdep by by apply (wf_symmetric _ Hwf).
  assert (includes ids (idOf h u)) as Hiu by by eapply Hanc.
  destruct (IH Hiu) as [Hir Hreach]. split; [done|].
  eapply rtc_r; [exact Hreach|].
  change (cloneOf m h v ∈ dependentsOf h' (cloneOf m h u)).
  apply (cr_symmetric _ _ _ _ _ Hres); [by apply cloneOf_valid..|].
  rewrite clone_dependencies by done.
  apply elem_of_addEach. right. by apply list_elem_of_fmap_2.
Qed.

(** The nodes of the returned graph are the clones, each once. *)
Lemma clone_graphNodes this root :
  this < length h → includes ids (idOf h this) →
  getRootNode this h = Ok root →
  ∃ cs, graphNodes (cloneOf m h this) h' = Ok cs ∧
        cs ≡ₚ seq (length h) (length (includedNodes ids h vs)).
Proof.
  intros Hthis Hi Hroot.
  destruct (getRootNode_spec _ _ _ Hroot) as (Hpath & Hrv & _).
  assert (includes ids (idOf h root) ∧
          ∀ v, v < length h → includes ids (idOf h v) →
               reachable h' getDependents (cloneOf m h root) (cloneOf m h v))
    as [Hir Hreach].
  { split.
    - eapply (clone_reaches root this); [done| |done].
      by apply (dependencies_dependents h Hwf).
    - intros v Hv Hiv. eapply clone_reaches; [done| |done].
      eapply wellFormed_root; done. }
  destruct (cloneOf_valid root Hrv Hir) as [Hcr1 Hcr2].
  destruct (traverse_recordCalls_spec h' None (cloneOf m h root) Hcr2)
    as (calls & Ht & Hnd & Hr & _).
  { intros r x _ Hx. eapply closedEdges_dependents; [apply Hres|done]. }
  { intros a b Ha%clones_reachable Hb%clones_reachable; [|done..].
    rewrite (cr_length _ _ _ _ _ Hres) in Ha, Hb.
    destruct (lookup_lt_is_Some_2 (includedNodes ids h vs) (a - length h)) as [va Hka];
      [lia|].
    destruct (lookup_lt_is_Some_2 (includedNodes ids h vs) (b - length h)) as [vb Hkb];
      [lia|].
    replace a with (length h + (a - length h)) at 1 by lia.
    replace b with (length h + (b - length h)) at 1 by lia.
    rewrite (cr_id _ _ _ _ _ Hres _ _ Hka), (cr_id _ _ _ _ _ Hres _ _ Hkb).
    intros Heq.
    assert (a - length h = b - length h); [|lia].
    eapply NoDup_lookup; [by apply (includedNodes_NoDup_ids ids h vs)| |].
    - by rewrite list_lookup_fmap, Hka.
    - rewrite list_lookup_fmap, Hkb. simpl. by rewrite Heq. }
  exists (calls.*1). split.
  - unfold graphNodes, getRootNode.
    rewrite (getRootNode_loop_fuel (S (length h)) _ _ _ (cloneOf m h root)).
    + cbn [mbind outcome_bind]. rewrite Ht. done.
    + by apply clone_getRootNode_loop.
    + pose proof (prefix_length _ _ (cr_prefix _ _ _ _ _ Hres)). lia.
  - apply NoDup_Permutation; [done|apply NoDup_seq|].
    intros x. rewrite Hr, elem_of_seq, <- (cr_length _ _ _ _ _ Hres). split.
    + intros Hx%clones_reachable; [lia|done..].
    + intros [Hx1 Hx2]. rewrite (cr_length _ _ _ _ _ Hres) in Hx2.
      destruct (lookup_lt_is_Some_2 (includedNodes ids h vs) (x - length h)) as [v Hk];
        [lia|].
      assert (v ∈ includedNodes ids h vs) as [Hv Hiv]%includedNodes_spec
        by by eapply list_elem_of_lookup_2.
      apply Hvs in Hv.
      destruct (cloneOf_included v Hv Hiv) as (k & Hk' & Hc).
      assert (k = x - length h) as ->.
      { eapply NoDup_lookup; [|exact Hk'|exact Hk].
        eapply (NoDup_fmap_1 (idOf h)), includedNodes_NoDup_ids, Hndi. }
      replace x with (cloneOf m h v) by lia. by apply Hreach.
Qed.
End cloneGraph.

(** ** cloneWithRelationships on a well-formed graph *)

Lemma runCalls_select_total h p calls : ∀ ids,
  closedEdges h → uniqueIds h →
  (∀ x, x ∈ calls.*1 → x < length h) →
  (∀ n, n ∈ h → ∃ b, p n = Ok b) →
  ∃ ids', runCalls (selectCallback p) calls ids h = Ok (ids', h).
Proof.
  induction calls as [|[v path] calls IH]; intros ids Hc Hu Hvalid Hp; [by exists ids|].
  destruct (lookup_lt_is_Some_2 h v) as [n Hn]; [apply Hvalid; left|].
  rewrite runCalls_cons, (selectCallback_lookup _ _ _ _ _ _ Hn).
  destruct (Hp n) as [b ->]; [by eapply list_elem_of_lookup_2|].
  assert (∀ x, x ∈ calls.*1 → x < length h) as Hvalid'.
  { intros x Hx. apply Hvalid. by right. }
  destruct b; cbn [mbind outcome_bind negb].
  - destruct (addId_traverse h v ids Hc Hu) as (ids1 & -> & _); [apply Hvalid; left|].
    cbn [mbind outcome_bind]. by apply IH.
  - by apply IH.
Qed.

Lemma computeIdsToInclude_total h root predicate calls :
  closedEdges h → uniqueIds h →
  visits h getDependents root = Ok calls →
  (∀ x, x ∈ calls.*1 → x < length h) →
  (∀ p, predicate = Some p → ∀ n, n ∈ h → ∃ b, p n = Ok b) →
  ∃ ids, computeIdsToInclude root predicate h = Ok (ids, h).
Proof.
  intros Hc Hu Hv Hvalid Hp. unfold computeIdsToInclude.
  destruct predicate as [p|]; [|by exists None].
  rewrite (traverse_runCalls (selectCallback p) h getDependents) with (calls := calls);
    try done.
  2:{ intros node path a h1 a' h1' Hpre Hs. by apply selectCallback_reads in Hs as ->. }
  destruct (runCalls_select_total h p calls ∅ Hc Hu Hvalid) as [ids ->]; [by apply Hp|].
  by exists (Some ids).
Qed.

Lemma cloneWithRelationships_spec h this predicate root calls ids :
  wellFormed h → this < length h →
  getRootNode this h = Ok root →
  visits h getDependents root = Ok calls →
  computeIdsToInclude root predicate h = Ok (ids, h) →
  ancestorClosed h ids ∧
  ∃ m h',
    cloneGraph this predicate h = Ok (m, h') ∧
    cloneResult h ids (calls.*1) m h' ∧
    cloneWithRelationships this predicate h =
      (if decide (includes ids (idOf h this))
       then Ok (cloneOf m h this, h') else Throw ClonedGraphMissingNode) ∧
    (m !! idOf h this = None ↔ ¬ includes ids (idOf h this)) ∧
    (includes ids (idOf h this) →
     ∃ cs, graphNodes (cloneOf m h this) h' = Ok cs ∧
           cs ≡ₚ seq (length h) (length (includedNodes ids h (calls.*1)))).
Proof.
  intros Hwf Hthis Hroot Hvis Hids.
  destruct (wellFormed_visits h this root Hwf Hthis Hroot)
    as (calls' & Hvis' & Hnd & Hndi & Hall & Hhd).
  assert (calls' = calls) as -> by congruence.
  assert (ancestorClosed h ids) as Hanc.
  { destruct (computeIdsToInclude_spec h root predicate calls ids h) as [_ Hsel];
      [apply Hwf|apply Hwf|done|intros x; apply Hall|done|].
    destruct predicate as [p|]; [|subst; apply ancestorClosed_None].
    destruct Hsel as (i & -> & Hsel).
    eapply selects_ancestorClosed; [apply Hwf|apply Hwf| |done]. intros x. apply Hall. }
  split; [done|].
  destruct (cloneGraph_spec h this predicate root calls ids) as (m & h' & Hg & Hres);
    [apply Hwf|apply Hwf|done..|].
  exists m, h'. split; [done|]. split; [done|].
  destruct (lookup_lt_is_Some_2 h this Hthis) as [t Ht].
  assert (m !! idOf h this = None ↔ ¬ includes ids (idOf h this)) as Hnone.
  { split.
    - intros Hm Hi.
      assert (this ∈ includedNodes ids h (calls.*1)) as [k Hk]%list_elem_of_lookup_1.
      { apply includedNodes_spec. split; [by apply Hall|done]. }
      by rewrite (cr_map _ _ _ _ _ Hres _ _ Hk) in Hm.
    - intros Hni. destruct (m !! idOf h this) as [c|] eqn:Hc; [|done]. exfalso.
      destruct (cr_map_inv _ _ _ _ _ Hres _ _ Hc) as (k & v & Hk & Hid & _).
      assert (v ∈ includedNodes ids h (calls.*1)) as [Hv Hi]%includedNodes_spec
        by by eapply list_elem_of_lookup_2.
      apply Hni. by rewrite <- Hid. }
  split; [|split; [done|]].
  - unfold cloneWithRelationships. rewrite Hg. cbn [mbind outcome_bind].
    rewrite (getNode_lookup _ _ _
               (prefix_lookup_Some _ _ _ _ Ht (cr_prefix _ _ _ _ _ Hres))).
    cbn [mbind outcome_bind]. rewrite <- (idOf_lookup _ _ _ Ht).
    case_decide as Hi.
    + unfold cloneOf. destruct (m !! idOf h this) as [c|] eqn:Hc; [done|].
      exfalso. by apply (proj1 Hnone).
    + apply Hnone in Hi. by rewrite Hi.
  - intros Hi. by eapply clone_graphNodes.
Qed.

(** * Checking well-formedness *)

Lemma wellFormedb_sound h : wellFormedb h = true → wellFormed h.
Proof.
  unfold wellFormedb. intros [Hall Hu%bool_decide_eq_true]%andb_true_iff.
  rewrite forallb_forall in Hall.
  assert (∀ r, r < length h →
     (∀ x, x ∈ dependentsOf h r ++ dependenciesOf h r → x < length h) ∧
     (∀ x, x ∈ dependenciesOf h r → x < r) ∧
     (∀ b, b < length h →
        (r ∈ dependentsOf h b ↔ b ∈ dependenciesOf h r) ∧
        (dependenciesOf h r = [] → dependenciesOf h b = [] → r = b))) as Hr.
  { intros r Hlt. specialize (Hall r). rewrite <- list_elem_of_In, elem_of_seq in Hall.
    assert (0 ≤ r < 0 + length h) as Hrange by lia.
    apply Hall in Hrange. apply andb_true_iff in Hrange as [Hrange H3].
    apply andb_true_iff in Hrange as [H1 H2].
    rewrite forallb_forall in H1. rewrite forallb_forall in H2. rewrite forallb_forall in H3.
    split; [|split].
    - intros x Hx%list_elem_of_In%H1. by apply bool_decide_eq_true in Hx.
    - intros x Hx%list_elem_of_In%H2. by apply bool_decide_eq_true in Hx.
    - intros b Hb. specialize (H3 b). rewrite <- list_elem_of_In, elem_of_seq in H3.
      assert (0 ≤ b < 0 + length h) as Hrange by lia.
      apply H3 in Hrange. apply andb_true_iff in Hrange as [Ha Hb'].
      apply bool_decide_eq_true in Ha. by apply bool_decide_eq_true in Hb'. }
  split.
  - intros r x Hx. destruct (decide (r < length h)) as [Hlt|Hge].
    + apply (Hr r Hlt). apply elem_of_app. tauto.
    + rewrite dependentsOf_invalid, dependenciesOf_invalid in Hx by lia.
      destruct Hx as [[]%elem_of_nil|[]%elem_of_nil].
  - intros a b Ha Hb. symmetry. destruct (Hr b Hb) as (_ & _ & H3).
    destruct (Hr a Ha) as (_ & _ & H3'). specialize (H3' b Hb). tauto.
  - done.
  - intros x Hx.
    assert (∀ a b, tc (fun a b => b ∈ dependenciesOf h a) a b → b < a) as Hlt; [|
      specialize (Hlt x x Hx); lia].
    intros a b Hab. induction Hab as [a b Hab|a b c Hab _ IH].
    + destruct (decide (a < length h)) as [Hlt|Hge]; [by apply (Hr a Hlt)|].
      rewrite dependenciesOf_invalid in Hab by lia. by apply elem_of_nil in Hab.
    + assert (b < a); [|lia].
      destruct (decide (a < length h)) as [Hlt|Hge]; [by apply (Hr a Hlt)|].
      rewrite dependenciesOf_invalid in Hab by lia. by apply elem_of_nil in Hab.
  - intros a b Ha Hb. by apply (Hr a Ha).
Qed.

(** * Counting *)

Lemma filter_all {A} (P : A → Prop) `{∀ x, Decision (P x)} (l : list A) :
  (∀ x, x ∈ l → P x) → filter P l = l.
Proof.
  induction l as [|x l IH]; intros Hl; [done|].
  rewrite filter_cons, decide_True by (apply Hl; left).
  f_equal. apply IH. intros y Hy. apply Hl. by right.
Qed.

Lemma sum_list_with_seq {A} (g : nat → nat) (g' : A → nat) (l : list A) : ∀ base,
  (∀ k v, l !! k = Some v → g (base + k) = g' v) →
  sum_list_with g (seq base (length l)) = sum_list_with g' l.
Proof.
  induction l as [|x l IH]; intros base Hg; [done|]. simpl.
  rewrite <- (Hg 0 x eq_refl), Nat.add_0_r. f_equal.
  apply IH. intros k v Hk. rewrite <- (Hg (S k) v Hk). f_equal. lia.
Qed.

Lemma fmap_seq_lookup {A B} (f : nat → B) (g : A → B) (l : list A) : ∀ base,
  (∀ k v, l !! k = Some v → f (base + k) = g v) →
  f <$> seq base (length l) = g <$> l.
Proof.
  induction l as [|x l IH]; intros base Hg; [done|]. simpl.
  rewrite <- (Hg 0 x eq_refl), Nat.add_0_r. f_equal.
  apply IH. intros k v Hk. rewrite <- (Hg (S k) v Hk). f_equal. lia.
Qed.

Lemma remove_dups_NoDup_length {A} `{EqDecision A} (l : list A) :
  NoDup l → length (remove_dups l) = length l.
Proof.
  intros Hnd. apply Permutation_length, NoDup_Permutation;
    [apply NoDup_remove_dups|done|apply elem_of_remove_dups].
Qed.

Lemma remove_dups_fmap_length {A B} `{EqDecision A} `{EqDecision B} (f : A → B) (l : list A) :
  (∀ x y, x ∈ l → y ∈ l → f x = f y → x = y) →
  length (remove_dups (f <$> l)) = length (remove_dups l).
Proof.
  induction l as [|x l IH]; intros Hinj; [done|]. simpl.
  assert (∀ x y, x ∈ l → y ∈ l → f x = f y → x = y) as Hinj'.
  { intros a b Ha Hb. apply Hinj; by right. }
  destruct (decide_rel elem_of (f x) _) as [H1|H1],
           (decide_rel elem_of x l) as [H2|H2]; simpl.
  - by apply IH.
  - exfalso. apply list_elem_of_fmap in H1 as (y & Hxy & Hy).
    apply H2. rewrite (Hinj x y); [done|left|by right|done].
  - exfalso. apply H1. by apply list_elem_of_fmap_2.
  - f_equal. by apply IH.
Qed.

(** * The graph a node belongs to *)

Lemma graphNodes_visits h this root calls :
  getRootNode this h = Ok root →
  visits h getDependents root = Ok calls →
  graphNodes this h = Ok (calls.*1).
Proof.
  intros Hroot Hvis. unfold graphNodes. rewrite Hroot. cbn [mbind outcome_bind].
  rewrite (traverse_runCalls recordCalls h getDependents) with (calls := calls); try done.
  - by rewrite runCalls_recordCalls.
  - intros node path a h1 a' h' Hpre H. unfold recordCalls in H. by simplify_eq.
Qed.

Lemma cloneWithRelationships_Ok_inv this predicate h clone h' :
  cloneWithRelationships this predicate h = Ok (clone, h') →
  ∃ root ids, getRootNode this h = Ok root ∧
              computeIdsToInclude root predicate h = Ok (ids, h) ∧
              this < length h.
Proof.
  unfold cloneWithRelationships, cloneGraph. intros H.
  destruct (getRootNode this h) as [root| |] eqn:Hroot; [|done..].
  cbn [mbind outcome_bind] in H.
  destruct (computeIdsToInclude root predicate h) as [[ids h0]| |] eqn:Hids; [|done..].
  pose proof (computeIdsToInclude_reads _ _ _ _ _ Hids) as ->.
  exists root, ids. split; [done|]. split; [done|].
  unfold getRootNode in Hroot. simpl in Hroot.
  destruct (getNode this h) as [n| |] eqn:Hn; [|done..].
  apply getNode_Ok in Hn. by eapply lookup_lt_Some.
Qed.

(** * Cloning everything *)

Section cloneAll.
Context (h : heap) (this : ref) (predicate : option Predicate).
Hypothesis Hwf : wellFormed h.
Hypothesis Hthis : this < length h.
Hypothesis Hall : ∀ p, predicate = Some p → ∀ n, p n = Ok true.

Lemma cloneAll_spec :
  ∃ root calls ids m h',
    getRootNode this h = Ok root ∧
    visits h getDependents root = Ok calls ∧
    NoDup (idOf h <$> calls.*1) ∧
    (∀ v, v ∈ calls.*1 ↔ v < length h) ∧
    includedNodes ids h (calls.*1) = calls.*1 ∧
    cloneResult h ids (calls.*1) m h' ∧
    ancestorClosed h ids ∧
    cloneWithRelationships this predicate h = Ok (cloneOf m h this, h') ∧
    ∃ cs, graphNodes (cloneOf m h this) h' = Ok cs ∧
          cs ≡ₚ seq (length h) (length (calls.*1)).
Proof.
  destruct (getRootNode_total h (wf_closed _ Hwf) (wf_acyclic _ Hwf) this Hthis)
    as [root Hroot].
  destruct (wellFormed_visits h this root Hwf Hthis Hroot)
    as (calls & Hvis & Hnd & Hndi & Hvs & Hhd).
  destruct (computeIdsToInclude_total h root predicate calls) as [ids Hids];
    [apply Hwf|apply Hwf|done|intros x; apply Hvs| |].
  { intros p Hp n _. exists true. by apply Hall. }
  assert (∀ v, v < length h → includes ids (idOf h v)) as Hinc.
  { intros v Hv.
    destruct (computeIdsToInclude_spec h root predicate calls ids h) as [_ Hsel];
      [apply Hwf|apply Hwf|done|intros x; apply Hvs|done|].
    destruct predicate as [p|]; [|by subst].
    destruct Hsel as (i & -> & Hsel). simpl. apply Hsel.
    destruct (lookup_lt_is_Some_2 h v Hv) as [n Hn].
    exists v, n, v. split; [by apply Hvs|]. split; [done|].
    split; [by apply Hall|]. split; [apply rtc_refl|done]. }
  assert (includedNodes ids h (calls.*1) = calls.*1) as Heq.
  { apply filter_all. intros v Hv. by apply Hinc, Hvs. }
  destruct (cloneWithRelationships_spec h this predicate root calls ids)
    as (Hanc & m & h' & Hg & Hres & Hc & _ & Hcs); [done..|].
  rewrite decide_True in Hc by by apply Hinc.
  rewrite Heq in Hcs.
  exists root, calls, ids, m, h'. repeat (split; [done|]). by apply Hcs, Hinc.
Qed.
End cloneAll.

(** C4: on a well-formed graph (closed, symmetric edges, one node per id,
    acyclic, one root) cloneWithRelationships without a predicate, or with
    one that is true of every node, returns a graph with as many nodes as
    the graph of the calling node, as many dependency edges, the same ids,
    and no node object of the original among its nodes. *)
Theorem clone_all_same_shape (h : heap) (this : ref) (predicate : option Predicate) :
  wellFormed h → this < length h →
  (∀ p, predicate = Some p → ∀ n, p n = Ok true) →
  ∃ vs clone h' cs,
    graphNodes this h = Ok vs ∧
    cloneWithRelationships this predicate h = Ok (clone, h') ∧
    graphNodes clone h' = Ok cs ∧
    length cs = length vs ∧
    dependencyCount h' cs = dependencyCount h vs ∧
    (∀ c, c ∈ cs → NoDup (dependenciesOf h' c)) ∧
    idOf h' <$> cs ≡ₚ idOf h <$> vs ∧
    (∀ c, c ∈ cs → length h ≤ c ∧ c ∉ vs) ∧
    h `prefix_of` h'.
Proof.
  intros Hwf Hthis Hall.
  destruct (cloneAll_spec h this predicate Hwf Hthis Hall)
    as (root & calls & ids & m & h' & Hroot & Hvis & Hndi & Hvs & Heq & Hres & Hanc & Hc
        & cs & Hcs & Hperm).
  exists (calls.*1), (cloneOf m h this), h', cs.
  split; [by eapply graphNodes_visits|]. split; [done|]. split; [done|].
  assert (∀ k v, calls.*1 !! k = Some v →
            dependenciesOf h' (length h + k) =
            addEach [] (cloneOf m h <$> dependenciesOf h v)) as Hdeps.
  { intros k v Hk. apply (cr_deps _ _ _ _ _ Hres). by rewrite Heq. }
  assert (∀ v, v < length h → includes ids (idOf h v)) as Hinc.
  { intros v Hv%Hvs. rewrite <- Heq in Hv. by apply includedNodes_spec in Hv as [_ ?]. }
  split; [by rewrite Hperm, length_seq|].
  split; [|split; [|split; [|split]]].
  - unfold dependencyCount. rewrite Hperm. apply sum_list_with_seq.
    intros k v Hk. rewrite (Hdeps _ _ Hk).
    rewrite remove_dups_NoDup_length by apply NoDup_addEach, NoDup_nil_2.
    rewrite length_addEach_nil. apply remove_dups_fmap_length.
    intros x y Hx Hy Hxy.
    assert (v < length h) as Hv by (apply Hvs; by eapply list_elem_of_lookup_2).
    assert (x < length h) as Hxl by (eapply closedEdges_dependencies; [apply Hwf|done]).
    assert (y < length h) as Hyl by (eapply closedEdges_dependencies; [apply Hwf|done]).
    destruct (cloneOf_included h ids (calls.*1) m h' Hres Hvs x Hxl (Hinc x Hxl))
      as (kx & Hkx & Hcx).
    destruct (cloneOf_included h ids (calls.*1) m h' Hres Hvs y Hyl (Hinc y Hyl))
      as (ky & Hky & Hcy).
    assert (kx = ky) as -> by lia. congruence.
  - intros c Hc'. rewrite Hperm in Hc'. apply elem_of_seq in Hc' as [Hc1 Hc2].
    destruct (lookup_lt_is_Some_2 (calls.*1) (c - length h)) as [v Hk]; [lia|].
    replace c with (length h + (c - length h)) by lia.
    rewrite (Hdeps _ _ Hk). apply NoDup_addEach, NoDup_nil_2.
  - rewrite Hperm. erewrite fmap_seq_lookup; [done|].
    intros k v Hk. apply (cr_id _ _ _ _ _ Hres). by rewrite Heq.
  - intros c Hc'. rewrite Hperm in Hc'. apply elem_of_seq in Hc' as [Hc1 Hc2].
    split; [done|]. intros Hin%Hvs. lia.
  - apply Hres.
Qed.

(** * Keeping what leads to a selected node *)


(** * The missing-node error *)

Lemma getNode_throws r h e : getNode r h = Throw e → e = TypeError.
Proof. unfold getNode. destruct (h !! r); intros; by simplify_eq. Qed.

Lemma getNode_not_Diverge r h : getNode r h ≠ Diverge.
Proof. unfold getNode. by destruct (h !! r). Qed.

Lemma getRootNode_loop_throws fuel : ∀ x h e,
  getRootNode_loop fuel x h = Throw e → e = TypeError.
Proof.
  induction fuel as [|fuel IH]; intros x h e H; [done|]. simpl in H.
  destruct (getNode x h) as [n| |] eqn:Hn; simplify_eq/=.
  - destruct (_dependencies n); [done|]. by eapply IH.
  - by eapply getNode_throws.
Qed.

Lemma enqueueNext_throws h path nexts : ∀ visited queue e,
  enqueueNext h path nexts visited queue = Throw e → e = TypeError.
Proof.
  induction nexts as [|x nexts IH]; intros visited queue e H; [done|]. simpl in H.
  destruct (getNode x h) as [n| |] eqn:Hn; simplify_eq/=.
  - case_bool_decide; by eapply IH.
  - by eapply getNode_throws.
Qed.

(** A traversal throws what its callback throws, or a TypeError. *)
Lemma traverse_loop_throws {A} (E : error → Prop) (callback : Callback A) next fuel :
  E TypeError →
  (∀ node path a h e, callback node path a h = Throw e → E e) →
  ∀ visited queue a h e,
    traverse_loop fuel callback next visited queue a h = Throw e → E e.
Proof.
  intros HT Hcb. induction fuel as [|fuel IH]; intros visited queue a h e H; [done|].
  simpl in H. destruct queue as [|[|node p] queue]; simplify_eq/=; [done|].
  destruct (callback node (node :: p) a h) as [[a1 h1]| |] eqn:Hc; simplify_eq/=;
    [|by eapply Hcb].
  destruct (getNode node h1) as [n| |] eqn:Hn; simplify_eq/=;
    [|by apply getNode_throws in Hn as ->].
  destruct (enqueueNext h1 (node :: p) (next n) visited queue) as [[v q]| |] eqn:He;
    simplify_eq/=; [by eapply IH|by apply enqueueNext_throws in He as ->].
Qed.

Lemma traverse_throws {A} (E : error → Prop) (callback : Callback A)
    getNextNodes start a h e :
  E TypeError →
  (∀ node path a h e, callback node path a h = Throw e → E e) →
  traverse callback getNextNodes start a h = Throw e → E e.
Proof.
  intros HT Hcb H.
  destruct (getNode start h) as [n| |] eqn:Hn.
  - rewrite (traverse_unfold _ _ _ _ _ _ Hn) in H. by eapply traverse_loop_throws.
  - pose proof (getNode_throws _ _ _ Hn) as ->.
    unfold traverse in H. rewrite Hn in H. simpl in H. by simplify_eq.
  - by apply getNode_not_Diverge in Hn.
Qed.

Lemma addDependency_throws this node h e :
  addDependency this node h = Throw e → e = TypeError.
Proof.
  unfold addDependency. intros H.
  destruct (getNode this h) as [t| |] eqn:Ht; simplify_eq/=;
    [|by eapply getNode_throws].
  case_bool_decide; [done|].
  destruct (getNode node h) as [n| |] eqn:Hn; simplify_eq/=. by eapply getNode_throws.
Qed.

Lemma rewire_throws m c deps : ∀ h e, rewire m c deps h = Throw e → e = TypeError.
Proof.
  induction deps as [|d deps IH]; intros h e H; [done|]. simpl in H.
  destruct (getNode d h) as [nd| |] eqn:Hd; simplify_eq/=; [|by eapply getNode_throws].
  destruct c as [c|]; simplify_eq/=; [|done].
  destruct (m !! _id nd) as [cd|].
  - destruct (addDependency c cd h) as [h1| |] eqn:Hadd; simplify_eq/=;
      [by eapply IH|by eapply addDependency_throws].
  - destruct (getNode c h) as [nc| |] eqn:Hc; simplify_eq/=; [done|].
    by eapply getNode_throws.
Qed.

Lemma cloneGraph_throws (E : error → Prop) this predicate h e :
  E TypeError →
  (∀ p n e, predicate = Some p → p n = Throw e → E e) →
  cloneGraph this predicate h = Throw e → E e.
Proof.
  intros HT Hp H. unfold cloneGraph in H.
  destruct (getRootNode this h) as [root| |] eqn:Hroot; simplify_eq/=;
    [|by apply getRootNode_loop_throws in Hroot as ->].
  destruct (computeIdsToInclude root predicate h) as [[ids h0]| |] eqn:Hids; simplify_eq/=.
  2:{ unfold computeIdsToInclude in Hids. destruct predicate as [p|]; [|done].
      destruct (traverse (selectCallback p) None root ∅ h) as [[i hx]| |] eqn:Ht;
        simplify_eq/=.
      eapply (traverse_throws E); [done| |done].
      intros node path a hx e' Hs. unfold selectCallback in Hs.
      destruct (getNode node hx) as [n| |] eqn:Hn; simplify_eq/=;
        [|by apply getNode_throws in Hn as ->].
      destruct (p n) as [b| |] eqn:Hpn; simplify_eq/=; [|by eapply Hp].
      destruct b; simplify_eq/=.
      eapply (traverse_throws E); [done| |done].
      intros node' path' a' hx' e'' Ha. unfold addIdCallback in Ha.
      destruct (getNode node' hx') as [n'| |] eqn:Hn'; simplify_eq/=.
      by apply getNode_throws in Hn' as ->. }
  destruct (traverse (cloneCallback ids) None root ∅ h0) as [[m1 h1]| |] eqn:H1;
    simplify_eq/=.
  2:{ eapply (traverse_throws E); [done| |done].
      intros node path a hx e' Hs. unfold cloneCallback, cloneWithoutRelationships in Hs.
      destruct (getNode node hx) as [n| |] eqn:Hn; simplify_eq/=;
        [|by apply getNode_throws in Hn as ->].
      destruct (shouldIncludeNode ids n); simplify_eq/=.
      destruct (getNode (length hx) (hx ++ [cloneNode n])) as [c| |] eqn:Hc; simplify_eq/=.
      by apply getNode_throws in Hc as ->. }
  destruct (traverse (rewireCallback ids m1) None root () h1) as [[u h2]| |] eqn:H2;
    simplify_eq/=.
  eapply (traverse_throws E); [done| |done].
  intros node path a hx e' Hs. unfold rewireCallback in Hs.
  destruct (getNode node hx) as [n| |] eqn:Hn; simplify_eq/=;
    [|by apply getNode_throws in Hn as ->].
  destruct (shouldIncludeNode ids n); simplify_eq/=.
  destruct (rewire m1 (m1 !! _id n) (_dependencies n) hx) as [hy| |] eqn:Hr; simplify_eq/=.
  by apply rewire_throws in Hr as ->.
Qed.

Lemma cloneGraph_Ok_inv this predicate h m h' :
  cloneGraph this predicate h = Ok (m, h') →
  ∃ root ids t,
    getRootNode this h = Ok root ∧
    computeIdsToInclude root predicate h = Ok (ids, h) ∧
    h !! this = Some t ∧ getNode this h' = Ok t.
Proof.
  intros H. pose proof (cloneGraph_keeps _ _ _ _ _ H) as (Hpre & _).
  unfold cloneGraph in H.
  destruct (getRootNode this h) as [root| |] eqn:Hroot; [|done..].
  cbn [mbind outcome_bind] in H.
  destruct (computeIdsToInclude root predicate h) as [[ids h0]| |] eqn:Hids; [|done..].
  pose proof (computeIdsToInclude_reads _ _ _ _ _ Hids) as ->.
  unfold getRootNode in Hroot. simpl in Hroot.
  destruct (getNode this h) as [t| |] eqn:Ht; [|done..].
  apply getNode_Ok in Ht.
  exists root, ids, t. repeat (split; [done|]).
  apply getNode_Ok. by eapply prefix_lookup_Some.
Qed.

(** C6: cloneWithRelationships throws 'Cloned graph missing node' exactly
    when the map of the clones, once built, has no entry for the id of the
    calling node, and it returns nothing then; on a well-formed graph a call
    without predicate returns, and a call that throws that error had a
    predicate whose inclusion set leaves the calling node out.  (The
    predicate itself is taken not to throw that very error.) *)
Theorem clone_missing_node_error (h : heap) (this : ref) (predicate : option Predicate) :
  (∀ p n, predicate = Some p → p n ≠ Throw ClonedGraphMissingNode) →
  (cloneWithRelationships this predicate h = Throw ClonedGraphMissingNode ↔
     ∃ m h', cloneGraph this predicate h = Ok (m, h') ∧ m !! idOf h this = None) ∧
  (∀ m h', cloneGraph this predicate h = Ok (m, h') →
     (m !! idOf h this = None →
        cloneWithRelationships this predicate h = Throw ClonedGraphMissingNode) ∧
     (∀ clone, m !! idOf h this = Some clone →
        cloneWithRelationships this predicate h = Ok (clone, h'))) ∧
  (wellFormed h → this < length h → predicate = None →
     ∃ clone h', cloneWithRelationships this predicate h = Ok (clone, h')) ∧
  (wellFormed h →
     cloneWithRelationships this predicate h = Throw ClonedGraphMissingNode →
     ∃ p root ids vs,
       predicate = Some p ∧
       graphNodes this h = Ok vs ∧
       computeIdsToInclude root predicate h = Ok (Some ids, h) ∧
       selects h p vs ids ∧
       idOf h this ∉ ids).
Proof.
  intros Hp.
  assert (∀ m h', cloneGraph this predicate h = Ok (m, h') →
     cloneWithRelationships this predicate h =
     match m !! idOf h this with
     | None => Throw ClonedGraphMissingNode
     | Some clone => Ok (clone, h')
     end) as Hfinal.
  { intros m h' Hg.
    destruct (cloneGraph_Ok_inv _ _ _ _ _ Hg) as (root & ids & t & _ & _ & Ht & Ht').
    unfold cloneWithRelationships. rewrite Hg. cbn [mbind outcome_bind].
    rewrite Ht'. cbn [mbind outcome_bind]. by rewrite (idOf_lookup _ _ _ Ht). }
  assert (cloneWithRelationships this predicate h = Throw ClonedGraphMissingNode →
          ∃ m h', cloneGraph this predicate h = Ok (m, h') ∧ m !! idOf h this = None)
    as Hthrow.
  { intros H.
    destruct (cloneGraph this predicate h) as [[m h']| |] eqn:Hg.
    - exists m, h'. split; [done|]. rewrite (Hfinal _ _ eq_refl) in H.
      by destruct (m !! idOf h this).
    - exfalso. unfold cloneWithRelationships in H. rewrite Hg in H. simpl in H.
      simplify_eq.
      eapply (cloneGraph_throws (fun e => e ≠ ClonedGraphMissingNode)); [done| |done|done].
      intros p n e -> Hpn ->. by eapply Hp.
    - unfold cloneWithRelationships in H. by rewrite Hg in H. }
  split; [|split; [|split]].
  - split; [done|]. intros (m & h' & Hg & Hm). by rewrite (Hfinal _ _ Hg), Hm.
  - intros m h' Hg. split.
    + intros Hm. by rewrite (Hfinal _ _ Hg), Hm.
    + intros clone Hm. by rewrite (Hfinal _ _ Hg), Hm.
  - intros Hwf Hthis ->.
    destruct (cloneAll_spec h this None Hwf Hthis) as (_&_&_&m&h'&_&_&_&_&_&_&_&Hc&_);
      [done|]. eauto.
  - intros Hwf H. destruct (Hthrow H) as (m & h' & Hg & Hm).
    destruct (cloneGraph_Ok_inv _ _ _ _ _ Hg) as (root & ids & t & Hroot & Hids & Ht & _).
    assert (this < length h) as Hthis by by eapply lookup_lt_Some.
    destruct (wellFormed_visits h this root Hwf Hthis Hroot)
      as (calls & Hvis & Hnd & Hndi & Hvs & Hhd).
    destruct (cloneWithRelationships_spec h this predicate root calls ids)
      as (_ & m1 & h1 & Hg1 & Hres & Hc & _ & _); [done..|].
    rewrite Hc in H. case_decide as Hi; [done|].
    destruct (computeIdsToInclude_spec h root predicate calls ids h) as [_ Hsel];
      [apply Hwf|apply Hwf|done|intros x; apply Hvs|done|].
    destruct predicate as [p|]; [|subst; by destruct Hi].
    destruct Hsel as (i & -> & Hsel).
    exists p, root, i, (calls.*1). split; [done|].
    split; [by eapply graphNodes_visits|]. done.
Qed.

(** * Reading, not writing *)

Lemma prefix_unchanged h h' : h `prefix_of` h' → unchanged h h'.
Proof. intros Hpre r n Hn. by eapply prefix_lookup_Some. Qed.

(** C3: traverse (with a callback that keeps the nodes of the graph),
    hasCycle, cloneWithRelationships, getBlockingCpuData and
    getFirstPaintBasedGraph leave every node object of the heap they are
    given as it was; the node cloning returns, and everything connected to
    it, is an object that was not in that heap. *)
Theorem graph_operations_leave_input_unchanged (h : heap) :
  (∀ A (callback : Callback A) getNextNodes start a a' h',
     (∀ node path a h1 a' h1',
        h `prefix_of` h1 → callback node path a h1 = Ok (a', h1') → h `prefix_of` h1') →
     traverse callback getNextNodes start a h = Ok (a', h') → unchanged h h') ∧
  (∀ getNextNodes start calls h',
     traverse recordCalls getNextNodes start [] h = Ok (calls, h') → h' = h) ∧
  (∀ node dir b h', hasCycle node dir h = Ok (b, h') → h' = h) ∧
  (∀ this predicate clone h',
     cloneWithRelationships this predicate h = Ok (clone, h') →
     unchanged h h' ∧ length h ≤ clone < length h' ∧
     ∀ x, connected h' clone x → length h ≤ x) ∧
  (∀ graph fcpTs networkFilter cpuFilter data h',
     getBlockingCpuData graph fcpTs networkFilter cpuFilter h = Ok (data, h') → h' = h) ∧
  (∀ graph fcpTs blockingScriptFilter cpuNodeFilter clone h',
     getFirstPaintBasedGraph graph fcpTs blockingScriptFilter cpuNodeFilter h
       = Ok (clone, h') →
     unchanged h h' ∧ length h ≤ clone < length h' ∧
     ∀ x, connected h' clone x → length h ≤ x).
Proof.
  assert (∀ this predicate clone h',
     cloneWithRelationships this predicate h = Ok (clone, h') →
     unchanged h h' ∧ length h ≤ clone < length h' ∧
     ∀ x, connected h' clone x → length h ≤ x) as Hclone.
  { intros this predicate clone h' H.
    apply cloneWithRelationships_keeps in H as (Hpre & Hc & Hap).
    split; [by apply prefix_unchanged|]. split; [done|].
    intros x Hx. eapply clonesApart_connected; [done| |done]. lia. }
  split; [|split; [|split; [|split; [|split]]]].
  - intros A callback getNextNodes start a a' h' Hcb H. apply prefix_unchanged.
    by apply (traverse_keeps (fun _ h1 => h `prefix_of` h1) callback) in H.
  - intros getNextNodes start calls h' H. eapply traverse_reads; [|done].
    intros node path a h1 a1 h1' Hc. unfold recordCalls in Hc. by simplify_eq.
  - intros node dir b h'. apply hasCycle_reads.
  - done.
  - intros graph fcpTs networkFilter cpuFilter data h'. apply getBlockingCpuData_reads.
  - intros graph fcpTs blockingScriptFilter cpuNodeFilter clone h' H.
    unfold getFirstPaintBasedGraph in H.
    destruct (getBlockingCpuData graph fcpTs blockingScriptFilter cpuNodeFilter h)
      as [[data h1]| |] eqn:Hd; [|done..].
    apply getBlockingCpuData_reads in Hd as ->. by eapply Hclone.
Qed.

(** * Ids, not objects *)

Lemma rewire_ids m c deps : ∀ h h',
  rewire m c deps h = Ok h' → length h' = length h ∧ ∀ r, idOf h' r = idOf h r.
Proof.
  induction deps as [|d deps IH]; intros h h' H; simplify_eq/=; [done|].
  destruct (getNode d h) as [nd| |]; simplify_eq/=.
  destruct c as [c|]; simplify_eq/=.
  destruct (m !! _id nd) as [cd|] eqn:Hcd; simplify_eq/=.
  2:{ by destruct (getNode c h). }
  destruct (addDependency c cd h) as [h1| |] eqn:Hadd; simplify_eq/=.
  destruct (IH _ _ H) as [Hl Hi].
  apply addDependency_spec in Hadd as (_ & [[_ ->]|(_ & _ & Hl1 & _ & _ & Hi1)]); [done|].
  split; [congruence|]. intros r. by rewrite Hi, Hi1.
Qed.

Lemma ids_of_heap (h1 h2 : heap) :
  length h2 = length h1 → (∀ r, idOf h2 r = idOf h1 r) → _id <$> h2 = _id <$> h1.
Proof.
  intros Hl Hi. apply list_eq. intros r. rewrite !list_lookup_fmap.
  specialize (Hi r). unfold idOf in Hi.
  destruct (h2 !! r) as [n2|] eqn:H2, (h1 !! r) as [n1|] eqn:H1; simpl in *.
  - by rewrite Hi.
  - apply lookup_lt_Some in H2. apply lookup_ge_None in H1. lia.
  - apply lookup_lt_Some in H1. apply lookup_ge_None in H2. lia.
  - done.
Qed.

(** The clones cloneGraph makes carry pairwise distinct ids, and the map
    sends an id to the one clone that carries it. *)
Lemma cloneGraph_one_clone_per_id h this predicate m h' :
  closedEdges h →
  cloneGraph this predicate h = Ok (m, h') →
  NoDup (_id <$> drop (length h) h') ∧
  ∀ s c, m !! s = Some c → length h ≤ c < length h' ∧ idOf h' c = s.
Proof.
  intros Hc Hg.
  destruct (cloneGraph_Ok_inv _ _ _ _ _ Hg) as (root & ids & t & Hroot & Hids & Ht & _).
  destruct (getRootNode_spec _ _ _ Hroot) as (_ & Hrv & _).
  destruct (visits_ids h getDependents root Hrv) as (calls & Hvis & Hndi & Hreach).
  { intros r x _. by apply closedEdges_nextOf_dependents. }
  assert (∀ x, x ∈ calls.*1 → x < length h) as Hvalid.
  { intros x Hx%Hreach. eapply reachable_closed; [|done|done].
    intros ??. by apply closedEdges_nextOf_dependents. }
  unfold cloneGraph in Hg. rewrite Hroot in Hg. cbn [mbind outcome_bind] in Hg.
  rewrite Hids in Hg. cbn [mbind outcome_bind] in Hg.
  rewrite (traverse_runCalls (cloneCallback ids) h getDependents) with (calls := calls)
    in Hg; [|intros ??????; apply cloneCallback_prefix|done|done|done].
  rewrite (runCalls_clone ids h calls ∅ h) in Hg by done.
  cbn [mbind outcome_bind] in Hg.
  set (inc := includedNodes ids h (calls.*1)) in *.
  set (m1 := cloneMapOf (length h) (idOf h <$> inc) ∅) in *.
  set (cl := (fun v => cloneNode (h !!! v)) <$> inc) in *.
  destruct (traverse (rewireCallback ids m1) None root () (h ++ cl)) as [[u h2]| |] eqn:H2;
    [|done..].
  cbn [mbind outcome_bind] in Hg. injection Hg as <- <-.
  apply (traverse_keeps
           (fun _ hx => length hx = length (h ++ cl) ∧ ∀ r, idOf hx r = idOf (h ++ cl) r))
    in H2 as [Hl2 Hi2]; [| |done].
  2:{ intros node path a hx a' hx' [Hl Hi] Hcb. unfold rewireCallback in Hcb.
      destruct (getNode node hx) as [n| |]; simplify_eq/=.
      destruct (shouldIncludeNode ids n); simplify_eq/=; [|done].
      destruct (rewire m1 (m1 !! _id n) (_dependencies n) hx) as [hy| |] eqn:Hr;
        simplify_eq/=.
      apply rewire_ids in Hr as [Hl' Hi']. split; [congruence|].
      intros r. by rewrite Hi', Hi. }
  assert (_id <$> cl = idOf h <$> inc) as Hcl.
  { unfold cl. rewrite <- list_fmap_compose. apply list_fmap_ext. intros i v Hv. simpl.
    assert (v < length h) as [n Hn]%lookup_lt_is_Some_2.
    { apply Hvalid. eapply includedNodes_spec, list_elem_of_lookup_2, Hv. }
    by rewrite (list_lookup_total_correct _ _ _ Hn), (idOf_lookup _ _ _ Hn). }
  split.
  - rewrite fmap_drop, (ids_of_heap _ _ Hl2 Hi2), <- fmap_drop, drop_app_length, Hcl.
    by apply includedNodes_NoDup_ids.
  - intros s c [Hs|(k & Hk & ->)]%cloneMapOf_inv; [by rewrite lookup_empty in Hs|].
    pose proof (lookup_lt_Some _ _ _ Hk) as Hlt. rewrite <- Hcl, length_fmap in Hlt.
    rewrite Hl2, length_app. split; [lia|].
    rewrite Hi2. unfold idOf. rewrite lookup_app_r by lia.
    replace (length h + k - length h) with k by lia.
    rewrite <- Hcl, list_lookup_fmap in Hk.
    destruct (cl !! k); by simplify_eq/=.
Qed.

(** C10: traverse and cloneWithRelationships tell nodes apart by their id:
    of the node objects that carry one id traverse hands at most one to its
    callback, and cloning makes one clone for the id; so on two dependents
    of a root that both carry the id "B" the callback sees the first only
    and the clone has a single "B". *)
Theorem nodes_are_identified_by_id :
  (∀ (h : heap) getNextNodes start,
     let next := default getDependents getNextNodes in
     start < length h →
     (∀ r x, reachable h next start r → x ∈ nextOf h next r → x < length h) →
     ∃ calls,
       traverse recordCalls getNextNodes start [] h = Ok (calls, h) ∧
       NoDup (idOf h <$> calls.*1) ∧
       ∀ a b, a ≠ b → idOf h a = idOf h b → ¬ (a ∈ calls.*1 ∧ b ∈ calls.*1)) ∧
  (∀ (h : heap) this predicate m h',
     closedEdges h →
     cloneGraph this predicate h = Ok (m, h') →
     NoDup (_id <$> drop (length h) h') ∧
     ∀ s c, m !! s = Some c → length h ≤ c < length h' ∧ idOf h' c = s) ∧
  (∃ calls clone h',
     traverse recordCalls None 0 [] twinHeap = Ok (calls, twinHeap) ∧
     calls.*1 = [0; 1] ∧
     cloneWithRelationships 0 None twinHeap = Ok (clone, h') ∧
     _id <$> drop (length twinHeap) h' = ["A"; "B"]).
Proof.
  split; [|split].
  - intros h getNextNodes start next Hstart Hclosed.
    destruct (visits_ids h next start Hstart Hclosed) as (calls & Hvis & Hnd & _).
    exists calls. split; [|split; [done|]].
    + rewrite (traverse_runCalls recordCalls h next) with (calls := calls); try done.
      * apply runCalls_recordCalls.
      * intros node path a h1 a' h' Hpre H. unfold recordCalls in H. by simplify_eq.
    + intros a b Hne Hid [[i Hi]%list_elem_of_lookup_1 [j Hj]%list_elem_of_lookup_1].
      assert (i = j) as ->; [|congruence].
      eapply NoDup_lookup; [exact Hnd| |].
      * by rewrite list_lookup_fmap, Hi.
      * rewrite list_lookup_fmap, Hj. simpl. by rewrite Hid.
  - intros h this predicate m h'. apply cloneGraph_one_clone_per_id.
  - eexists _, _, _. split; [vm_compute; reflexivity|]. split; [reflexivity|].
    split; [vm_compute; reflexivity|]. reflexivity.
Qed.

(** * The render-blocking classifier *)

(** The scan of the CPU nodes for one url stops at the first node that
    evaluates it, and records the url and that node: the node object, where
    every other entry of [blockingCpuNodeIds] is an id. *)
Lemma scanCpuNodes_first theUrl cpuNodes actually ids :
  scanCpuNodes theUrl cpuNodes actually ids =
  match find (isEvaluateScriptFor [theUrl]) cpuNodes with
  | Some cpuNode => (setAdd theUrl actually, setAdd (JsObject (cpuRef cpuNode)) ids)
  | None => (actually, ids)
  end.
Proof.
  induction cpuNodes as [|c cpuNodes IH]; [done|]. simpl.
  by destruct (isEvaluateScriptFor [theUrl] c).
Qed.

(** C1 (what the code does at the scenario of the spec): the url of the
    script is possibly and actually render-blocking, but the entry added to
    blockingCpuNodeIds for the task that evaluates it is the node object,
    not its id; a lookup by id fails, and the first-paint graph is built
    without the task. *)
Theorem blocking_cpu_node_recorded_as_object :
  ∃ data clone h' nodes,
    getBlockingCpuData 0 150 pessimisticFilter None classifierScenario
      = Ok (data, classifierScenario) ∧
    possiblyRenderBlockingScriptUrls data = ["https://example.com/app.js"] ∧
    actuallyRenderBlockingScriptUrls data = ["https://example.com/app.js"] ∧
    blockingCpuNodeIds data = [JsObject 1] ∧
    setHas (JsString "cpu-evaluate") (blockingCpuNodeIds data) = false ∧
    getFirstPaintBasedGraph 0 150 pessimisticFilter None classifierScenario
      = Ok (clone, h') ∧
    graphNodes clone h' = Ok nodes ∧
    idOf h' <$> nodes = ["script"].
Proof.
  eexists _, _, _, _. split; [vm_compute; reflexivity|].
  do 4 (split; [reflexivity|]).
  split; [vm_compute; reflexivity|].
  split; [vm_compute; reflexivity|]. reflexivity.
Qed.

Lemma injectedScriptPage_has_injected_script : hasBlockingInjectedScript injectedScriptPage.
Proof. eexists 2, _, injectedRecord. by repeat split. Qed.

(** C2, as stated, fails: the injected script that no task evaluates is in
    the optimistic graph (its url is not among the possibly blocking ones,
    so its priority decides) and not in the pessimistic one. *)
Lemma optimistic_graph_larger_than_pessimistic :
  hasBlockingInjectedScript injectedScriptPage ∧
  ∃ gO hO gP hP,
    getOptimisticGraph 0 paintAt150 injectedScriptPage = Ok (gO, hO) ∧
    getPessimisticGraph 0 paintAt150 injectedScriptPage = Ok (gP, hP) ∧
    nodeCount gO hO = Ok 3 ∧
    nodeCount gP hP = Ok 2 ∧
    ¬ (3 ≤ 2).
Proof.
  split; [apply injectedScriptPage_has_injected_script|].
  eexists _, _, _, _. split; [vm_compute; reflexivity|].
  split; [vm_compute; reflexivity|].
  split; [vm_compute; reflexivity|].
  split; [vm_compute; reflexivity|]. lia.
Qed.

(** * When the optimistic graph is the smaller one *)

Lemma setAdd_elem {A} `{EqDecision A} (x y : A) (s : list A) :
  y ∈ setAdd x s ↔ y = x ∨ y ∈ s.
Proof.
  unfold setAdd. case_bool_decide as Hx.
  - split; [by right|]. by intros [->|?].
  - rewrite elem_of_app, list_elem_of_singleton. tauto.
Qed.

Lemma setHas_true {A} `{EqDecision A} (x : A) (s : list A) : setHas x s = true ↔ x ∈ s.
Proof. unfold setHas. apply bool_decide_eq_true. Qed.

Lemma scriptUrlCallback_lookup condition h v path urls n :
  h !! v = Some n →
  scriptUrlCallback condition v path urls h =
  match kind n with
  | Base => Throw Unimplemented
  | CPU _ => Ok (urls, h)
  | Network r => if condition r then Ok (setAdd (url r) urls, h) else Ok (urls, h)
  end.
Proof. intros Hn. unfold scriptUrlCallback. by rewrite (getNode_lookup _ _ _ Hn). Qed.

Lemma scriptUrlCallback_reads condition v path urls h urls' h' :
  scriptUrlCallback condition v path urls h = Ok (urls', h') → h' = h.
Proof.
  unfold scriptUrlCallback. intros H. destruct (getNode v h) as [n| |]; simplify_eq/=.
  destruct (kind n); simplify_eq/=; [|done]. by case_match; simplify_eq.
Qed.

Lemma collectCpuCallback_reads fcpTs v path cpus h cpus' h' :
  collectCpuCallback fcpTs v path cpus h = Ok (cpus', h') → h' = h.
Proof.
  unfold collectCpuCallback. intros H. destruct (getNode v h) as [n| |]; simplify_eq/=.
  destruct (kind n); simplify_eq/=; [done|]. by case_match; simplify_eq.
Qed.

(** A weaker condition collects more urls. *)
Lemma runCalls_scriptUrl_mono (c1 c2 : NetworkRecord → bool) h calls :
  (∀ r, c1 r = true → c2 r = true) →
  ∀ acc1 acc2 u1 u2 h1 h2,
    (∀ x, x ∈ acc1 → x ∈ acc2) →
    runCalls (scriptUrlCallback c1) calls acc1 h = Ok (u1, h1) →
    runCalls (scriptUrlCallback c2) calls acc2 h = Ok (u2, h2) →
    ∀ x, x ∈ u1 → x ∈ u2.
Proof.
  intros Hc. induction calls as [|[v p] calls IH]; intros acc1 acc2 u1 u2 h1 h2 Hacc H1 H2.
  { simpl in *. by simplify_eq. }
  rewrite runCalls_cons in H1, H2.
  destruct (scriptUrlCallback c1 v p acc1 h) as [[a1 hx1]| |] eqn:E1; [|done..].
  destruct (scriptUrlCallback c2 v p acc2 h) as [[a2 hx2]| |] eqn:E2; [|done..].
  cbn [mbind outcome_bind] in H1, H2.
  pose proof (scriptUrlCallback_reads _ _ _ _ _ _ _ E1) as ->.
  pose proof (scriptUrlCallback_reads _ _ _ _ _ _ _ E2) as ->.
  eapply (IH a1 a2); [|done|done].
  unfold scriptUrlCallback in E1, E2.
  destruct (getNode v h) as [n| |]; simplify_eq/=.
  destruct (kind n) as [|r|t]; simplify_eq/=; [|done].
  destruct (c1 r) eqn:Hc1, (c2 r) eqn:Hc2; simplify_eq/=.
  - intros x [->|Hx]%setAdd_elem; apply setAdd_elem; [by left|right; by apply Hacc].
  - by rewrite (Hc r Hc1) in Hc2.
  - intros x Hx. apply setAdd_elem. right. by apply Hacc.
  - done.
Qed.

Lemma scanCpuNodes_spec u cpus act ids act' ids' :
  scanCpuNodes u cpus act ids = (act', ids') →
  (∀ x, x ∈ act' ↔ x ∈ act ∨ (x = u ∧ ∃ c, c ∈ cpus ∧ isEvaluateScriptFor [x] c = true)) ∧
  (∀ s, JsString s ∈ ids' ↔ JsString s ∈ ids).
Proof.
  rewrite scanCpuNodes_first.
  destruct (find (isEvaluateScriptFor [u]) cpus) as [c|] eqn:Hf; intros ?; simplify_eq.
  - apply find_some in Hf as [Hin%list_elem_of_In Hc]. split.
    + intros x. rewrite setAdd_elem. split; [intros [->|?]|intros [?|[-> _]]]; eauto.
    + intros s. rewrite setAdd_elem. split; [by intros [?|?]|by right].
  - split; [|done]. intros x. split; [by left|]. intros [?|[-> (c & Hc & He)]]; [done|].
    apply list_elem_of_In in Hc. by rewrite (find_none _ _ Hf c Hc) in He.
Qed.

Lemma scanUrls_spec cpus urls : ∀ act ids act' ids',
  scanUrls urls cpus act ids = (act', ids') →
  (∀ x, x ∈ act' ↔ x ∈ act ∨ (x ∈ urls ∧ ∃ c, c ∈ cpus ∧ isEvaluateScriptFor [x] c = true)) ∧
  (∀ s, JsString s ∈ ids' ↔ JsString s ∈ ids).
Proof.
  induction urls as [|u urls IH]; intros act ids act' ids' H; simpl in H.
  { simplify_eq. split; [|done]. intros x. split; [by left|].
    by intros [?|[[]%elem_of_nil _]]. }
  destruct (scanCpuNodes u cpus act ids) as [act1 ids1] eqn:H1.
  apply scanCpuNodes_spec in H1 as [Ha1 Hi1]. apply IH in H as [Ha Hi].
  split.
  - intros x. rewrite Ha, Ha1, elem_of_cons. split.
    + intros [[?|[-> ?]]|[? ?]]; [by left|right..]; (split; [|done]); [by left|by right].
    + intros [?|[[->|?] ?]]; [by do 2 left|left; by right|right; done].
  - intros s. by rewrite Hi, Hi1.
Qed.

Lemma addFirst_string p cpus ids s :
  JsString s ∈ addFirst p cpus ids ↔
  JsString s ∈ ids ∨ ∃ c, find p cpus = Some c ∧ cpuId c = s.
Proof.
  unfold addFirst. destruct (find p cpus) as [c|].
  - rewrite setAdd_elem. split.
    + intros [Heq|?]; [right|by left]. exists c. split; [done|]. congruence.
    + intros [?|(c' & ? & <-)]; [by right|left]. congruence.
  - split; [by left|]. by intros [?|(c & ? & _)].
Qed.

(** What getBlockingCpuData computes, over the calls of its traversals. *)
Lemma getBlockingCpuData_spec graph fcpTs networkFilter h data h' calls :
  visits h getDependents graph = Ok calls →
  getBlockingCpuData graph fcpTs networkFilter None h = Ok (data, h') →
  ∃ collected ids0,
    h' = h ∧
    runCalls (collectCpuCallback fcpTs) calls [] h = Ok (collected, h) ∧
    runCalls (scriptUrlCallback
                (fun r => (networkEndTime r <=? fcpTs)%Z && networkFilter r)) calls [] h
      = Ok (possiblyRenderBlockingScriptUrls data, h) ∧
    scanUrls (possiblyRenderBlockingScriptUrls data) (sortByStartTime collected) [] []
      = (actuallyRenderBlockingScriptUrls data, ids0) ∧
    blockingCpuNodeIds data =
      addFirst (hasChildEvent "ParseHTML") (sortByStartTime collected)
        (addFirst (hasChildEvent "Paint") (sortByStartTime collected)
           (addFirst didPerformLayout (sortByStartTime collected) ids0)).
Proof.
  intros Hvis H. pose proof (getBlockingCpuData_reads _ _ _ _ _ _ _ H) as ->.
  unfold getBlockingCpuData, getScriptUrls in H.
  rewrite (traverse_runCalls (collectCpuCallback fcpTs) h getDependents)
    with (calls := calls) in H; [|intros ?????? Hp Hc;
      by apply collectCpuCallback_reads in Hc as ->|done..].
  destruct (runCalls (collectCpuCallback fcpTs) calls [] h) as [[collected h1]| |] eqn:H1;
    [|done..].
  cbn [mbind outcome_bind] in H.
  assert (h1 = h) as ->.
  { apply (runCalls_inv (collectCpuCallback fcpTs) (fun _ hx => hx = h)) in H1; [done| |done].
    intros node path a hx a' hx' _ -> Hc. by apply collectCpuCallback_reads in Hc. }
  rewrite (traverse_runCalls (scriptUrlCallback _) h getDependents)
    with (calls := calls) in H; [|intros ?????? Hp Hc;
      by apply scriptUrlCallback_reads in Hc as ->|done..].
  destruct (runCalls (scriptUrlCallback _) calls [] h) as [[possibly h2]| |] eqn:H2;
    [|done..].
  cbn [mbind outcome_bind] in H.
  assert (h2 = h) as ->.
  { apply (runCalls_inv (scriptUrlCallback _) (fun _ hx => hx = h)) in H2; [done| |done].
    intros node path a hx a' hx' _ -> Hc. by apply scriptUrlCallback_reads in Hc. }
  destruct (scanUrls possibly (sortByStartTime collected) [] []) as [actually ids0] eqn:Hs.
  simplify_eq/=. by exists collected, ids0.
Qed.

(** With every url the pessimistic filter adds actually blocking, the
    predicate of the optimistic graph implies that of the pessimistic one. *)
Lemma firstPaintPredicate_mono fcpTs dO dP n :
  (∀ u, u ∈ possiblyRenderBlockingScriptUrls dO → u ∈ possiblyRenderBlockingScriptUrls dP) →
  (∀ u, u ∈ actuallyRenderBlockingScriptUrls dO → u ∈ actuallyRenderBlockingScriptUrls dP) →
  (∀ s, JsString s ∈ blockingCpuNodeIds dO ↔ JsString s ∈ blockingCpuNodeIds dP) →
  (∀ u, u ∈ possiblyRenderBlockingScriptUrls dP →
        u ∉ possiblyRenderBlockingScriptUrls dO →
        u ∈ actuallyRenderBlockingScriptUrls dP) →
  firstPaintPredicate fcpTs dO n = Ok true → firstPaintPredicate fcpTs dP n = Ok true.
Proof.
  intros Hposs Hact Hids Hextra. unfold firstPaintPredicate.
  destruct (kind n) as [|r|t]; [done| |].
  - destruct ((networkEndTime r >? fcpTs)%Z && negb (_isMainDocument n)); [done|].
    destruct (setHas (url r) (possiblyRenderBlockingScriptUrls dO)) eqn:HpO.
    + apply setHas_true in HpO. intros Ha. injection Ha as Ha.
      apply setHas_true, Hact in Ha.
      apply Hposs, setHas_true in HpO. rewrite HpO. f_equal. by apply setHas_true.
    + intros Hr. injection Hr as Hr.
      destruct (setHas (url r) (possiblyRenderBlockingScriptUrls dP)) eqn:HpP;
        [|by rewrite Hr].
      f_equal. apply setHas_true, Hextra; [by apply setHas_true|].
      intros Hin%setHas_true. congruence.
  - intros Hs. injection Hs as Hs. apply setHas_true, Hids in Hs.
    f_equal. by apply setHas_true.
Qed.

Lemma selects_mono h (p1 p2 : Predicate) vs ids1 ids2 :
  (∀ n, n ∈ h → p1 n = Ok true → p2 n = Ok true) →
  selects h p1 vs ids1 → selects h p2 vs ids2 → ∀ s, s ∈ ids1 → s ∈ ids2.
Proof.
  intros Hp H1 H2 s (v & nv & a & Hv & Hnv & Hpv & Ha & Hs)%H1.
  apply H2. exists v, nv, a. repeat (split; [done|]). split; [|done].
  apply Hp; [|done]. by eapply list_elem_of_lookup_2.
Qed.

Lemma includedNodes_mono ids1 ids2 h vs :
  (∀ s, includes ids1 s → includes ids2 s) →
  length (includedNodes ids1 h vs) ≤ length (includedNodes ids2 h vs).
Proof.
  intros Hi. unfold includedNodes. induction vs as [|v vs IH]; [done|].
  rewrite !filter_cons. destruct (decide (includes ids1 (idOf h v))) as [H1|H1].
  - rewrite decide_True by by apply Hi. simpl. lia.
  - case_decide; simpl; lia.
Qed.

Lemma cloneWithRelationships_nodeCount h this p clone h' root calls :
  wellFormed h →
  getRootNode this h = Ok root →
  visits h getDependents root = Ok calls →
  cloneWithRelationships this (Some p) h = Ok (clone, h') →
  ∃ ids,
    computeIdsToInclude root (Some p) h = Ok (Some ids, h) ∧
    selects h p (calls.*1) ids ∧
    nodeCount clone h' = Ok (length (includedNodes (Some ids) h (calls.*1))).
Proof.
  intros Hwf Hroot Hvis Hclone.
  destruct (cloneWithRelationships_Ok_inv _ _ _ _ _ Hclone)
    as (root' & ids & Hroot' & Hids & Hthis).
  assert (root' = root) as -> by congruence.
  destruct (wellFormed_visits h this root Hwf Hthis Hroot)
    as (calls' & Hvis' & Hnd & Hndi & Hvs & Hhd).
  assert (calls' = calls) as -> by congruence.
  destruct (cloneWithRelationships_spec h this (Some p) root calls ids)
    as (_ & m & h1 & Hg & Hres & Hc & _ & Hcs); [done..|].
  rewrite Hc in Hclone. case_decide as Hi; [|done].
  injection Hclone as Hcl Hh. subst clone h'.
  destruct (Hcs Hi) as (cs & Hgn & Hperm).
  destruct (computeIdsToInclude_spec h root (Some p) calls ids h) as [_ (i & -> & Hsel)];
    [apply Hwf|apply Hwf|done|intros x; apply Hvs|done|].
  exists i. split; [done|]. split; [done|].
  unfold nodeCount. rewrite Hgn. cbn [mbind outcome_bind].
  by rewrite Hperm, length_seq.
Qed.

(** C2 (amended): on a well-formed graph that has a render-blocking,
    script-initiated network node, if every url that is possibly blocking
    under the pessimistic filter and not under the optimistic one is
    actually blocking, then, when both graphs are returned, the optimistic
    graph has at most as many nodes as the pessimistic one. *)
Theorem optimistic_graph_not_larger
    (h : heap) (dependencyGraph : ref) (traceOfTab : TraceOfTab)
    (dO dP : BlockingCpuData) (gO gP : ref) (hO hP : heap) :
  let fcpTs := firstContentfulPaint traceOfTab in
  wellFormed h →
  hasBlockingInjectedScript h →
  getBlockingCpuData dependencyGraph fcpTs optimisticFilter None h = Ok (dO, h) →
  getBlockingCpuData dependencyGraph fcpTs pessimisticFilter None h = Ok (dP, h) →
  (∀ u, u ∈ possiblyRenderBlockingScriptUrls dP →
        u ∉ possiblyRenderBlockingScriptUrls dO →
        u ∈ actuallyRenderBlockingScriptUrls dP) →
  getOptimisticGraph dependencyGraph traceOfTab h = Ok (gO, hO) →
  getPessimisticGraph dependencyGraph traceOfTab h = Ok (gP, hP) →
  ∃ nO nP, nodeCount gO hO = Ok nO ∧ nodeCount gP hP = Ok nP ∧ nO ≤ nP.
Proof.
  intros fcpTs Hwf _ HdO HdP Hextra HO HP.
  unfold getOptimisticGraph, getFirstPaintBasedGraph in HO. fold fcpTs in HO.
  rewrite HdO in HO. cbn [mbind outcome_bind] in HO.
  unfold getPessimisticGraph, getFirstPaintBasedGraph in HP. fold fcpTs in HP.
  rewrite HdP in HP. cbn [mbind outcome_bind] in HP.
  destruct (cloneWithRelationships_Ok_inv _ _ _ _ _ HO) as (root & _ & Hroot & _ & Hg).
  destruct (wellFormed_visits h dependencyGraph root Hwf Hg Hroot)
    as (calls & Hvis & _ & _ & Hvs & _).
  destruct (cloneWithRelationships_nodeCount _ _ _ _ _ _ _ Hwf Hroot Hvis HO)
    as (iO & _ & HselO & HnO).
  destruct (cloneWithRelationships_nodeCount _ _ _ _ _ _ _ Hwf Hroot Hvis HP)
    as (iP & _ & HselP & HnP).
  exists (length (includedNodes (Some iO) h (calls.*1))),
         (length (includedNodes (Some iP) h (calls.*1))).
  split; [done|]. split; [done|].
  apply includedNodes_mono. simpl.
  eapply selects_mono; [|done|done]. intros n _.
  (* the two classifications, over the same traversal *)
  destruct (visits_closed h getDependents dependencyGraph)
    as (callsG & HvisG & _); [by left|apply Hwf|apply Hwf|done|].
  destruct (getBlockingCpuData_spec _ _ _ _ _ _ _ HvisG HdO)
    as (cpusO & ids0O & _ & HcO & HpO & HsO & HiO).
  destruct (getBlockingCpuData_spec _ _ _ _ _ _ _ HvisG HdP)
    as (cpusP & ids0P & _ & HcP & HpP & HsP & HiP).
  assert (cpusP = cpusO) as -> by congruence.
  apply scanUrls_spec in HsO as [HaO HjO]. apply scanUrls_spec in HsP as [HaP HjP].
  assert (∀ u, u ∈ possiblyRenderBlockingScriptUrls dO →
               u ∈ possiblyRenderBlockingScriptUrls dP) as Hposs.
  { eapply (runCalls_scriptUrl_mono _ _ h callsG); [|done|exact HpO|exact HpP].
    intros r. unfold optimisticFilter, pessimisticFilter.
    rewrite !andb_true_iff. tauto. }
  apply firstPaintPredicate_mono; [done| | |done].
  - intros u. rewrite HaO, HaP. intros [[]%elem_of_nil|[Hu Hc]]. right. split; [|done].
    by apply Hposs.
  - intros s. rewrite HiO, HiP, !addFirst_string, HjO, HjP. done.
Qed.

(** * The theorems at concrete graphs *)

Lemma chainABCX_wellFormed : wellFormed chainABCX.
Proof. apply wellFormedb_sound. vm_compute. reflexivity. Qed.

Lemma diamondHeap_wellFormed : wellFormed diamondHeap.
Proof. apply wellFormedb_sound. vm_compute. reflexivity. Qed.

Lemma evaluatedScriptPage_wellFormed : wellFormed evaluatedScriptPage.
Proof. apply wellFormedb_sound. vm_compute. reflexivity. Qed.

Lemma noDuplicateEdges_check h :
  forallb (fun n => bool_decide (NoDup (_dependents n)) &&
                    bool_decide (NoDup (_dependencies n))) h = true →
  noDuplicateEdges h.
Proof.
  rewrite forallb_forall. intros Hall r. unfold dependentsOf, dependenciesOf.
  destruct (h !! r) as [n|] eqn:Hn; simpl; [|split; apply NoDup_nil_2].
  apply list_elem_of_lookup_2, list_elem_of_In, Hall, andb_true_iff in Hn as [H1 H2].
  split; by eapply bool_decide_eq_true.
Qed.

Lemma chainABCX_noDuplicateEdges : noDuplicateEdges chainABCX.
Proof. apply noDuplicateEdges_check. vm_compute. reflexivity. Qed.

(** C9 on the chain: X gets A as a further dependency. *)
Lemma edge_symmetry_invariant_witness :
  symmetricEdges chainABCX ∧ noDuplicateEdges chainABCX ∧
  (∀ h', addDependency 3 0 chainABCX = Ok h' → symmetricEdges h' ∧ noDuplicateEdges h') ∧
  (∀ h', removeDependency 3 2 chainABCX = Ok h' → symmetricEdges h' ∧ noDuplicateEdges h').
Proof.
  split; [apply chainABCX_wellFormed|]. split; [apply chainABCX_noDuplicateEdges|].
  split.
  - apply (edge_symmetry_invariant chainABCX 3 0);
      [apply chainABCX_wellFormed|apply chainABCX_noDuplicateEdges].
  - apply (edge_symmetry_invariant chainABCX 3 2);
      [apply chainABCX_wellFormed|apply chainABCX_noDuplicateEdges].
Defined.

(** C7 on the diamond. *)
Lemma traverse_visits_each_reachable_node_once_witness :
  0 < length diamondHeap ∧
  ∃ calls,
    traverse recordCalls None 0 [] diamondHeap = Ok (calls, diamondHeap) ∧
    (∀ A (callback : Callback A) (a : A),
       (∀ node path a h1 a' h1',
          diamondHeap `prefix_of` h1 → callback node path a h1 = Ok (a', h1') →
          diamondHeap `prefix_of` h1') →
       traverse callback None 0 a diamondHeap = runCalls callback calls a diamondHeap) ∧
    NoDup (calls.*1) ∧
    (∀ x, x ∈ calls.*1 ↔ reachable diamondHeap getDependents 0 x) ∧
    (∀ node path, (node, path) ∈ calls →
       head path = Some node ∧ last path = Some 0 ∧
       isPath diamondHeap getDependents 0 path ∧
       ∀ q, isPath diamondHeap getDependents 0 q → head q = Some node →
            length path ≤ length q) ∧
    sortedByLength (calls.*2).
Proof.
  split; [simpl; lia|].
  apply (traverse_visits_each_reachable_node_once diamondHeap None 0).
  - simpl; lia.
  - intros r x _ Hx. eapply closedEdges_nextOf_dependents; [|exact Hx].
    apply diamondHeap_wellFormed.
  - intros a b Ha Hb. apply uniqueIds_inj; [apply diamondHeap_wellFormed| |].
    + eapply (reachable_closed diamondHeap getDependents 0); [|simpl; lia|exact Ha].
      intros ??. apply closedEdges_nextOf_dependents, diamondHeap_wellFormed.
    + eapply (reachable_closed diamondHeap getDependents 0); [|simpl; lia|exact Hb].
      intros ??. apply closedEdges_nextOf_dependents, diamondHeap_wellFormed.
Defined.

(** C4 on the diamond, cloned from its last node, without a predicate and
    with the predicate that is true of every node. *)
Lemma clone_all_same_shape_witness :
  wellFormed diamondHeap ∧ 3 < length diamondHeap ∧
  (∃ vs clone h' cs,
    graphNodes 3 diamondHeap = Ok vs ∧
    cloneWithRelationships 3 None diamondHeap = Ok (clone, h') ∧
    graphNodes clone h' = Ok cs ∧
    length cs = length vs ∧
    dependencyCount h' cs = dependencyCount diamondHeap vs ∧
    (∀ c, c ∈ cs → NoDup (dependenciesOf h' c)) ∧
    idOf h' <$> cs ≡ₚ idOf diamondHeap <$> vs ∧
    (∀ c, c ∈ cs → length diamondHeap ≤ c ∧ c ∉ vs) ∧
    diamondHeap `prefix_of` h') ∧
  (∃ vs clone h' cs,
    graphNodes 3 diamondHeap = Ok vs ∧
    cloneWithRelationships 3 (Some alwaysTrue) diamondHeap = Ok (clone, h') ∧
    graphNodes clone h' = Ok cs ∧
    length cs = length vs ∧
    dependencyCount h' cs = dependencyCount diamondHeap vs).
Proof.
  split; [apply diamondHeap_wellFormed|]. split; [simpl; lia|]. split.
  - apply (clone_all_same_shape diamondHeap 3 None);
      [apply diamondHeap_wellFormed|simpl; lia|discriminate].
  - destruct (clone_all_same_shape diamondHeap 3 (Some alwaysTrue))
      as (vs & clone & h' & cs & H1 & H2 & H3 & H4 & H5 & _);
      [apply diamondHeap_wellFormed|simpl; lia| |].
    + intros p Hp n. injection Hp as <-. reflexivity.
    + exists vs, clone, h', cs. repeat (split; [assumption|]). assumption.
Defined.


(** C6 on the chain, cloned from X with only B selected. *)
Lemma clone_missing_node_error_witness :
  (∀ p n, Some onlyB = Some p → p n ≠ Throw ClonedGraphMissingNode) ∧
  wellFormed chainABCX ∧
  cloneWithRelationships 3 (Some onlyB) chainABCX = Throw ClonedGraphMissingNode ∧
  ∃ p root ids vs,
    Some onlyB = Some p ∧
    graphNodes 3 chainABCX = Ok vs ∧
    computeIdsToInclude root (Some onlyB) chainABCX = Ok (Some ids, chainABCX) ∧
    selects chainABCX p vs ids ∧
    idOf chainABCX 3 ∉ ids.
Proof.
  assert (∀ p n, Some onlyB = Some p → p n ≠ Throw ClonedGraphMissingNode) as Hp.
  { intros p n [= <-]. discriminate. }
  assert (cloneWithRelationships 3 (Some onlyB) chainABCX = Throw ClonedGraphMissingNode)
    as Hthrow by (vm_compute; reflexivity).
  split; [exact Hp|]. split; [apply chainABCX_wellFormed|]. split; [exact Hthrow|].
  apply (clone_missing_node_error chainABCX 3 (Some onlyB) Hp);
    [apply chainABCX_wellFormed|exact Hthrow].
Defined.

(** C2 (amended) on the page whose injected script is evaluated. *)
Lemma optimistic_graph_not_larger_witness :
  wellFormed evaluatedScriptPage ∧
  hasBlockingInjectedScript evaluatedScriptPage ∧
  ∃ gO hO gP hP nO nP,
    getOptimisticGraph 0 paintAt150 evaluatedScriptPage = Ok (gO, hO) ∧
    getPessimisticGraph 0 paintAt150 evaluatedScriptPage = Ok (gP, hP) ∧
    nodeCount gO hO = Ok nO ∧ nodeCount gP hP = Ok nP ∧ nO ≤ nP.
Proof.
  assert (hasBlockingInjectedScript evaluatedScriptPage) as Hscript.
  { eexists 1, _, injectedRecord. by repeat split. }
  split; [apply evaluatedScriptPage_wellFormed|]. split; [exact Hscript|].
  eassert (getOptimisticGraph 0 paintAt150 evaluatedScriptPage = Ok (_, _)) as HO
    by (vm_compute; reflexivity).
  eassert (getPessimisticGraph 0 paintAt150 evaluatedScriptPage = Ok (_, _)) as HP
    by (vm_compute; reflexivity).
  eassert (getBlockingCpuData 0 150 optimisticFilter None evaluatedScriptPage = Ok (_, _))
    as HdO by (vm_compute; reflexivity).
  eassert (getBlockingCpuData 0 150 pessimisticFilter None evaluatedScriptPage = Ok (_, _))
    as HdP by (vm_compute; reflexivity).
  edestruct (optimistic_graph_not_larger evaluatedScriptPage 0 paintAt150)
    as (nO & nP & H1 & H2 & Hle);
    [apply evaluatedScriptPage_wellFormed|exact Hscript|exact HdO|exact HdP|
     |exact HO|exact HP|].
  - intros u Hu Hnu. simpl in *.
    apply elem_of_cons in Hu as [->|Hu]; [exfalso; apply Hnu; left|exact Hu].
  - eexists _, _, _, _, nO, nP. split; [exact HO|]. split; [exact HP|]. done.
Defined.

(** C3 on the diamond: the clone made from D leaves A, B, C and D as they
    were, and it and its graph are new objects. *)
Lemma graph_operations_leave_input_unchanged_witness :
  ∃ clone h',
    cloneWithRelationships 3 None diamondHeap = Ok (clone, h') ∧
    unchanged diamondHeap h' ∧ length diamondHeap ≤ clone < length h' ∧
    (∀ x, connected h' clone x → length diamondHeap ≤ x) ∧
    hasCycle 3 None diamondHeap = Ok (false, diamondHeap).
Proof.
  destruct (graph_operations_leave_input_unchanged diamondHeap)
    as (_ & _ & Hcycle & Hclone & _).
  eassert (cloneWithRelationships 3 None diamondHeap = Ok (_, _)) as Hc
    by (vm_compute; reflexivity).
  eassert (hasCycle 3 None diamondHeap = Ok (_, _)) as Hh by (vm_compute; reflexivity).
  eexists _, _. split; [exact Hc|].
  destruct (Hclone _ _ _ _ Hc) as (Hu & Hl & Hx).
  split; [exact Hu|]. split; [exact Hl|]. split; [exact Hx|].
  rewrite Hh. f_equal.
Defined.

(** C8 on a chain of five nodes, asked from its middle. *)
Lemma hasCycle_mutual_chain_single_witness :
  2 < 5 ∧ hasCycle 2 None (chainHeap 5) = Ok (false, chainHeap 5) ∧
  1 < 2 ∧ hasCycle 1 (Some dependencies) mutualHeap = Ok (true, mutualHeap).
Proof.
  destruct hasCycle_mutual_chain_single as (Hmutual & _ & Hchain & _).
  split; [lia|]. split; [apply Hchain; lia|]. split; [lia|apply Hmutual; lia].
Defined.

(** C10 on the twins: the ids handed to the callback are distinct. *)
Lemma nodes_are_identified_by_id_witness :
  0 < length twinHeap ∧
  ∃ calls,
    traverse recordCalls None 0 [] twinHeap = Ok (calls, twinHeap) ∧
    NoDup (idOf twinHeap <$> calls.*1) ∧
    ¬ (1 ∈ calls.*1 ∧ 2 ∈ calls.*1).
Proof.
  destruct nodes_are_identified_by_id as (Htraverse & _ & _).
  split; [simpl; lia|].
  destruct (Htraverse twinHeap None 0) as (calls & Hcalls & Hnd & Hone).
  - simpl; lia.
  - intros r x _ Hx. unfold nextOf in Hx.
    destruct r as [|[|[|r]]]; simpl in Hx;
      repeat (apply elem_of_cons in Hx as [->|Hx]; [simpl; lia|]);
      by apply elem_of_nil in Hx.
  - exists calls. split; [exact Hcalls|]. split; [exact Hnd|].
    apply Hone; [lia|reflexivity].
Defined.

(** * Further properties of the edge operations *)

Lemma payload_alter (f : Node → Node) i (h : heap) :
  (∀ n, payload (f n) = payload n) → payload <$> alter f i h = payload <$> h.
Proof.
  intros Hf. apply list_eq. intros j. rewrite !list_lookup_fmap.
  destruct (decide (i = j)) as [->|Hne].
  - rewrite list_lookup_alter_eq. destruct (h !! j); simpl; [by rewrite Hf|done].
  - by rewrite list_lookup_alter_ne.
Qed.

Lemma addDependency_payload this node h h' :
  addDependency this node h = Ok h' → payload <$> h' = payload <$> h.
Proof.
  unfold addDependency. intros H.
  destruct (getNode this h) as [t| |]; simplify_eq/=.
  case_bool_decide; simplify_eq/=; [done|].
  destruct (getNode node h) as [n| |]; simplify_eq/=.
  by rewrite !payload_alter.
Qed.

Lemma removeDependency_payload this node h h' :
  removeDependency this node h = Ok h' → payload <$> h' = payload <$> h.
Proof.
  unfold removeDependency. intros H.
  destruct (getNode this h) as [t| |]; simplify_eq/=.
  case_bool_decide; simplify_eq/=; [|done].
  destruct (getNode node h) as [n| |]; simplify_eq/=.
  by rewrite !payload_alter.
Qed.

(** Two heaps with the same payloads and the same edge lists are equal. *)
Lemma heap_ext (h h' : heap) :
  payload <$> h = payload <$> h' →
  (∀ r, dependenciesOf h r = dependenciesOf h' r) →
  (∀ r, dependentsOf h r = dependentsOf h' r) →
  h = h'.
Proof.
  intros Hp Hdeps Hdpts. apply list_eq. intros i.
  pose proof (f_equal (fun l => l !! i) Hp) as Hi. simpl in Hi.
  rewrite !list_lookup_fmap in Hi.
  specialize (Hdeps i). specialize (Hdpts i).
  unfold dependenciesOf, dependentsOf in *.
  destruct (h !! i) as [[i1 f1 a1 b1 k1]|], (h' !! i) as [[i2 f2 a2 b2 k2]|];
    simpl in *; try done.
  unfold payload in Hi. simpl in Hi. by simplify_eq.
Qed.

Lemma indexOf_app_fresh x l : x ∉ l → indexOf x (l ++ [x]) = Some (length l).
Proof.
  induction l as [|y l IH]; intros Hx; simpl.
  - by rewrite decide_True.
  - apply not_elem_of_cons in Hx as [Hne Hx].
    rewrite decide_False by done. by rewrite IH.
Qed.

Lemma splice1_app_fresh x l : x ∉ l → splice1 (indexOf x (l ++ [x])) (l ++ [x]) = l.
Proof.
  intros Hx. rewrite indexOf_app_fresh by done. simpl.
  induction l as [|y l IH]; simpl; [done|].
  apply not_elem_of_cons in Hx as [_ Hx]. by rewrite IH.
Qed.

(** X1: removeDependency undoes addDependency.  When the edge was not there
    (node not among the dependencies of this, this not among the dependents
    of node), adding it and removing it again gives back the heap as it
    was: every list in its old order, nothing else touched. *)
Theorem removeDependency_undoes_addDependency (h h1 : heap) (this node : ref) :
  (node ∉ dependenciesOf h this) → (this ∉ dependentsOf h node) →
  addDependency this node h = Ok h1 →
  node ∈ dependenciesOf h1 this ∧ this ∈ dependentsOf h1 node ∧
  removeDependency this node h1 = Ok h.
Proof.
  intros Hnd Hnt Hadd.
  pose proof (addDependency_payload _ _ _ _ Hadd) as Hpay.
  apply addDependency_spec in Hadd as (Hthis & [[Hin _]|(_ & Hnode & Hlen & Hdeps & Hdpts & _)]);
    [done|].
  assert (node ∈ dependenciesOf h1 this) as Hin1.
  { rewrite Hdeps, decide_True by done. apply elem_of_app. right. by left. }
  assert (this ∈ dependentsOf h1 node) as Hin2.
  { rewrite Hdpts, decide_True by done. apply elem_of_app. right. by left. }
  split; [done|]. split; [done|].
  destruct (removeDependency_total this node h1) as [h2 Hrem]; [lia..|].
  rewrite Hrem. f_equal.
  pose proof (removeDependency_payload _ _ _ _ Hrem) as Hpay2.
  apply removeDependency_spec in Hrem
    as (_ & [[Hnin _]|(_ & _ & _ & Hdeps2 & Hdpts2 & _)]); [done|].
  apply heap_ext.
  - by rewrite Hpay2.
  - intros r. rewrite Hdeps2, Hdeps. case_decide; [|done]. subst r.
    by apply splice1_app_fresh.
  - intros r. rewrite Hdpts2, Hdpts. case_decide; [|done]. subst r.
    by apply splice1_app_fresh.
Qed.

(** X2: removeDependency trusts the back edge to be there.  When node is
    among the dependencies of this but this is not among the dependents of
    node, indexOf answers -1 and splice(-1, 1) takes the last dependent of
    node away: another node, which still lists node as its dependency. *)
Theorem removeDependency_drops_last_dependent
    (h : heap) (this node x : ref) (l : list ref) :
  node ∈ dependenciesOf h this → (this ∉ dependentsOf h node) →
  dependentsOf h node = l ++ [x] →
  ∃ h', removeDependency this node h = Ok h' ∧
        dependentsOf h' node = l ∧
        dependenciesOf h' x = dependenciesOf h x.
Proof.
  intros Hin Hnt Hl.
  assert (this < length h) as Hthis.
  { destruct (decide (this < length h)); [done|].
    rewrite dependenciesOf_invalid in Hin by lia. by apply elem_of_nil in Hin. }
  assert (node < length h) as Hnode.
  { destruct (decide (node < length h)); [done|].
    rewrite dependentsOf_invalid in Hl by lia. by destruct l. }
  assert (x ≠ this) as Hx.
  { intros ->. apply Hnt. rewrite Hl. apply elem_of_app. right. by left. }
  destruct (removeDependency_total this node h Hthis Hnode) as [h' Hrem].
  exists h'. split; [done|].
  apply removeDependency_spec in Hrem
    as (_ & [[Hnin _]|(_ & _ & _ & Hdeps & Hdpts & _)]); [done|].
  split.
  - rewrite Hdpts, decide_True by done.
    rewrite (indexOf_None _ _ Hnt). simpl. rewrite Hl. apply removelast_last.
  - rewrite Hdeps. by rewrite decide_False.
Qed.

Lemma splice1_indexOf_filter (l : list ref) x :
  NoDup l → x ∈ l → splice1 (indexOf x l) l = filter (fun y => y ≠ x) l.
Proof.
  induction l as [|a l IH]; intros Hnd Hx; [by apply elem_of_nil in Hx|].
  apply NoDup_cons in Hnd as [Ha Hnd]. simpl.
  destruct (decide (a = x)) as [->|Hne]; simpl.
  - rewrite filter_cons_False by (intros ?; done).
    symmetry. apply filter_all. intros y Hy ->. done.
  - rewrite filter_cons_True by done.
    apply elem_of_cons in Hx as [->|Hin]; [done|].
    destruct (indexOf_Some _ _ Hin) as (i & Hi & _).
    specialize (IH Hnd Hin). rewrite Hi in IH |- *. simpl in *. by rewrite IH.
Qed.

Lemma filter_ext_in {A} (P Q : A → Prop) `{!∀ x, Decision (P x), !∀ x, Decision (Q x)}
    (l : list A) :
  (∀ x, x ∈ l → (P x ↔ Q x)) → filter P l = filter Q l.
Proof.
  induction l as [|a l IH]; intros HPQ; [done|].
  rewrite !filter_cons.
  assert (filter P l = filter Q l) as -> by (apply IH; intros x Hx; apply HPQ; by right).
  apply decide_ext. apply HPQ. by left.
Qed.

Lemma filter_ne_fresh (x : ref) (l : list ref) : x ∉ l → filter (fun y => y ≠ x) l = l.
Proof. intros Hx. apply filter_all. intros y Hy ->. done. Qed.

Lemma symmetricEdges_no_back_edge h this node :
  symmetricEdges h → this < length h → (node ∉ dependenciesOf h this) →
  this ∉ dependentsOf h node.
Proof.
  intros Hsym Hthis Hnin Hin.
  destruct (decide (node < length h)) as [Hnode|Hnode].
  - apply Hnin. by apply Hsym.
  - rewrite dependentsOf_invalid in Hin by lia. by apply elem_of_nil in Hin.
Qed.

Lemma removeEach_frame this snapshot : ∀ h h',
  symmetricEdges h → noDuplicateEdges h →
  removeEach this snapshot h = Ok h' →
  payload <$> h' = payload <$> h ∧
  (∀ r, dependenciesOf h' r =
          (if decide (r = this)
           then filter (fun y => y ∉ snapshot) (dependenciesOf h r)
           else dependenciesOf h r)) ∧
  (∀ r, dependentsOf h' r =
          (if decide (r ∈ snapshot)
           then filter (fun y => y ≠ this) (dependentsOf h r)
           else dependentsOf h r)).
Proof.
  induction snapshot as [|node rest IH]; intros h h' Hsym Hnd H; simplify_eq/=.
  { split; [done|]. split; intros r.
    - case_decide; [|done]. symmetry. apply filter_all. intros y _. apply not_elem_of_nil.
    - done. }
  destruct (removeDependency this node h) as [h1| |] eqn:H1; simplify_eq/=.
  destruct (removeDependency_preserves _ _ _ _ Hsym Hnd H1) as [Hsym1 Hnd1].
  destruct (IH h1 h' Hsym1 Hnd1 H) as (Hpay & Hdeps & Hdpts).
  pose proof (removeDependency_payload _ _ _ _ H1) as Hpay1.
  split; [by rewrite Hpay|].
  apply removeDependency_spec in H1
    as (Hthis & [[Hnin ->]|(Hin & Hnode & Hlen & Hdeps1 & Hdpts1 & _)]).
  - pose proof (symmetricEdges_no_back_edge _ _ _ Hsym Hthis Hnin) as Hback.
    split; intros r.
    + rewrite Hdeps. case_decide as Hr; [subst r|done].
      apply filter_ext_in. intros y Hy. rewrite not_elem_of_cons.
      split; [|tauto]. intros Hyr. split; [|done]. by intros ->.
    + rewrite Hdpts. destruct (decide (r = node)) as [->|Hne].
      * rewrite (decide_True _ _ (list_elem_of_here node rest)).
        case_decide; [done|]. by rewrite filter_ne_fresh.
      * apply decide_ext. rewrite elem_of_cons. tauto.
  - assert (this ∈ dependentsOf h node) as Hback by by apply Hsym.
    split; intros r.
    + rewrite Hdeps, Hdeps1. case_decide as Hr; [subst r|done].
      rewrite splice1_indexOf_filter by (done || apply Hnd).
      rewrite list_filter_filter. apply list_filter_iff.
      intros y. rewrite not_elem_of_cons. tauto.
    + rewrite Hdpts, Hdpts1. destruct (decide (r = node)) as [->|Hne].
      * rewrite (decide_True _ _ (list_elem_of_here node rest)).
        rewrite splice1_indexOf_filter by (done || apply Hnd).
        case_decide; [|done].
        rewrite list_filter_filter. apply list_filter_iff. intros y. tauto.
      * apply decide_ext. rewrite elem_of_cons. tauto.
Qed.

(** X3: removeAllDependencies takes this out of the graph from above and
    touches nothing else.  On a state whose edge lists are symmetric, name
    node objects and hold no node twice it returns; this has no dependency
    left, every other node keeps its dependencies, each node keeps its
    dependents but for this, in their order, and ids, flags and variants
    are as they were. *)
Theorem removeAllDependencies_cuts_this_only (h : heap) (this : ref) :
  symmetricEdges h → noDuplicateEdges h → closedEdges h → this < length h →
  ∃ h', removeAllDependencies this h = Ok h' ∧
        payload <$> h' = payload <$> h ∧
        dependenciesOf h' this = [] ∧
        (∀ r, r ≠ this → dependenciesOf h' r = dependenciesOf h r) ∧
        (∀ r, dependentsOf h' r = filter (fun y => y ≠ this) (dependentsOf h r)).
Proof.
  intros Hsym Hnd Hc Hthis.
  destruct (lookup_lt_is_Some_2 h this Hthis) as [t Ht].
  assert (∀ snapshot h1, length h1 = length h →
            (∀ x, x ∈ snapshot → x < length h) →
            ∃ h', removeEach this snapshot h1 = Ok h') as Htotal.
  { induction snapshot as [|node rest IH]; intros h1 Hlen Hvalid; simpl; [eauto|].
    destruct (removeDependency_total this node h1) as [h2 H2];
      [lia|rewrite Hlen; apply Hvalid; left|].
    rewrite H2. simpl. apply IH.
    - apply removeDependency_spec in H2 as (_ & [[_ ->]|(_ & _ & -> & _)]); done.
    - intros x Hx. apply Hvalid. by right. }
  destruct (Htotal (_dependencies t) h eq_refl) as [h' Hrem].
  { intros x Hx. apply (Hc this x). right. by rewrite (dependenciesOf_lookup _ _ _ Ht). }
  exists h'. unfold removeAllDependencies. rewrite (getNode_lookup _ _ _ Ht).
  cbn [mbind outcome_bind]. split; [done|].
  destruct (removeEach_frame this (_dependencies t) h h' Hsym Hnd Hrem)
    as (Hpay & Hdeps & Hdpts).
  assert (∀ r, dependentsOf h' r = filter (fun y => y ≠ this) (dependentsOf h r)) as Hall.
  { intros r. rewrite Hdpts. case_decide as Hr; [done|].
    rewrite filter_ne_fresh; [done|].
    apply symmetricEdges_no_back_edge; [done|done|].
    by rewrite (dependenciesOf_lookup _ _ _ Ht). }
  split; [done|]. split; [|split; [|done]].
  - rewrite Hdeps, decide_True by done.
    rewrite (dependenciesOf_lookup _ _ _ Ht).
    induction (_dependencies t) as [|a l IH] using rev_ind; [done|].
    clear IH. apply length_zero_iff_nil.
    destruct (filter _ (l ++ [a])) as [|y ys] eqn:Hf; [done|].
    assert (y ∈ filter (fun y => y ∉ l ++ [a]) (l ++ [a])) as Hy by (rewrite Hf; left).
    apply list_elem_of_filter in Hy as [Hy1 Hy2]. done.
  - intros r Hr. rewrite Hdeps. by rewrite decide_False.
Qed.

(** * Further properties of getRootNode *)

(** X4: on a graph without cycles whose edge lists name node objects,
    getRootNode returns, from every node, a node without dependencies that
    the node depends on over zero or more edges; on a well-formed graph
    that is the same node for every node of the graph, and every node is
    reached from it along dependents. *)
Theorem getRootNode_finds_the_root (h : heap) (x : ref) :
  closedEdges h → acyclic h → x < length h →
  ∃ r, getRootNode x h = Ok r ∧ r < length h ∧ dependenciesOf h r = [] ∧
       rtc (fun a b => b ∈ dependenciesOf h a) x r ∧
       (wellFormed h →
        ∀ v, v < length h → getRootNode v h = Ok r ∧ reachable h getDependents r v).
Proof.
  intros Hc Ha Hx.
  destruct (getRootNode_total h Hc Ha x Hx) as [r Hr].
  exists r. split; [done|].
  destruct (getRootNode_spec _ _ _ Hr) as (Hpath & Hrv & Hre).
  repeat (split; [done|]).
  intros Hwf v Hv. by apply (wellFormed_root h Hwf x).
Qed.

(** X5: getRootNode has no guard against cycles.  When the first
    dependency of every node of a set is in the set again, the loop, begun
    at a node of the set, passes every bound on its iterations. *)
Theorem getRootNode_loops_on_a_cycle (h : heap) (loop : ref → Prop) (x : ref) :
  (∀ y, loop y → ∃ n d ds, h !! y = Some n ∧ _dependencies n = d :: ds ∧ loop d) →
  loop x →
  (∀ fuel, getRootNode_loop fuel x h = Diverge) ∧ getRootNode x h = Diverge.
Proof.
  intros Hloop Hx.
  assert (∀ fuel y, loop y → getRootNode_loop fuel y h = Diverge) as Hall.
  { induction fuel as [|fuel IH]; intros y Hy; [done|]. simpl.
    destruct (Hloop y Hy) as (n & d & ds & Hn & Hd & Hld).
    rewrite (getNode_lookup _ _ _ Hn). cbn [mbind outcome_bind]. rewrite Hd. by apply IH. }
  split; [intros fuel; by apply Hall|by apply Hall].
Qed.

(** * The edge operations and a node that is not there *)

(** X19: what the edge operations do with an argument that is no node
    object (undefined).  addDependency, addDependent and removeDependent
    throw a TypeError; removeDependency finds nothing to remove and returns
    without a word, the heap as it was. *)
Theorem edge_operations_on_a_missing_node (h : heap) (this node : ref) :
  closedEdges h → this < length h → length h ≤ node →
  addDependency this node h = Throw TypeError ∧
  addDependent this node h = Throw TypeError ∧
  removeDependent this node h = Throw TypeError ∧
  removeDependency this node h = Ok h.
Proof.
  intros Hc Hthis Hnode.
  destruct (lookup_lt_is_Some_2 h this Hthis) as [t Ht].
  assert (node ∉ _dependencies t) as Hnin.
  { intros Hin. assert (node < length h); [|lia].
    apply (Hc this node). right. by rewrite (dependenciesOf_lookup _ _ _ Ht). }
  assert (getNode node h = Throw TypeError) as Hmiss.
  { unfold getNode. by rewrite (lookup_ge_None_2 h node Hnode). }
  unfold addDependent, removeDependent, addDependency, removeDependency.
  rewrite Hmiss, (getNode_lookup _ _ _ Ht). cbn [mbind outcome_bind].
  by rewrite bool_decide_false.
Qed.

(** * Further properties of hasCycle *)

Lemma follows_tc h dir p : ∀ k i a b,
  follows h dir p → p !! i = Some a → p !! (i + S k) = Some b →
  tc (edgeOf h dir) a b.
Proof.
  induction k as [|k IH]; intros i a b Hf Ha Hb.
  - apply tc_once. apply (Hf i); [done|]. by replace (S i) with (i + 1) by lia.
  - destruct (lookup_lt_is_Some_2 p (S i)) as [c Hc].
    { apply lookup_lt_Some in Hb. lia. }
    eapply tc_l; [by apply (Hf i a c)|].
    apply (IH (S i)); [done|done|]. by replace (S i + S k) with (i + S (S k)) by lia.
Qed.

Lemma follows_rtc h dir p i j a b :
  follows h dir p → i ≤ j → p !! i = Some a → p !! j = Some b →
  rtc (edgeOf h dir) a b.
Proof.
  intros Hf Hle Ha Hb. destruct (decide (i = j)) as [->|Hne].
  - assert (a = b) as -> by congruence. apply rtc_refl.
  - apply tc_rtc. apply (follows_tc h dir p (j - i - 1) i); [done|done|].
    by replace (i + S (j - i - 1)) with j by lia.
Qed.

Lemma follows_snoc h dir p y x :
  follows h dir p → last p = Some y → edgeOf h dir y x → follows h dir (p ++ [x]).
Proof.
  intros Hf Hl He i a b Ha Hb.
  destruct (decide (S i < length p)) as [Hlt|Hge].
  - rewrite lookup_app_l in Ha by lia. rewrite lookup_app_l in Hb by lia.
    by apply (Hf i).
  - assert (S i = length p) as Hi.
    { apply lookup_lt_Some in Hb. rewrite length_app in Hb. simpl in Hb. lia. }
    rewrite lookup_app_l in Ha by lia.
    rewrite lookup_app_r in Hb by lia. rewrite Hi, Nat.sub_diag in Hb.
    injection Hb as <-.
    rewrite last_lookup in Hl. replace (pred (length p)) with i in Hl by lia.
    assert (a = y) as -> by congruence. done.
Qed.

Lemma stackInv_pop h dir start path tv y da :
  stackInv h dir start path (tv ++ [y]) da → stackInv h dir start path tv da.
Proof.
  intros [Hnd Hs He]. split.
  - by apply NoDup_app in Hnd as [? _].
  - intros i j x z dx dz Hij Hx Hz. apply (Hs i j x z); [done|..].
    + by apply lookup_app_l_Some.
    + by apply lookup_app_l_Some.
  - intros x Hx. apply He. apply elem_of_app. by left.
Qed.

(** The path after the visit of the node on top of the stack. *)
Lemma stackInv_visit h dir start path tv y da d :
  stackInv h dir start path (tv ++ [y]) da →
  da !! y = Some d →
  stackInv h dir start (take d path ++ [y]) tv da ∧
  follows h dir (take d path ++ [y]) ∧
  head (take d path ++ [y]) = Some start ∧
  ∀ x dx, x ∈ tv → da !! x = Some dx → dx ≤ d.
Proof.
  intros Hinv Hd. pose proof Hinv as [Hnd Hs He].
  destruct (He y) as (d' & Hd' & Hlen & Hf & Hh & Hfresh);
    [apply elem_of_app; right; by left|].
  assert (d' = d) as -> by congruence.
  assert (∀ x dx, x ∈ tv → da !! x = Some dx → dx ≤ d) as Hle.
  { intros x dx [i Hi]%list_elem_of_lookup_1 Hdx.
    apply (Hs i (length tv) x y dx d); try done.
    - apply lookup_lt_Some in Hi. lia.
    - by apply lookup_app_l_Some.
    - rewrite lookup_app_r by lia. by rewrite Nat.sub_diag. }
  split; [|done]. split.
  - by apply NoDup_app in Hnd as [? _].
  - intros i j x z dx dz Hij Hx Hz. apply (Hs i j x z); [done|..].
    + by apply lookup_app_l_Some.
    + by apply lookup_app_l_Some.
  - intros x Hx.
    destruct (He x) as (dx & Hdx & Hlx & Hfx & Hhx & Hfrx); [apply elem_of_app; by left|].
    pose proof (Hle x dx Hx Hdx) as Hdd.
    assert (take dx (take d path ++ [y]) = take dx path) as Htake.
    { rewrite take_app_le by (rewrite length_take; lia).
      rewrite take_take. by replace (dx `min` d) with dx by lia. }
    exists dx. split; [done|]. split; [rewrite length_app, length_take; simpl; lia|].
    rewrite Htake. split; [done|]. split; [done|].
    rewrite drop_app_le by (rewrite length_take; lia).
    intros [Hin| ->%list_elem_of_singleton]%elem_of_app.
    + apply Hfrx. rewrite <- (take_drop d path) at 1.
      rewrite drop_app_le by (rewrite length_take; lia).
      apply elem_of_app. by left.
    + apply NoDup_app in Hnd as (_ & Hdisj & _). apply (Hdisj y Hx). by left.
Qed.

(** The pushes of one visit. *)
Lemma stackInv_push h dir start path y nodes : ∀ tv da,
  stackInv h dir start path tv da →
  follows h dir path → head path = Some start → last path = Some y →
  (∀ x, x ∈ nodes → edgeOf h dir y x) →
  stackInv h dir start path
    (pushNext (length path) nodes tv da).1 (pushNext (length path) nodes tv da).2.
Proof.
  induction nodes as [|x nodes IH]; intros tv da Hinv Hf Hh Hl He; [done|].
  simpl. case_bool_decide as Hin.
  { apply IH; try done. intros z Hz. apply He. by right. }
  apply IH; try done; [|intros z Hz; apply He; by right].
  destruct Hinv as [Hnd Hs Hent]. split.
  - apply NoDup_app. split; [done|]. split; [|apply NoDup_singleton].
    by intros z Hz ->%list_elem_of_singleton.
  - intros i j a b da' db Hij Ha Hb Hda Hdb.
    destruct (decide (j < length tv)) as [Hj|Hj].
    + rewrite lookup_app_l in Ha by lia. rewrite lookup_app_l in Hb by lia.
      assert (a ≠ x) by (intros ->; apply Hin; by eapply list_elem_of_lookup_2).
      assert (b ≠ x) by (intros ->; apply Hin; by eapply list_elem_of_lookup_2).
      rewrite lookup_insert_ne in Hda by done. rewrite lookup_insert_ne in Hdb by done.
      by apply (Hs i j a b).
    + assert (j = length tv) as ->.
      { apply lookup_lt_Some in Hb. rewrite length_app in Hb. simpl in Hb. lia. }
      rewrite lookup_app_r in Hb by lia. rewrite Nat.sub_diag in Hb. injection Hb as <-.
      rewrite lookup_insert_eq in Hdb. injection Hdb as <-.
      destruct (decide (i = length tv)) as [->|Hi].
      * rewrite lookup_app_r in Ha by lia. rewrite Nat.sub_diag in Ha. injection Ha as <-.
        rewrite lookup_insert_eq in Hda. by injection Hda as <-.
      * rewrite lookup_app_l in Ha by lia.
        assert (a ∈ tv) as Hatv by by eapply list_elem_of_lookup_2.
        assert (a ≠ x) by (by intros ->).
        rewrite lookup_insert_ne in Hda by done.
        destruct (Hent a Hatv) as (d & Hd & Hle & _). congruence.
  - intros z [Hz| ->%list_elem_of_singleton]%elem_of_app.
    + assert (z ≠ x) by (by intros ->).
      rewrite lookup_insert_ne by done. by apply Hent.
    + exists (length path). rewrite lookup_insert_eq. split; [done|]. split; [done|].
      rewrite firstn_all, drop_all. split; [|split; [|apply not_elem_of_nil]].
      * eapply follows_snoc; [done|done|]. apply He. by left.
      * destruct path; [done|done].
Qed.

(** An answer true comes from a node met again on the current path: a
    cycle, reached from the start. *)
Lemma hasCycle_loop_sound h dir start fuel : ∀ visited path tv da h',
  stackInv h dir start path tv da →
  hasCycle_loop fuel dir visited path tv da h = Ok (true, h') →
  ∃ x, rtc (edgeOf h dir) start x ∧ tc (edgeOf h dir) x x.
Proof.
  induction fuel as [|fuel IH]; intros visited path tv da h' Hinv H; [done|].
  cbn [hasCycle_loop] in H.
  destruct (pop tv) as [[y tv']|] eqn:Hpop; [|done].
  apply pop_Some in Hpop as ->.
  destruct (si_entry _ _ _ _ _ _ Hinv y) as (d & Hd & Hlen & Hf & Hh & Hfresh);
    [apply elem_of_app; right; by left|].
  case_bool_decide as Hpath.
  { clear H. exists y.
    assert (y ∈ take d path) as [i Hi]%list_elem_of_lookup_1.
    { rewrite <- (take_drop d path) in Hpath.
      by apply elem_of_app in Hpath as [?|?]. }
    pose proof (lookup_lt_Some _ _ _ Hi) as Hlt.
    assert ((take d path ++ [y]) !! i = Some y) as Hi' by by apply lookup_app_l_Some.
    assert ((take d path ++ [y]) !! length (take d path) = Some y) as Hend.
    { rewrite lookup_app_r by lia. by rewrite Nat.sub_diag. }
    split.
    - rewrite head_lookup in Hh.
      apply (follows_rtc h dir (take d path ++ [y]) 0 i); [done|lia|done|done].
    - apply (follows_tc h dir (take d path ++ [y]) (length (take d path) - i - 1) i);
        [done|done|].
      by replace (i + S (length (take d path) - i - 1)) with (length (take d path)) by lia. }
  case_bool_decide as Hvisited.
  { eapply IH; [|done]. by eapply stackInv_pop. }
  destruct (getNode y h) as [n| |] eqn:Hn; [|done..]. cbn [mbind outcome_bind] in H.
  apply getNode_Ok in Hn.
  rewrite Hd in H. cbn [trimPath] in H.
  destruct (pushNext _ (nodesToExplore dir n) tv' da) as [tv'' da'] eqn:Hpush.
  eapply IH; [|done].
  destruct (stackInv_visit _ _ _ _ _ _ _ _ Hinv Hd) as (Hinv' & Hf' & Hh' & _).
  pose proof (stackInv_push h dir start (take d path ++ [y]) y (nodesToExplore dir n)
                tv' da Hinv' Hf' Hh') as Hp.
  rewrite Hpush in Hp. apply Hp.
  - by rewrite last_snoc.
  - intros x Hx. unfold edgeOf. by rewrite (nextOf_lookup _ _ _ _ Hn).
Qed.

Lemma hasCycle_dir_sound h dir node h' :
  hasCycle_dir node dir h = Ok (true, h') →
  ∃ x, rtc (edgeOf h dir) node x ∧ tc (edgeOf h dir) x x.
Proof.
  intros H. eapply (hasCycle_loop_sound h dir node); [|done]. split.
  - apply NoDup_singleton.
  - intros i j x y dx dy _ Hx Hy Hdx Hdy.
    apply list_lookup_singleton_Some in Hx as [_ <-].
    apply list_lookup_singleton_Some in Hy as [_ <-]. by simplify_eq.
  - intros x ->%list_elem_of_singleton. exists 0.
    rewrite lookup_singleton_eq. split; [done|]. split; [done|]. simpl.
    split; [|split; [done|apply not_elem_of_nil]].
    intros i a b Ha Hb. destruct i; done.
Qed.

Lemma tc_reverse {A} (R : relation A) x y : tc R x y → tc (flip R) y x.
Proof.
  induction 1 as [x y Hxy|x y z Hxy _ IH]; [by apply tc_once|].
  eapply tc_r; [exact IH|done].
Qed.

Lemma dependents_cycle_dependencies_cycle h x :
  closedEdges h → symmetricEdges h →
  tc (edgeOf h dependents) x x → tc (fun a b => b ∈ dependenciesOf h a) x x.
Proof.
  intros Hc Hsym Htc. apply tc_reverse in Htc.
  apply (tc_congruence id (fun a b => b ∈ dependenciesOf h a)) in Htc; [done|].
  intros a b Hab. unfold flip, edgeOf in Hab. simpl.
  assert (a ∈ dependentsOf h b) as Hin by done.
  assert (b < length h) as Hb.
  { destruct (decide (b < length h)); [done|].
    rewrite dependentsOf_invalid in Hin by lia. by apply elem_of_nil in Hin. }
  apply Hsym; [|done|done]. apply (Hc b a). by left.
Qed.

Lemma hasCycle_sound h node dir h' :
  hasCycle node dir h = Ok (true, h') →
  ∃ d x, (d = dependents ∨ d = dependencies) ∧
         (default both dir = both ∨ default both dir = d) ∧
         rtc (edgeOf h d) node x ∧ tc (edgeOf h d) x x.
Proof.
  intros H. unfold hasCycle in H.
  destruct (default both dir) eqn:Hdir.
  - destruct (hasCycle_dir_sound _ _ _ _ H) as (x & Hr & Ht).
    exists dependents, x. split; [by left|]. split; [by right|done].
  - destruct (hasCycle_dir_sound _ _ _ _ H) as (x & Hr & Ht).
    exists dependencies, x. split; [by right|]. split; [by right|done].
  - destruct (hasCycle_dir node dependents h) as [[b h1]| |] eqn:H1; [|done..].
    cbn [mbind outcome_bind] in H. destruct b.
    + destruct (hasCycle_dir_sound _ _ _ _ H1) as (x & Hr & Ht).
      exists dependents, x. split; [by left|]. split; [by left|done].
    + apply hasCycle_dir_reads in H1 as ->.
      destruct (hasCycle_dir_sound _ _ _ _ H) as (x & Hr & Ht).
      exists dependencies, x. split; [by right|]. split; [by left|done].
Qed.

Lemma hasCycle_acyclic h node dir :
  closedEdges h → symmetricEdges h → acyclic h → node < length h →
  hasCycle node dir h = Ok (false, h).
Proof.
  intros Hc Hsym Hacyc Hnode.
  destruct (hasCycle_returns h node dir Hc Hnode) as [[|] Hb]; [|done].
  exfalso. destruct (hasCycle_sound _ _ _ _ Hb) as (d & x & [-> | ->] & _ & _ & Htc).
  - apply (Hacyc x). by apply dependents_cycle_dependencies_cycle.
  - by apply (Hacyc x).
Qed.

(** X6: hasCycle is sound and not complete.  An answer true means that a
    cycle of edges of the direction searched (of one of the two, for both)
    is reached from the node; so on a graph without cycles, with symmetric
    edge lists that name node objects, the answer is false from every node
    in every direction.  An answer false does not mean that there is no
    cycle: a node still on the stack is not pushed again, keeps the depth
    it was first seen at, and the path is cut back past its real
    predecessor; on the graph R -> X, R -> Y, X <-> Y, Y -> Z the answer
    from R is false. *)
Theorem hasCycle_sound_not_complete :
  (∀ (h : heap) node dir h',
     hasCycle node dir h = Ok (true, h') →
     ∃ d x, (d = dependents ∨ d = dependencies) ∧
            (default both dir = both ∨ default both dir = d) ∧
            rtc (edgeOf h d) node x ∧ tc (edgeOf h d) x x) ∧
  (∀ (h : heap) node dir,
     closedEdges h → symmetricEdges h → acyclic h → node < length h →
     hasCycle node dir h = Ok (false, h)) ∧
  (closedEdges crossEdgeHeap ∧ symmetricEdges crossEdgeHeap ∧
   rtc (edgeOf crossEdgeHeap dependents) 0 1 ∧
   tc (edgeOf crossEdgeHeap dependents) 1 1 ∧
   ∀ dir, hasCycle 0 dir crossEdgeHeap = Ok (false, crossEdgeHeap)).
Proof.
  split; [intros h node dir h'; apply hasCycle_sound|]. split.
  - intros h node dir. apply hasCycle_acyclic.
  - split.
    { intros r x Hx. destruct r as [|[|[|[|r]]]]; simpl in Hx;
        unfold dependentsOf, dependenciesOf in Hx; simpl in Hx;
        destruct Hx as [Hx|Hx];
        repeat (apply elem_of_cons in Hx as [->|Hx]; [simpl; lia|]);
        by apply elem_of_nil in Hx. }
    split.
    { intros a b Ha Hb. simpl in Ha, Hb.
      destruct a as [|[|[|[|a]]]]; [| | | |lia];
        (destruct b as [|[|[|[|b]]]]; [| | | |lia]);
        unfold dependentsOf, dependenciesOf; simpl;
        rewrite ?elem_of_cons, ?elem_of_nil; split; intros Hx;
        repeat (destruct Hx as [Hx|Hx]; try discriminate Hx); tauto. }
    split; [apply rtc_once; unfold edgeOf, nextOf; simpl; left|].
    split.
    { eapply tc_l; [|apply tc_once]; unfold edgeOf, nextOf; simpl; left. }
    intros [[| |]|]; vm_compute; reflexivity.
Qed.

(** X15: the search of hasCycle ends.  On every heap the loop stops within
    one iteration per stack entry pushed, and a node is pushed only from
    the first visit of a node that lists it: hasCycle answers and leaves
    the heap as it was, or, when an edge list or the argument names no node
    object, throws a TypeError; it never runs on. *)
Theorem hasCycle_terminates (h : heap) (node : ref) (dir : option direction) :
  ((∃ b, hasCycle node dir h = Ok (b, h)) ∨ hasCycle node dir h = Throw TypeError) ∧
  (closedEdges h → node < length h → ∃ b, hasCycle node dir h = Ok (b, h)) ∧
  (length h ≤ node → hasCycle node dir h = Throw TypeError).
Proof.
  assert (∀ d, (∃ b, hasCycle_dir node d h = Ok (b, h)) ∨
               hasCycle_dir node d h = Throw TypeError) as Hdir.
  { intros d. unfold hasCycle_dir.
    destruct (hasCycle_loop_returns h d (hasCycle_fuel h) ∅ [] [node] {[node := 0]})
      as [Hok|[Hthrow _]]; [|by left|by right].
    pose proof (unexploredFrom_bound h d ∅ 0). unfold hasCycle_fuel. simpl. lia. }
  split; [|split].
  - unfold hasCycle. destruct (default both dir); [apply Hdir..|].
    destruct (Hdir dependents) as [[b ->]| ->]; [|by right].
    cbn [mbind outcome_bind]. destruct b; [left; by exists true|apply Hdir].
  - apply hasCycle_returns.
  - intros Hnode.
    assert (∀ d, hasCycle_dir node d h = Throw TypeError) as Hthrow.
    { intros d. unfold hasCycle_dir, hasCycle_fuel.
      cbn [Nat.add hasCycle_loop pop last removelast].
      rewrite bool_decide_false by apply not_elem_of_nil.
      rewrite bool_decide_false by apply not_elem_of_empty.
      unfold getNode. by rewrite (lookup_ge_None_2 h node Hnode). }
    unfold hasCycle. destruct (default both dir); [apply Hthrow..|].
    by rewrite Hthrow.
Qed.

(** * Further properties of cloneWithRelationships *)

(** What a call that returned went through. *)
Lemma cloneWithRelationships_Ok_spec h this predicate clone h' :
  wellFormed h →
  cloneWithRelationships this predicate h = Ok (clone, h') →
  ∃ root calls ids m,
    this < length h ∧
    getRootNode this h = Ok root ∧
    visits h getDependents root = Ok calls ∧
    NoDup (idOf h <$> calls.*1) ∧
    (∀ v, v ∈ calls.*1 ↔ v < length h) ∧
    computeIdsToInclude root predicate h = Ok (ids, h) ∧
    match predicate with
    | None => ids = None
    | Some p => ∃ i, ids = Some i ∧ selects h p (calls.*1) i
    end ∧
    ancestorClosed h ids ∧
    cloneGraph this predicate h = Ok (m, h') ∧
    cloneResult h ids (calls.*1) m h' ∧
    includes ids (idOf h this) ∧ clone = cloneOf m h this ∧
    ∃ cs, graphNodes clone h' = Ok cs ∧
          cs ≡ₚ seq (length h) (length (includedNodes ids h (calls.*1))).
Proof.
  intros Hwf H.
  destruct (cloneWithRelationships_Ok_inv _ _ _ _ _ H) as (root & ids & Hroot & Hids & Hthis).
  destruct (wellFormed_visits h this root Hwf Hthis Hroot)
    as (calls & Hvis & Hnd & Hndi & Hall & Hhd).
  destruct (cloneWithRelationships_spec h this predicate root calls ids Hwf Hthis Hroot
              Hvis Hids) as (Hanc & m & h1 & Hg & Hres & Heq & _ & Hcs).
  rewrite Heq in H. case_decide as Hinc; [|done]. injection H as <- <-.
  exists root, calls, ids, m. repeat (split; [done|]).
  split.
  { destruct (computeIdsToInclude_spec h root predicate calls ids h) as [_ Hsel];
      [apply Hwf|apply Hwf|done|intros x; apply Hall|done|done]. }
  repeat (split; [done|]). by apply Hcs.
Qed.

Lemma selects_this h p vs ids this :
  closedEdges h → uniqueIds h → (∀ v, v ∈ vs ↔ v < length h) → this < length h →
  selects h p vs ids →
  (idOf h this ∈ ids ↔
   ∃ v nv, h !! v = Some nv ∧ p nv = Ok true ∧
           rtc (fun a b => b ∈ dependenciesOf h a) v this).
Proof.
  intros Hc Hu Hvs Hthis Hsel. rewrite (Hsel (idOf h this)). split.
  - intros (v & nv & a & Hv & Hnv & Hp & Hreach & Hid).
    assert (a < length h) as Ha.
    { eapply reachable_closed; [|by apply Hvs|done].
      intros ??. by apply closedEdges_nextOf_dependencies. }
    assert (a = this) as -> by by apply (uniqueIds_inj h).
    exists v, nv. by rewrite <- reachable_dependencies.
  - intros (v & nv & Hnv & Hp & Hreach).
    exists v, nv, this. split; [apply Hvs; by eapply lookup_lt_Some|].
    repeat (split; [done|]). done.
Qed.

(** X8: when cloneWithRelationships throws.  On a well-formed graph, with a
    predicate that answers for every node, the call returns when the
    predicate is true of the calling node or of a node that depends on it,
    over any number of edges, and throws 'Cloned graph missing node' when
    it is true of none of them. *)
Theorem clone_throws_iff_nothing_selected_above
    (h : heap) (this : ref) (p : Predicate) :
  wellFormed h → this < length h →
  (∀ n, n ∈ h → ∃ b, p n = Ok b) →
  ((∃ v nv, h !! v = Some nv ∧ p nv = Ok true ∧
            rtc (fun a b => b ∈ dependenciesOf h a) v this) →
   ∃ clone h', cloneWithRelationships this (Some p) h = Ok (clone, h') ∧
               length h ≤ clone ∧ idOf h' clone = idOf h this) ∧
  ((∀ v nv, h !! v = Some nv →
            rtc (fun a b => b ∈ dependenciesOf h a) v this → p nv = Ok false) →
   cloneWithRelationships this (Some p) h = Throw ClonedGraphMissingNode).
Proof.
  intros Hwf Hthis Htotal.
  destruct (getRootNode_total h (wf_closed _ Hwf) (wf_acyclic _ Hwf) this Hthis)
    as [root Hroot].
  destruct (wellFormed_visits h this root Hwf Hthis Hroot)
    as (calls & Hvis & Hnd & Hndi & Hall & Hhd).
  destruct (computeIdsToInclude_total h root (Some p) calls) as [ids Hids];
    [apply Hwf|apply Hwf|done|intros x; apply Hall| |].
  { intros q [= <-]. apply Htotal. }
  destruct (computeIdsToInclude_spec h root (Some p) calls ids h) as [_ (i & -> & Hsel)];
    [apply Hwf|apply Hwf|done|intros x; apply Hall|done|].
  destruct (cloneWithRelationships_spec h this (Some p) root calls (Some i) Hwf Hthis Hroot
              Hvis Hids) as (Hanc & m & h1 & Hg & Hres & Heq & _ & Hcs).
  pose proof (selects_this h p (calls.*1) i this (wf_closed _ Hwf) (wf_ids _ Hwf)
                Hall Hthis Hsel) as Hiff.
  simpl in Heq. split.
  - intros Habove. apply Hiff in Habove.
    rewrite Heq, decide_True by done. eexists _, _. split; [done|].
    destruct (cloneOf_included h (Some i) (calls.*1) m h1 Hres Hall this Hthis Habove)
      as (k & Hk & ->).
    split; [lia|]. by apply (cr_id _ _ _ _ _ Hres).
  - intros Hnone. rewrite Heq, decide_False; [done|].
    intros (v & nv & Hnv & Hp & Hreach)%Hiff.
    specialize (Hnone v nv Hnv Hreach). congruence.
Qed.

(** X9: what a filtered clone holds.  On a well-formed graph the graph that
    cloneWithRelationships returns has one node per id, and its ids are
    those of the nodes that satisfy the predicate or are depended on, over
    any number of edges, by a node that satisfies it: those and no other. *)
Theorem clone_holds_exactly_what_selected_nodes_need
    (h : heap) (this : ref) (p : Predicate) (clone : ref) (h' : heap) :
  wellFormed h →
  cloneWithRelationships this (Some p) h = Ok (clone, h') →
  ∃ cs, graphNodes clone h' = Ok cs ∧
        NoDup (idOf h' <$> cs) ∧
        (∀ s, s ∈ idOf h' <$> cs → ∃ a, a < length h ∧ idOf h a = s) ∧
        ∀ a, a < length h →
          (idOf h a ∈ idOf h' <$> cs ↔
           ∃ v nv, h !! v = Some nv ∧ p nv = Ok true ∧
                   rtc (fun x y => y ∈ dependenciesOf h x) v a).
Proof.
  intros Hwf H.
  destruct (cloneWithRelationships_Ok_spec _ _ _ _ _ Hwf H)
    as (root & calls & ids & m & Hthis & Hroot & Hvis & Hndi & Hall & Hids
        & (i & -> & Hsel) & Hanc & Hg & Hres & Hinc & -> & cs & Hcs & Hperm).
  exists cs. split; [done|].
  assert (idOf h' <$> cs ≡ₚ idOf h <$> includedNodes (Some i) h (calls.*1)) as Hidp.
  { rewrite Hperm. erewrite fmap_seq_lookup; [done|].
    intros k v Hk. by apply (cr_id _ _ _ _ _ Hres). }
  split.
  { rewrite Hidp. by apply includedNodes_NoDup_ids. }
  split.
  { intros s. rewrite Hidp, list_elem_of_fmap.
    intros (a & -> & [Ha _]%includedNodes_spec). exists a. split; [by apply Hall|done]. }
  intros a Ha. rewrite Hidp.
  rewrite <- (selects_this h p (calls.*1) i a (wf_closed _ Hwf) (wf_ids _ Hwf) Hall Ha Hsel).
  rewrite list_elem_of_fmap. split.
  - intros (v & Hid & [Hv Hi]%includedNodes_spec). simpl in Hi. by rewrite Hid.
  - intros Hi. exists a. split; [done|]. apply includedNodes_spec.
    split; [by apply Hall|done].
Qed.

(** ** The clones are copies *)

Lemma allCopies_alter h0 h (f : Node → Node) i :
  (∀ n, payload (f n) = payload n) → allCopies h0 h → allCopies h0 (alter f i h).
Proof.
  intros Hf Hall c nc Hc. destruct (decide (i = c)) as [->|Hne].
  - rewrite list_lookup_alter_eq in Hc.
    destruct (h !! c) as [n|] eqn:Hn; simplify_eq/=.
    destruct (Hall c n Hn) as (v & nv & Hv & Hp). exists v, nv. by rewrite Hf.
  - rewrite list_lookup_alter_ne in Hc by done. by apply (Hall c).
Qed.

Lemma addDependency_allCopies h0 this node h h' :
  allCopies h0 h → addDependency this node h = Ok h' → allCopies h0 h'.
Proof.
  unfold addDependency. intros Hall H.
  destruct (getNode this h) as [t| |]; simplify_eq/=.
  case_bool_decide; simplify_eq/=; [done|].
  destruct (getNode node h) as [n| |]; simplify_eq/=.
  by do 2 (apply allCopies_alter; [done|]).
Qed.

Lemma rewire_allCopies h0 m c deps : ∀ h h',
  allCopies h0 h → rewire m c deps h = Ok h' → allCopies h0 h'.
Proof.
  induction deps as [|d deps IH]; intros h h' Hall H; simplify_eq/=; [done|].
  destruct (getNode d h) as [nd| |]; simplify_eq/=.
  destruct c as [c|]; simplify_eq/=.
  destruct (m !! _id nd) as [cd|]; simplify_eq/=.
  2:{ by destruct (getNode c h). }
  destruct (addDependency c cd h) as [h1| |] eqn:Hadd; simplify_eq/=.
  eapply IH; [|done]. by eapply addDependency_allCopies.
Qed.

Lemma cloneGraph_allCopies this predicate h m h' :
  cloneGraph this predicate h = Ok (m, h') → allCopies h h'.
Proof.
  unfold cloneGraph. intros H.
  destruct (getRootNode this h) as [root| |]; simplify_eq/=.
  destruct (computeIdsToInclude root predicate h) as [[ids h0]| |] eqn:Hids; simplify_eq/=.
  apply computeIdsToInclude_reads in Hids as ->.
  destruct (traverse (cloneCallback ids) None root ∅ h) as [[m1 h1]| |] eqn:H1; simplify_eq/=.
  apply (traverse_keeps (fun _ hx => allCopies h hx)) in H1.
  2:{ intros node path a hx a' hx' Hall Hc.
      unfold cloneCallback, cloneWithoutRelationships in Hc.
      destruct (getNode node hx) as [n| |] eqn:Hn; simplify_eq/=.
      destruct (shouldIncludeNode ids n); simplify_eq/=; [|done].
      unfold getNode in Hc. rewrite lookup_app_r, Nat.sub_diag in Hc by done.
      simplify_eq/=. apply getNode_Ok in Hn.
      intros c nc Hc. apply lookup_app_Some in Hc as [Hc|[_ Hc]]; [by apply (Hall c)|].
      apply list_lookup_singleton_Some in Hc as [_ <-].
      destruct (Hall node n Hn) as (v & nv & Hv & Hp). by exists v, nv. }
  2:{ intros c nc Hc. by exists c, nc. }
  destruct (traverse (rewireCallback ids m1) None root () h1) as [[u h2]| |] eqn:H2;
    simplify_eq/=.
  apply (traverse_keeps (fun _ hx => allCopies h hx)) in H2; [done| |done].
  intros node path a hx a' hx' Hall Hc. unfold rewireCallback in Hc.
  destruct (getNode node hx) as [n| |]; simplify_eq/=.
  destruct (shouldIncludeNode ids n); simplify_eq/=; [|done].
  destruct (rewire _ _ (_dependencies n) hx) as [hy| |] eqn:Hr; simplify_eq/=.
  by eapply rewire_allCopies.
Qed.

Lemma addEach_NoDup (l : list ref) : ∀ acc, NoDup (acc ++ l) → addEach acc l = acc ++ l.
Proof.
  induction l as [|x l IH]; intros acc Hnd; [by rewrite app_nil_r|].
  rewrite addEach_cons.
  assert (x ∉ acc) as Hx.
  { apply NoDup_app in Hnd as (_ & Hdisj & _). intros Hin. apply (Hdisj x Hin). by left. }
  rewrite bool_decide_false by done.
  rewrite IH; [by rewrite <- app_assoc|]. by rewrite <- app_assoc.
Qed.

(** X10: the graph cloneWithRelationships returns is a copy of the part of
    the graph it keeps.  Every node kept has one clone, a new object with
    its id and main-document flag; the dependencies of the clone
    are the clones of the dependencies of the node, all of them kept too,
    in the order of the original list; every new object is the clone of a
    node kept; and the edge lists of the heap stay symmetric and name node
    objects. *)
Theorem clone_is_a_copy_of_what_it_keeps
    (h : heap) (this : ref) (predicate : option Predicate) (clone : ref) (h' : heap) :
  wellFormed h →
  cloneWithRelationships this predicate h = Ok (clone, h') →
  ∃ (kept : ref → Prop) (f : ref → ref),
    kept this ∧ f this = clone ∧
    (predicate = None → ∀ v, v < length h → kept v) ∧
    (∀ v, kept v →
       v < length h ∧ length h ≤ f v < length h' ∧
       (∃ nc nv, h' !! f v = Some nc ∧ h !! v = Some nv ∧
                 _id nc = _id nv ∧ _isMainDocument nc = _isMainDocument nv) ∧
       (∀ d, d ∈ dependenciesOf h v → kept d) ∧
       (∀ c, c ∈ dependenciesOf h' (f v) ↔ ∃ d, d ∈ dependenciesOf h v ∧ c = f d) ∧
       (NoDup (dependenciesOf h v) →
        dependenciesOf h' (f v) = f <$> dependenciesOf h v)) ∧
    (∀ v w, kept v → kept w → f v = f w → v = w) ∧
    (∀ c, length h ≤ c < length h' → ∃ v, kept v ∧ f v = c) ∧
    symmetricEdges h' ∧ closedEdges h'.
Proof.
  intros Hwf H.
  destruct (cloneWithRelationships_Ok_spec _ _ _ _ _ Hwf H)
    as (root & calls & ids & m & Hthis & Hroot & Hvis & Hndi & Hall & Hids
        & Hpred & Hanc & Hg & Hres & Hinc & -> & _).
  pose proof (cloneGraph_allCopies _ _ _ _ _ Hg) as Hcopies.
  exists (fun v => v < length h ∧ includes ids (idOf h v)), (cloneOf m h).
  split; [done|]. split; [done|]. split.
  { intros -> v Hv. subst ids. done. }
  assert (∀ v w, v < length h → includes ids (idOf h v) →
            w < length h → includes ids (idOf h w) →
            cloneOf m h v = cloneOf m h w → v = w) as Hinj.
  { intros v w Hv Hiv Hw Hiw Heq.
    destruct (cloneOf_included h ids (calls.*1) m h' Hres Hall v Hv Hiv) as (kv & Hkv & Hcv).
    destruct (cloneOf_included h ids (calls.*1) m h' Hres Hall w Hw Hiw) as (kw & Hkw & Hcw).
    assert (kv = kw) as -> by lia. congruence. }
  split; [|split; [|split; [|split; [apply Hres|apply Hres]]]].
  - intros v [Hv Hiv]. split; [done|].
    pose proof (cloneOf_valid h ids (calls.*1) m h' Hres Hall v Hv Hiv) as Hvalid.
    split; [done|].
    assert (∀ d, d ∈ dependenciesOf h v → d < length h ∧ includes ids (idOf h d)) as Hdeps.
    { intros d Hd. split; [by eapply closedEdges_dependencies; [apply Hwf|]|].
      by apply (Hanc v d). }
    pose proof (clone_dependencies h ids (calls.*1) m h' Hres Hall v Hv Hiv) as Hcd.
    split; [|split; [done|split]].
    + destruct (lookup_lt_is_Some_2 h' (cloneOf m h v)) as [nc Hnc]; [lia|].
      destruct (lookup_lt_is_Some_2 h v Hv) as [nv Hnv].
      destruct (Hcopies _ _ Hnc) as (w & nw & Hnw & Hp).
      exists nc, nv. split; [done|]. split; [done|].
      assert (w = v) as ->;
        [|assert (nw = nv) as -> by congruence; unfold payload in Hp; by simplify_eq].
      apply (uniqueIds_inj h); [apply Hwf|by eapply lookup_lt_Some|done|].
      destruct (cloneOf_included h ids (calls.*1) m h' Hres Hall v Hv Hiv) as (k & Hk & Hck).
      pose proof (cr_id _ _ _ _ _ Hres _ _ Hk) as Hid. rewrite <- Hck in Hid.
      rewrite (idOf_lookup _ _ _ Hnc) in Hid. rewrite <- Hid.
      rewrite (idOf_lookup _ _ _ Hnw). unfold payload in Hp. by simplify_eq.
    + intros c. rewrite Hcd, elem_of_addEach, list_elem_of_fmap, elem_of_nil.
      split; [intros [[]|(d & -> & Hd)]; by exists d|intros (d & Hd & ->); right; by exists d].
    + intros Hnd. rewrite Hcd. rewrite addEach_NoDup; [done|]. simpl.
      apply NoDup_fmap_2_strong; [|done].
      intros x y Hx Hy. destruct (Hdeps x Hx), (Hdeps y Hy). by apply Hinj.
  - intros v w [Hv Hiv] [Hw Hiw]. by apply Hinj.
  - intros c [Hc1 Hc2]. rewrite (cr_length _ _ _ _ _ Hres) in Hc2.
    destruct (lookup_lt_is_Some_2 (includedNodes ids h (calls.*1)) (c - length h))
      as [v Hk]; [lia|].
    assert (v ∈ includedNodes ids h (calls.*1)) as [Hv Hiv]%includedNodes_spec
      by by eapply list_elem_of_lookup_2.
    exists v. split; [split; [by apply Hall|done]|].
    unfold cloneOf. rewrite (cr_map _ _ _ _ _ Hres _ _ Hk). simpl. lia.
Qed.

(** The ids of a filtered clone, for reuse. *)
Lemma clone_ids_exact h this p clone h' :
  wellFormed h →
  cloneWithRelationships this (Some p) h = Ok (clone, h') →
  ∃ cs, graphNodes clone h' = Ok cs ∧
        ∀ a, a < length h →
          (idOf h a ∈ idOf h' <$> cs ↔
           ∃ v nv, h !! v = Some nv ∧ p nv = Ok true ∧
                   rtc (fun x y => y ∈ dependenciesOf h x) v a).
Proof.
  intros Hwf H.
  destruct (cloneWithRelationships_Ok_spec _ _ _ _ _ Hwf H)
    as (root & calls & ids & m & Hthis & Hroot & Hvis & Hndi & Hall & Hids
        & (i & -> & Hsel) & Hanc & Hg & Hres & Hinc & -> & cs & Hcs & Hperm).
  exists cs. split; [done|].
  assert (idOf h' <$> cs ≡ₚ idOf h <$> includedNodes (Some i) h (calls.*1)) as Hidp.
  { rewrite Hperm. erewrite fmap_seq_lookup; [done|].
    intros k v Hk. by apply (cr_id _ _ _ _ _ Hres). }
  intros a Ha. rewrite Hidp.
  rewrite <- (selects_this h p (calls.*1) i a (wf_closed _ Hwf) (wf_ids _ Hwf) Hall Ha Hsel).
  rewrite list_elem_of_fmap. split.
  - intros (v & Hid & [Hv Hi]%includedNodes_spec). simpl in Hi. by rewrite Hid.
  - intros Hi. exists a. split; [done|]. apply includedNodes_spec.
    split; [by apply Hall|done].
Qed.

(** * Further properties of the render-blocking classifier *)

Lemma insertByStartTime_elem x l c : c ∈ insertByStartTime x l ↔ c = x ∨ c ∈ l.
Proof.
  induction l as [|y l IH]; simpl.
  - rewrite list_elem_of_singleton, elem_of_nil. tauto.
  - case_match; rewrite !elem_of_cons; [tauto|]. rewrite IH. tauto.
Qed.

Lemma sortByStartTime_elem l c : c ∈ sortByStartTime l ↔ c ∈ l.
Proof.
  induction l as [|x l IH]; [done|]. unfold sortByStartTime in *. simpl.
  rewrite insertByStartTime_elem, IH, elem_of_cons. tauto.
Qed.

Lemma insertByStartTime_sorted x l :
  StronglySorted startsBefore l → StronglySorted startsBefore (insertByStartTime x l).
Proof.
  induction 1 as [|y l Hs IH Hall]; simpl; [repeat constructor|].
  destruct (cpuStartTime (cpuTask x) <=? cpuStartTime (cpuTask y))%Z eqn:Hle.
  - apply Z.leb_le in Hle. constructor; [by constructor|].
    constructor; [done|]. eapply Forall_impl; [done|].
    intros z Hz. unfold startsBefore in *. lia.
  - apply Z.leb_gt in Hle. constructor; [done|].
    apply Forall_forall. intros z [->|Hz]%insertByStartTime_elem.
    + unfold startsBefore. lia.
    + by eapply Forall_forall in Hall.
Qed.

Lemma sortByStartTime_sorted l : StronglySorted startsBefore (sortByStartTime l).
Proof.
  induction l as [|x l IH]; [constructor|]. by apply insertByStartTime_sorted.
Qed.

(** find on a sorted array returns an earliest match. *)
Lemma find_sorted_earliest p l c :
  StronglySorted startsBefore l → find p l = Some c →
  c ∈ l ∧ p c = true ∧ ∀ c', c' ∈ l → p c' = true → startsBefore c c'.
Proof.
  induction 1 as [|y l Hs IH Hall]; [done|]. simpl.
  destruct (p y) eqn:Hy.
  - intros [= <-]. split; [by left|]. split; [done|].
    intros c' [->|Hc']%elem_of_cons _; [unfold startsBefore; lia|].
    by eapply Forall_forall in Hall.
  - intros Hf. destruct (IH Hf) as (Hc & Hp & Hmin). split; [by right|]. split; [done|].
    intros c' [->|Hc']%elem_of_cons Hp'; [congruence|by apply Hmin].
Qed.

Lemma find_is_Some {A} (p : A → bool) l x : x ∈ l → p x = true → is_Some (find p l).
Proof.
  intros Hx Hp. destruct (find p l) as [c|] eqn:Hf; [eauto|].
  apply list_elem_of_In in Hx. by rewrite (find_none _ _ Hf x Hx) in Hp.
Qed.

Lemma addFiltered_string cpuFilter cpus ids s :
  JsString s ∈ addFiltered cpuFilter cpus ids ↔
  JsString s ∈ ids ∨
  ∃ f c, cpuFilter = Some f ∧ c ∈ cpus ∧ f (cpuTask c) = true ∧ cpuId c = s.
Proof.
  unfold addFiltered. destruct cpuFilter as [f|].
  2:{ split; [by left|]. by intros [?|(f & c & ? & _)]. }
  assert (∀ l acc, JsString s ∈ foldl (fun ids c => setAdd (JsString (cpuId c)) ids) acc l ↔
                   JsString s ∈ acc ∨ ∃ c, c ∈ l ∧ cpuId c = s) as Hfold.
  { induction l as [|c l IH]; intros acc; simpl.
    - split; [by left|]. by intros [?|(c & []%elem_of_nil & _)].
    - rewrite IH, setAdd_elem. split.
      + intros [[Heq|?]|(c' & Hc' & <-)]; [right|by left|right].
        * exists c. split; [by left|congruence].
        * exists c'. split; [by right|done].
      + intros [?|(c' & [->|Hc']%elem_of_cons & <-)]; [left; by right|by do 2 left|].
        right. by exists c'. }
  rewrite Hfold. split.
  - intros [?|(c & [Hf Hc]%list_elem_of_filter & <-)]; [by left|right]. by exists f, c.
  - intros [?|(f' & c & [= <-] & Hc & Hf & <-)]; [by left|right].
    exists c. split; [|done]. by apply list_elem_of_filter.
Qed.

(** What a call that returned computed. *)
Lemma getBlockingCpuData_Ok_inv graph fcpTs networkFilter cpuFilter h data h' :
  getBlockingCpuData graph fcpTs networkFilter cpuFilter h = Ok (data, h') →
  ∃ collected ids0,
    traverse (collectCpuCallback fcpTs) None graph [] h = Ok (collected, h) ∧
    getScriptUrls graph (fun r => (networkEndTime r <=? fcpTs)%Z && networkFilter r) h
      = Ok (possiblyRenderBlockingScriptUrls data, h) ∧
    scanUrls (possiblyRenderBlockingScriptUrls data) (sortByStartTime collected) [] []
      = (actuallyRenderBlockingScriptUrls data, ids0) ∧
    blockingCpuNodeIds data =
      addFiltered cpuFilter (sortByStartTime collected)
        (addFirst (hasChildEvent "ParseHTML") (sortByStartTime collected)
           (addFirst (hasChildEvent "Paint") (sortByStartTime collected)
              (addFirst didPerformLayout (sortByStartTime collected) ids0))).
Proof.
  intros H. unfold getBlockingCpuData in H.
  destruct (traverse (collectCpuCallback fcpTs) None graph [] h) as [[collected h1]| |] eqn:H1;
    [|done..].
  cbn [mbind outcome_bind] in H.
  assert (h1 = h) as ->.
  { eapply traverse_reads; [|done]. intros ??????. apply collectCpuCallback_reads. }
  destruct (getScriptUrls graph _ h) as [[possibly h2]| |] eqn:H2; [|done..].
  cbn [mbind outcome_bind] in H.
  assert (h2 = h) as ->.
  { unfold getScriptUrls in H2. eapply traverse_reads; [|done].
    intros ??????. apply scriptUrlCallback_reads. }
  destruct (scanUrls possibly (sortByStartTime collected) [] []) as [actually ids0] eqn:Hs.
  injection H as <- <-. by exists collected, ids0.
Qed.

Lemma collected_isCpuEntry graph fcpTs h collected h' :
  traverse (collectCpuCallback fcpTs) None graph [] h = Ok (collected, h') →
  ∀ c, c ∈ collected → isCpuEntry h fcpTs c.
Proof.
  intros H.
  apply (traverse_keeps (fun acc hx => hx = h ∧ ∀ c, c ∈ acc → isCpuEntry h fcpTs c))
    in H as [_ ?]; [done| |].
  - intros node path acc hx acc' hx' [-> Hacc] Hc. unfold collectCpuCallback in Hc.
    destruct (getNode node h) as [n| |] eqn:Hn; simplify_eq/=. apply getNode_Ok in Hn.
    destruct (kind n) as [|r|t] eqn:Hk; simplify_eq/=; [done|].
    destruct (cpuStartTime t <=? fcpTs)%Z eqn:Hle; simplify_eq/=; [|done].
    split; [done|]. intros c [Hc| ->%list_elem_of_singleton]%elem_of_app; [by apply Hacc|].
    exists n. simpl. split; [done|]. split; [done|]. split; [done|]. by apply Z.leb_le.
  - split; [done|]. by intros c ?%elem_of_nil.
Qed.

(** X11: what getBlockingCpuData never records.  Every url it calls
    actually render-blocking is one it calls possibly render-blocking, and
    a CPU node that started at or before the paint evaluates it; every id
    in blockingCpuNodeIds is the id of a CPU node that started at or before
    the paint. *)
Theorem blocking_data_is_about_tasks_before_the_paint
    (h : heap) (graph : ref) (fcpTs : Z) (networkFilter : NetworkFilter)
    (cpuFilter : option CpuFilter) (data : BlockingCpuData) (h' : heap) :
  getBlockingCpuData graph fcpTs networkFilter cpuFilter h = Ok (data, h') →
  (∀ u, u ∈ actuallyRenderBlockingScriptUrls data →
        u ∈ possiblyRenderBlockingScriptUrls data ∧
        ∃ c, isCpuEntry h fcpTs c ∧ isEvaluateScriptFor [u] c = true) ∧
  (∀ s, JsString s ∈ blockingCpuNodeIds data →
        ∃ r n t, h !! r = Some n ∧ kind n = CPU t ∧ _id n = s ∧
                 (cpuStartTime t ≤ fcpTs)%Z).
Proof.
  intros H.
  destruct (getBlockingCpuData_Ok_inv _ _ _ _ _ _ _ H)
    as (collected & ids0 & Hcol & _ & Hscan & Hids).
  pose proof (collected_isCpuEntry _ _ _ _ _ Hcol) as Hentry.
  apply scanUrls_spec in Hscan as [Hact Hids0].
  split.
  - intros u [[]%elem_of_nil|(Hu & c & Hc & He)]%Hact. split; [done|].
    exists c. split; [|done]. by apply Hentry, sortByStartTime_elem.
  - intros s. rewrite Hids.
    assert (∀ c, c ∈ sortByStartTime collected → cpuId c = s →
              ∃ r n t, h !! r = Some n ∧ kind n = CPU t ∧ _id n = s ∧
                       (cpuStartTime t ≤ fcpTs)%Z) as Hc.
    { intros c (n & Hn & Hk & Hid & Hle)%sortByStartTime_elem%Hentry <-.
      by exists (cpuRef c), n, (cpuTask c). }
    assert (∀ p c, find p (sortByStartTime collected) = Some c →
                   c ∈ sortByStartTime collected) as Hfind.
    { intros p c Hf. by apply find_some in Hf as [?%list_elem_of_In _]. }
    intros [[[[Hs|(c & Hf & Hid)]%addFirst_string|(c & Hf & Hid)]%addFirst_string
              |(c & Hf & Hid)]%addFirst_string|(f & c & _ & Hin & _ & Hid)]%addFiltered_string.
    + apply Hids0 in Hs. by apply elem_of_nil in Hs.
    + eapply Hc; [by eapply Hfind|done].
    + eapply Hc; [by eapply Hfind|done].
    + eapply Hc; [by eapply Hfind|done].
    + by eapply Hc.
Qed.

Lemma runCalls_collect_covers fcpTs h calls : ∀ acc acc' h',
  runCalls (collectCpuCallback fcpTs) calls acc h = Ok (acc', h') →
  (∀ c, c ∈ acc → c ∈ acc') ∧
  ∀ v n t, v ∈ calls.*1 → h !! v = Some n → kind n = CPU t →
           (cpuStartTime t ≤ fcpTs)%Z → mkCpuNodeEntry v (_id n) t ∈ acc'.
Proof.
  induction calls as [|[w p] calls IH]; intros acc acc' h' H.
  { simpl in H. simplify_eq. split; [done|]. by intros v n t ?%elem_of_nil. }
  rewrite runCalls_cons in H.
  destruct (collectCpuCallback fcpTs w p acc h) as [[acc1 h1]| |] eqn:Hc; [|done..].
  cbn [mbind outcome_bind] in H.
  pose proof (collectCpuCallback_reads _ _ _ _ _ _ _ Hc) as ->.
  destruct (IH _ _ _ H) as [Hmono Hcov].
  unfold collectCpuCallback in Hc.
  destruct (getNode w h) as [nw| |] eqn:Hw; simplify_eq/=. apply getNode_Ok in Hw.
  split.
  - intros c Hin. apply Hmono.
    destruct (kind nw); simplify_eq/=; [done|].
    case_match; simplify_eq/=; [|done]. apply elem_of_app. by left.
  - intros v n t [->|Hv]%elem_of_cons Hn Hk Hle; [|by eapply Hcov].
    assert (nw = n) as -> by congruence. rewrite Hk in Hc.
    apply Z.leb_le in Hle. rewrite Hle in Hc. simplify_eq/=.
    apply Hmono. apply elem_of_app. right. by left.
Qed.

(** X12: what getBlockingCpuData always records.  Of the CPU nodes reached
    from the graph node that started at or before the paint, blockingCpuNodeIds
    holds the id of every one the cpuFilter accepts, and, when one of them
    performed a layout (has a Paint child event, a ParseHTML child event),
    the id of one that did and started no later than any other that did. *)
Theorem blocking_ids_hold_filtered_and_earliest_tasks
    (h : heap) (graph : ref) (fcpTs : Z) (networkFilter : NetworkFilter)
    (cpuFilter : option CpuFilter) (data : BlockingCpuData) (h' : heap)
    (r : ref) (n : Node) (t : CpuTask) :
  closedEdges h → uniqueIds h → graph < length h →
  getBlockingCpuData graph fcpTs networkFilter cpuFilter h = Ok (data, h') →
  reachable h getDependents graph r → h !! r = Some n → kind n = CPU t →
  (cpuStartTime t ≤ fcpTs)%Z →
  (∀ f, cpuFilter = Some f → f t = true → JsString (_id n) ∈ blockingCpuNodeIds data) ∧
  (∀ p : CpuTask → bool,
     p = performedLayout ∨ p = (fun t => setHas "Paint" (childEvents t)) ∨
     p = (fun t => setHas "ParseHTML" (childEvents t)) →
     p t = true →
     ∃ r0 n0 t0, h !! r0 = Some n0 ∧ kind n0 = CPU t0 ∧ p t0 = true ∧
                 (cpuStartTime t0 ≤ cpuStartTime t)%Z ∧
                 JsString (_id n0) ∈ blockingCpuNodeIds data).
Proof.
  intros Hc Hu Hgraph H Hreach Hn Hk Hle.
  destruct (getBlockingCpuData_Ok_inv _ _ _ _ _ _ _ H)
    as (collected & ids0 & Hcol & _ & _ & Hids).
  pose proof (collected_isCpuEntry _ _ _ _ _ Hcol) as Hentry.
  destruct (visits_closed h getDependents graph) as (calls & Hv & _ & _ & Hr & _);
    [by left|done..|].
  rewrite (traverse_runCalls (collectCpuCallback fcpTs) h getDependents) with (calls := calls)
    in Hcol; [|intros ?????? Hp Hcb; by apply collectCpuCallback_reads in Hcb as ->|done..].
  destruct (runCalls_collect_covers _ _ _ _ _ _ Hcol) as [_ Hcov].
  assert (mkCpuNodeEntry r (_id n) t ∈ sortByStartTime collected) as Hin.
  { apply sortByStartTime_elem. apply (Hcov r n t); try done. by apply Hr. }
  split.
  - intros f -> Hf. rewrite Hids. apply addFiltered_string. right.
    by exists f, (mkCpuNodeEntry r (_id n) t).
  - intros p Hp Hpt.
    assert (∀ q : CpuNodeEntry → bool, (∀ c, q c = p (cpuTask c)) →
              ∃ c0, find q (sortByStartTime collected) = Some c0 ∧ p (cpuTask c0) = true ∧
                    startsBefore c0 (mkCpuNodeEntry r (_id n) t)) as Hfirst.
    { intros q Hq.
      destruct (find_is_Some q (sortByStartTime collected) _ Hin) as [c0 Hc0];
        [by rewrite Hq|].
      destruct (find_sorted_earliest q _ c0 (sortByStartTime_sorted collected) Hc0)
        as (_ & Hq0 & Hmin).
      exists c0. split; [done|]. split; [by rewrite <- Hq|].
      apply Hmin; [done|by rewrite Hq]. }
    assert (∀ c0, c0 ∈ sortByStartTime collected → p (cpuTask c0) = true →
              startsBefore c0 (mkCpuNodeEntry r (_id n) t) →
              JsString (cpuId c0) ∈ blockingCpuNodeIds data →
              ∃ r0 n0 t0, h !! r0 = Some n0 ∧ kind n0 = CPU t0 ∧ p t0 = true ∧
                 (cpuStartTime t0 ≤ cpuStartTime t)%Z ∧
                 JsString (_id n0) ∈ blockingCpuNodeIds data) as Hdone.
    { intros c0 (n0 & Hn0 & Hk0 & Hid0 & _)%sortByStartTime_elem%Hentry Hp0 Hsb Hin0.
      exists (cpuRef c0), n0, (cpuTask c0). rewrite <- Hid0. done. }
    destruct Hp as [->|[->| ->]].
    + destruct (Hfirst didPerformLayout) as (c0 & Hf & Hp0 & Hsb); [done|].
      apply (Hdone c0); [by apply find_some in Hf as [?%list_elem_of_In _]|done|done|].
      rewrite Hids.
      apply addFiltered_string. left. apply addFirst_string. left.
      apply addFirst_string. left. apply addFirst_string. right. by exists c0.
    + destruct (Hfirst (hasChildEvent "Paint")) as (c0 & Hf & Hp0 & Hsb); [done|].
      apply (Hdone c0); [by apply find_some in Hf as [?%list_elem_of_In _]|done|done|].
      rewrite Hids.
      apply addFiltered_string. left. apply addFirst_string. left.
      apply addFirst_string. right. by exists c0.
    + destruct (Hfirst (hasChildEvent "ParseHTML")) as (c0 & Hf & Hp0 & Hsb); [done|].
      apply (Hdone c0); [by apply find_some in Hf as [?%list_elem_of_In _]|done|done|].
      rewrite Hids.
      apply addFiltered_string. left. apply addFirst_string. right. by exists c0.
Qed.

Lemma collectCpuCallback_lookup fcpTs h v path acc n :
  h !! v = Some n →
  collectCpuCallback fcpTs v path acc h =
  match kind n with
  | Base => Throw Unimplemented
  | Network _ => Ok (acc, h)
  | CPU t =>
      if (cpuStartTime t <=? fcpTs)%Z
      then Ok (acc ++ [mkCpuNodeEntry v (_id n) t], h)
      else Ok (acc, h)
  end.
Proof. intros Hn. unfold collectCpuCallback. by rewrite (getNode_lookup _ _ _ Hn). Qed.

Lemma runCalls_collect_base fcpTs h calls : ∀ acc,
  (∀ v, v ∈ calls.*1 → v < length h) →
  (∃ r n, r ∈ calls.*1 ∧ h !! r = Some n ∧ kind n = Base) →
  runCalls (collectCpuCallback fcpTs) calls acc h = Throw Unimplemented.
Proof.
  induction calls as [|[w p] calls IH]; intros acc Hvalid (r & n & Hr & Hn & Hk).
  { by apply elem_of_nil in Hr. }
  rewrite runCalls_cons.
  destruct (lookup_lt_is_Some_2 h w) as [nw Hw]; [apply Hvalid; left|].
  rewrite (collectCpuCallback_lookup _ _ _ _ _ _ Hw).
  assert (∀ acc1, runCalls (collectCpuCallback fcpTs) calls acc1 h = Throw Unimplemented
                  ∨ kind nw = Base) as Hrest.
  { intros acc1. simpl in Hr. apply elem_of_cons in Hr as [->|Hr].
    - right. assert (nw = n) as -> by congruence. done.
    - left. apply IH; [intros v Hv; apply Hvalid; by right|]. by exists r, n. }
  destruct (kind nw) as [|rec|t] eqn:Hkw; [done| |].
  - cbn [mbind outcome_bind]. by destruct (Hrest acc).
  - case_match; cbn [mbind outcome_bind]; by edestruct Hrest.
Qed.

(** X13: the classifier needs the accessors of the subclasses.  When a
    plain BaseNode is reached from the graph node, on which type, startTime
    and endTime throw, getBlockingCpuData throws 'Unimplemented', and so do
    getFirstPaintBasedGraph, getOptimisticGraph and getPessimisticGraph. *)
Theorem base_node_in_graph_is_unimplemented
    (h : heap) (graph r : ref) (n : Node) (fcpTs : Z) (networkFilter : NetworkFilter)
    (cpuFilter : option CpuFilter) (traceOfTab : TraceOfTab) :
  closedEdges h → uniqueIds h → graph < length h →
  reachable h getDependents graph r → h !! r = Some n → kind n = Base →
  nodeType n = Throw Unimplemented ∧
  startTime n = Throw Unimplemented ∧
  endTime n = Throw Unimplemented ∧
  getBlockingCpuData graph fcpTs networkFilter cpuFilter h = Throw Unimplemented ∧
  getFirstPaintBasedGraph graph fcpTs networkFilter cpuFilter h = Throw Unimplemented ∧
  getOptimisticGraph graph traceOfTab h = Throw Unimplemented ∧
  getPessimisticGraph graph traceOfTab h = Throw Unimplemented.
Proof.
  intros Hc Hu Hgraph Hreach Hn Hk.
  unfold nodeType, startTime, endTime. rewrite Hk. do 3 (split; [done|]).
  destruct (visits_closed h getDependents graph) as (calls & Hv & _ & _ & Hr & Hvalid & _);
    [by left|done..|].
  assert (∀ ts nf cf, getBlockingCpuData graph ts nf cf h = Throw Unimplemented) as Hdata.
  { intros ts nf cf. unfold getBlockingCpuData.
    rewrite (traverse_runCalls (collectCpuCallback ts) h getDependents) with (calls := calls);
      [|intros ?????? Hp Hcb; by apply collectCpuCallback_reads in Hcb as ->|done..].
    rewrite (runCalls_collect_base ts h calls []); [done|done|].
    exists r, n. split; [by apply Hr|done]. }
  split; [apply Hdata|].
  unfold getOptimisticGraph, getPessimisticGraph, getFirstPaintBasedGraph.
  by rewrite !Hdata.
Qed.

(** * Further properties of the first-paint graphs *)

(** X14: what getFirstPaintBasedGraph keeps.  On a well-formed graph the
    graph it returns holds the nodes its predicate accepts and the nodes
    those depend on.  So a node nothing depends on is kept exactly when the
    predicate accepts it: a network node that ended after the paint and is
    not the main document is dropped, and a CPU node is kept exactly when
    its id is in blockingCpuNodeIds. *)
Theorem first_paint_graph_keeps_accepted_nodes_and_their_dependencies
    (h : heap) (dependencyGraph : ref) (fcpTs : Z) (blockingScriptFilter : NetworkFilter)
    (cpuNodeFilter : option CpuFilter) (clone : ref) (h' : heap) :
  wellFormed h →
  getFirstPaintBasedGraph dependencyGraph fcpTs blockingScriptFilter cpuNodeFilter h
    = Ok (clone, h') →
  ∃ data cs,
    getBlockingCpuData dependencyGraph fcpTs blockingScriptFilter cpuNodeFilter h
      = Ok (data, h) ∧
    graphNodes clone h' = Ok cs ∧
    (∀ a, a < length h →
       (idOf h a ∈ idOf h' <$> cs ↔
        ∃ v nv, h !! v = Some nv ∧ firstPaintPredicate fcpTs data nv = Ok true ∧
                rtc (fun x y => y ∈ dependenciesOf h x) v a)) ∧
    (∀ a na record, h !! a = Some na → dependentsOf h a = [] →
       kind na = Network record → (networkEndTime record > fcpTs)%Z →
       _isMainDocument na = false → idOf h a ∉ idOf h' <$> cs) ∧
    (∀ a na task, h !! a = Some na → dependentsOf h a = [] →
       kind na = CPU task →
       (idOf h a ∈ idOf h' <$> cs ↔ JsString (_id na) ∈ blockingCpuNodeIds data)).
Proof.
  intros Hwf H. unfold getFirstPaintBasedGraph in H.
  destruct (getBlockingCpuData dependencyGraph fcpTs blockingScriptFilter cpuNodeFilter h)
    as [[data h1]| |] eqn:Hdata; [|done..].
  cbn [mbind outcome_bind] in H.
  pose proof (getBlockingCpuData_reads _ _ _ _ _ _ _ Hdata) as ->.
  destruct (clone_ids_exact _ _ _ _ _ Hwf H) as (cs & Hcs & Hids).
  exists data, cs. split; [done|]. split; [done|]. split; [done|].
  assert (∀ a na, h !! a = Some na → dependentsOf h a = [] →
            (idOf h a ∈ idOf h' <$> cs ↔ firstPaintPredicate fcpTs data na = Ok true))
    as Hleaf.
  { intros a na Hna Hnone. pose proof (lookup_lt_Some _ _ _ Hna) as Ha.
    rewrite (Hids a Ha). split.
    - intros (v & nv & Hnv & Hp & Hreach).
      apply rtc_inv_r in Hreach as [->|(z & _ & Hz)]; [congruence|].
      exfalso. assert (z ∈ dependentsOf h a) as Hin.
      { apply (wf_symmetric _ Hwf); [|done|done].
        destruct (decide (z < length h)); [done|].
        rewrite dependenciesOf_invalid in Hz by lia. by apply elem_of_nil in Hz. }
      rewrite Hnone in Hin. by apply elem_of_nil in Hin.
    - intros Hp. exists a, na. split; [done|]. split; [done|]. apply rtc_refl. }
  split.
  - intros a na record Hna Hnone Hk Hlate Hmain.
    rewrite (Hleaf a na Hna Hnone). unfold firstPaintPredicate. rewrite Hk, Hmain.
    assert ((networkEndTime record >? fcpTs)%Z = true) as -> by by apply Z.gtb_gt.
    done.
  - intros a na task Hna Hnone Hk.
    rewrite (Hleaf a na Hna Hnone). unfold firstPaintPredicate. rewrite Hk.
    rewrite <- setHas_true. split; [by intros [= ->]|by intros ->].
Qed.

(** * The graph cloneWithRelationships returns is well formed *)

Section rebase.
Context (k : nat) (h : heap).
Hypothesis Hapart : ∀ r x, k ≤ r →
  x ∈ dependentsOf h r ∨ x ∈ dependenciesOf h r → k ≤ x.

Lemma rebase_length : length (rebase k h) = length h - k.
Proof. unfold rebase. by rewrite length_fmap, length_drop. Qed.

Lemma rebase_lookup i : rebase k h !! i = rebaseNode k <$> h !! (k + i).
Proof. unfold rebase. by rewrite list_lookup_fmap, lookup_drop. Qed.

Lemma rebase_idOf i : idOf (rebase k h) i = idOf h (k + i).
Proof. unfold idOf. rewrite rebase_lookup. by destruct (h !! (k + i)). Qed.

Lemma rebase_dependenciesOf i :
  dependenciesOf (rebase k h) i = (fun x => x - k) <$> dependenciesOf h (k + i).
Proof. unfold dependenciesOf. rewrite rebase_lookup. by destruct (h !! (k + i)). Qed.

Lemma rebase_dependentsOf i :
  dependentsOf (rebase k h) i = (fun x => x - k) <$> dependentsOf h (k + i).
Proof. unfold dependentsOf. rewrite rebase_lookup. by destruct (h !! (k + i)). Qed.

Lemma rebase_dependency i y :
  y ∈ dependenciesOf (rebase k h) i ↔ k + y ∈ dependenciesOf h (k + i).
Proof.
  rewrite rebase_dependenciesOf, list_elem_of_fmap. split.
  - intros (x & -> & Hx).
    assert (k ≤ x) by (apply (Hapart (k + i) x); [lia|by right]).
    by replace (k + (x - k)) with x by lia.
  - intros Hy. exists (k + y). split; [lia|done].
Qed.

Lemma rebase_dependent i y :
  y ∈ dependentsOf (rebase k h) i ↔ k + y ∈ dependentsOf h (k + i).
Proof.
  rewrite rebase_dependentsOf, list_elem_of_fmap. split.
  - intros (x & -> & Hx).
    assert (k ≤ x) by (apply (Hapart (k + i) x); [lia|by left]).
    by replace (k + (x - k)) with x by lia.
  - intros Hy. exists (k + y). split; [lia|done].
Qed.

Lemma rebase_closed : closedEdges h → closedEdges (rebase k h).
Proof.
  intros Hc r x Hx. rewrite rebase_length.
  assert (k + x < length h); [|lia].
  destruct Hx as [Hx%rebase_dependent|Hx%rebase_dependency];
    apply (Hc (k + r) (k + x)); [by left|by right].
Qed.

Lemma rebase_symmetric : symmetricEdges h → symmetricEdges (rebase k h).
Proof.
  intros Hsym a b Ha Hb. rewrite rebase_length in Ha, Hb.
  rewrite rebase_dependent, rebase_dependency. apply Hsym; lia.
Qed.

Lemma rebase_tc x y :
  tc (fun a b => b ∈ dependenciesOf (rebase k h) a) x y →
  tc (fun a b => b ∈ dependenciesOf h a) (k + x) (k + y).
Proof.
  induction 1 as [a b Hab|a b c Hab _ IH].
  - apply tc_once. by apply rebase_dependency.
  - eapply tc_l; [|exact IH]. by apply rebase_dependency.
Qed.
End rebase.

(** X16: cloning keeps the shape the graph engine relies on.  The node
    objects cloneWithRelationships makes on a well-formed graph are, taken
    by themselves, a well-formed graph again: their edge lists name each
    other only and are symmetric, their ids differ, no cycle, one root; the
    returned node is one of them and carries the id of the calling node.
    So every operation that asks for a well-formed graph can be run on the
    result, cloning included. *)
Theorem clone_of_well_formed_graph_is_well_formed
    (h : heap) (this : ref) (predicate : option Predicate) (clone : ref) (h' : heap) :
  wellFormed h →
  cloneWithRelationships this predicate h = Ok (clone, h') →
  wellFormed (rebase (length h) h') ∧
  length h ≤ clone ∧
  clone - length h < length (rebase (length h) h') ∧
  idOf (rebase (length h) h') (clone - length h) = idOf h this.
Proof.
  intros Hwf H.
  destruct (cloneWithRelationships_keeps _ _ _ _ _ H) as (Hpre & [Hcl1 Hcl2] & Hapart).
  destruct (cloneWithRelationships_Ok_spec _ _ _ _ _ Hwf H)
    as (root & calls & ids & m & Hthis & Hroot & Hvis & Hndi & Hall & Hids
        & Hpred & Hanc & Hg & Hres & Hinc & Hclone & _).
  set (k := length h) in *.
  assert (∀ c, k ≤ c < length h' →
            ∃ v, v < k ∧ includes ids (idOf h v) ∧ cloneOf m h v = c) as Hsurj.
  { intros c [Hc1 Hc2]. rewrite (cr_length _ _ _ _ _ Hres) in Hc2.
    destruct (lookup_lt_is_Some_2 (includedNodes ids h (calls.*1)) (c - k))
      as [v Hk]; [unfold k in *; lia|].
    assert (v ∈ includedNodes ids h (calls.*1)) as [Hv Hiv]%includedNodes_spec
      by by eapply list_elem_of_lookup_2.
    exists v. split; [by apply Hall|]. split; [done|].
    unfold cloneOf. rewrite (cr_map _ _ _ _ _ Hres _ _ Hk). simpl. unfold k in *. lia. }
  assert (∀ v w, v < k → includes ids (idOf h v) → w < k → includes ids (idOf h w) →
            cloneOf m h v = cloneOf m h w → v = w) as Hinj.
  { intros v w Hv Hiv Hw Hiw Heq.
    destruct (cloneOf_included h ids (calls.*1) m h' Hres Hall v Hv Hiv) as (kv & Hkv & Hcv).
    destruct (cloneOf_included h ids (calls.*1) m h' Hres Hall w Hw Hiw) as (kw & Hkw & Hcw).
    assert (kv = kw) as -> by lia. congruence. }
  assert (∀ v c, v < k → includes ids (idOf h v) →
            (c ∈ dependenciesOf h' (cloneOf m h v) ↔
             ∃ d, d ∈ dependenciesOf h v ∧ d < k ∧ includes ids (idOf h d) ∧
                  c = cloneOf m h d)) as Hedge.
  { intros v c Hv Hiv.
    rewrite (clone_dependencies h ids (calls.*1) m h' Hres Hall v Hv Hiv).
    rewrite elem_of_addEach, list_elem_of_fmap, elem_of_nil. split.
    - intros [[]|(d & -> & Hd)]. exists d. split; [done|].
      split; [by eapply closedEdges_dependencies; [apply Hwf|]|].
      split; [by apply (Hanc v d)|done].
    - intros (d & Hd & _ & _ & ->). right. by exists d. }
  assert (∀ c c', tc (fun a b => b ∈ dependenciesOf h' a) c c' →
            ∀ v, v < k → includes ids (idOf h v) → c = cloneOf m h v →
            ∃ d, d < k ∧ includes ids (idOf h d) ∧ c' = cloneOf m h d ∧
                 tc (fun a b => b ∈ dependenciesOf h a) v d) as Htc.
  { induction 1 as [a b Hab|a b c Hab _ IH]; intros v Hv Hiv ->.
    - apply Hedge in Hab as (d & Hd & Hdk & Hid & ->); [|done..].
      exists d. repeat (split; [done|]). by apply tc_once.
    - apply Hedge in Hab as (d & Hd & Hdk & Hid & ->); [|done..].
      destruct (IH d Hdk Hid eq_refl) as (e & He & Hie & -> & Hde).
      exists e. repeat (split; [done|]). by eapply tc_l. }
  split; [|split; [done|split]].
  - split.
    + apply rebase_closed; [apply Hapart|apply Hres].
    + apply rebase_symmetric; [apply Hapart|apply Hres].
    + unfold uniqueIds, rebase. rewrite <- list_fmap_compose.
      by destruct (cloneGraph_one_clone_per_id h this predicate m h' (wf_closed _ Hwf) Hg).
    + intros x Hx%(rebase_tc k h' Hapart).
      assert (∃ y, y ∈ dependenciesOf h' (k + x)) as [y Hy] by (inversion Hx; eauto).
      assert (k + x < length h') as Hlt.
      { destruct (decide (k + x < length h')); [done|].
        rewrite dependenciesOf_invalid in Hy by lia. by apply elem_of_nil in Hy. }
      destruct (Hsurj (k + x)) as (v & Hv & Hiv & Hcv); [lia|].
      destruct (Htc _ _ Hx v Hv Hiv (eq_sym Hcv)) as (d & Hd & Hid & Heq & Hcyc).
      assert (d = v) as -> by (apply Hinj; [done..|congruence]).
      by apply (wf_acyclic _ Hwf v).
    + intros a b Ha Hb Hda Hdb. rewrite rebase_length in Ha, Hb.
      assert (∀ x, x < length h' - k → dependenciesOf (rebase k h') x = [] →
                ∃ v, v < k ∧ includes ids (idOf h v) ∧ cloneOf m h v = k + x ∧
                     dependenciesOf h v = []) as Hrootof.
      { intros x Hx Hnone.
        destruct (Hsurj (k + x)) as (v & Hv & Hiv & Hcv); [lia|].
        exists v. repeat (split; [done|]).
        destruct (dependenciesOf h v) as [|d l] eqn:Hdeps; [done|]. exfalso.
        assert (cloneOf m h d ∈ dependenciesOf h' (cloneOf m h v)) as Hin.
        { apply Hedge; [done..|]. exists d.
          assert (d ∈ dependenciesOf h v) as Hd by (rewrite Hdeps; left).
          split; [done|]. split; [by eapply closedEdges_dependencies; [apply Hwf|]|].
          split; [by apply (Hanc v d)|done]. }
        rewrite Hcv in Hin.
        assert (k ≤ cloneOf m h d) as Hge by (apply (Hapart (k + x)); [lia|by right]).
        replace (cloneOf m h d) with (k + (cloneOf m h d - k)) in Hin by lia.
        apply (rebase_dependency k h' Hapart) in Hin. rewrite Hnone in Hin.
        by apply elem_of_nil in Hin. }
      destruct (Hrootof a Ha Hda) as (v & Hv & _ & Hcv & Hdv).
      destruct (Hrootof b Hb Hdb) as (w & Hw & _ & Hcw & Hdw).
      assert (v = w) as -> by by apply (wf_root _ Hwf).
      lia.
  - rewrite rebase_length. unfold k in *. lia.
  - rewrite rebase_idOf. replace (k + (clone - k)) with clone by (unfold k in *; lia).
    subst clone.
    destruct (cloneOf_included h ids (calls.*1) m h' Hres Hall this Hthis Hinc)
      as (i & Hi & ->).
    by apply (cr_id _ _ _ _ _ Hres).
Qed.

(** * hasCycle finds the cycles through the node it is asked about *)

Lemma pushNext_mono d nodes : ∀ tv da x,
  x ∈ tv → x ∈ (pushNext d nodes tv da).1.
Proof.
  induction nodes as [|y nodes IH]; intros tv da x Hx; [done|]. simpl.
  case_bool_decide; apply IH; [done|]. apply elem_of_app. by left.
Qed.

Lemma pushNext_covers d nodes : ∀ tv da x,
  x ∈ nodes → x ∈ (pushNext d nodes tv da).1.
Proof.
  induction nodes as [|y nodes IH]; intros tv da x Hx; [by apply elem_of_nil in Hx|].
  simpl. apply elem_of_cons in Hx as [->|Hx].
  - case_bool_decide; apply pushNext_mono; [done|]. apply elem_of_app. right. by left.
  - case_bool_decide; by apply IH.
Qed.

Lemma pushNext_depth d nodes : ∀ tv da,
  1 ≤ d →
  (∀ x, x ∈ tv → ∃ dx, da !! x = Some dx ∧ 1 ≤ dx) →
  ∀ x, x ∈ (pushNext d nodes tv da).1 →
       ∃ dx, (pushNext d nodes tv da).2 !! x = Some dx ∧ 1 ≤ dx.
Proof.
  induction nodes as [|y nodes IH]; intros tv da Hd Hall x Hx; [by apply Hall|].
  simpl in *. case_bool_decide as Hy; [by apply IH|].
  apply IH; [done| |done].
  intros z [Hz| ->%list_elem_of_singleton]%elem_of_app.
  - assert (z ≠ y) by (by intros ->). rewrite lookup_insert_ne by done. by apply Hall.
  - exists d. by rewrite lookup_insert_eq.
Qed.

Lemma head_take_snoc (path : list ref) d y s :
  head path = Some s → 1 ≤ d → head (take d path ++ [y]) = Some s.
Proof.
  intros Hh Hd. destruct path as [|a path]; [done|].
  destruct d as [|d]; [lia|]. done.
Qed.

(** The state after the visit of [y]. *)
Lemma coverInv_visit h dir start visited path tv y da d n :
  coverInv h dir start visited path (tv ++ [y]) da →
  da !! y = Some d → h !! y = Some n →
  coverInv h dir start ({[y]} ∪ visited) (take d path ++ [y])
    (pushNext (length (take d path ++ [y])) (nodesToExplore dir n) tv da).1
    (pushNext (length (take d path ++ [y])) (nodesToExplore dir n) tv da).2.
Proof.
  intros [Hh Hd Hc] Hdy Hn.
  destruct (Hd y) as (d' & Hd' & Hle); [apply elem_of_app; right; by left|].
  assert (d' = d) as -> by congruence.
  split.
  - by apply head_take_snoc.
  - apply pushNext_depth.
    + rewrite length_app. simpl. lia.
    + intros x Hx. apply Hd. apply elem_of_app. by left.
  - intros x z [->%elem_of_singleton|Hx]%elem_of_union Hxz.
    + right. apply pushNext_covers. unfold edgeOf in Hxz.
      by rewrite (nextOf_lookup _ _ _ _ Hn) in Hxz.
    + destruct (Hc x z Hx Hxz) as [Hz|[Hz| ->%list_elem_of_singleton]%elem_of_app].
      * left. apply elem_of_union. by right.
      * right. by apply pushNext_mono.
      * left. apply elem_of_union. left. by apply elem_of_singleton.
Qed.

Lemma coverInv_pop h dir start visited path tv y da :
  coverInv h dir start visited path (tv ++ [y]) da → y ∈ visited →
  coverInv h dir start visited path tv da.
Proof.
  intros [Hh Hd Hc] Hy. split; [done| |].
  - intros x Hx. apply Hd. apply elem_of_app. by left.
  - intros x z Hx Hxz.
    destruct (Hc x z Hx Hxz) as [Hz|[Hz| ->%list_elem_of_singleton]%elem_of_app];
      [by left|by right|by left].
Qed.

(** With the start on the stack again the answer is not false. *)
Lemma hasCycle_loop_start_pending h dir start fuel : ∀ visited path tv da h',
  coverInv h dir start visited path tv da → start ∈ tv →
  hasCycle_loop fuel dir visited path tv da h ≠ Ok (false, h').
Proof.
  induction fuel as [|fuel IH]; intros visited path tv da h' Hinv Hs; [done|].
  cbn [hasCycle_loop].
  destruct (pop tv) as [[y tv']|] eqn:Hpop.
  2:{ apply pop_None in Hpop as ->. by apply elem_of_nil in Hs. }
  apply pop_Some in Hpop as ->.
  case_bool_decide as Hpath; [done|].
  assert (start ∈ path) as Hsp.
  { destruct Hinv as [Hh _ _]. destruct path; [done|]. injection Hh as ->. by left. }
  assert (y ≠ start) as Hne by (by intros ->).
  assert (start ∈ tv') as Hs'.
  { by apply elem_of_app in Hs as [?| ->%list_elem_of_singleton]. }
  case_bool_decide as Hv.
  { apply IH; [|done]. by eapply coverInv_pop. }
  destruct (h !! y) as [n|] eqn:Hn.
  2:{ unfold getNode. by rewrite Hn. }
  rewrite (getNode_lookup _ _ _ Hn). cbn [mbind outcome_bind].
  destruct (ci_depth _ _ _ _ _ _ _ Hinv y) as (d & Hd & _);
    [apply elem_of_app; right; by left|].
  rewrite Hd. cbn [trimPath].
  pose proof (coverInv_visit _ _ _ _ _ _ _ _ _ _ Hinv Hd Hn) as Hinv'.
  destruct (pushNext _ (nodesToExplore dir n) tv' da) as [tv'' da'] eqn:Hpush.
  apply IH; [done|].
  pose proof (pushNext_mono (length (take d path ++ [y])) (nodesToExplore dir n)
                tv' da start Hs') as Hin.
  by rewrite Hpush in Hin.
Qed.

(** An answer false: no node reached from the start leads back to it. *)
Lemma hasCycle_loop_false h dir start fuel : ∀ visited path tv da h',
  coverInv h dir start visited path tv da → start ∈ visited →
  (∀ x, x ∈ visited → ¬ edgeOf h dir x start) →
  hasCycle_loop fuel dir visited path tv da h = Ok (false, h') →
  ∀ z, rtc (edgeOf h dir) start z → ¬ edgeOf h dir z start.
Proof.
  induction fuel as [|fuel IH]; intros visited path tv da h' Hinv Hs Hk H; [done|].
  cbn [hasCycle_loop] in H.
  destruct (pop tv) as [[y tv']|] eqn:Hpop.
  2:{ apply pop_None in Hpop as ->.
      assert (∀ a z, rtc (edgeOf h dir) a z → a ∈ visited → z ∈ visited) as Hclosed.
      { intros a z Hz. induction Hz as [|a b c Hab _ IHz]; [done|].
        intros Ha. apply IHz.
        by destruct (ci_cover _ _ _ _ _ _ _ Hinv a b Ha Hab) as [?|[]%elem_of_nil]. }
      intros z Hz. by apply Hk, (Hclosed start). }
  apply pop_Some in Hpop as ->.
  case_bool_decide as Hpath; [done|].
  case_bool_decide as Hv.
  { eapply IH; [by eapply coverInv_pop|done|done|done]. }
  destruct (h !! y) as [n|] eqn:Hn.
  2:{ unfold getNode in H. by rewrite Hn in H. }
  rewrite (getNode_lookup _ _ _ Hn) in H. cbn [mbind outcome_bind] in H.
  destruct (ci_depth _ _ _ _ _ _ _ Hinv y) as (d & Hd & _);
    [apply elem_of_app; right; by left|].
  rewrite Hd in H. cbn [trimPath] in H.
  pose proof (coverInv_visit _ _ _ _ _ _ _ _ _ _ Hinv Hd Hn) as Hinv'.
  destruct (pushNext _ (nodesToExplore dir n) tv' da) as [tv'' da'] eqn:Hpush.
  simpl in Hinv'.
  eapply IH; [exact Hinv'|apply elem_of_union; by right| |exact H].
  intros x [->%elem_of_singleton|Hx]%elem_of_union; [|by apply Hk].
  intros Hedge.
  apply (hasCycle_loop_start_pending h dir start fuel _ _ _ _ h' Hinv'); [|done].
  pose proof (pushNext_covers (length (take d path ++ [y])) (nodesToExplore dir n)
                tv' da start) as Hin.
  rewrite Hpush in Hin. apply Hin. unfold edgeOf in Hedge.
  by rewrite (nextOf_lookup _ _ _ _ Hn) in Hedge.
Qed.

Lemma tc_last {A} (R : relation A) x y : tc R x y → ∃ z, rtc R x z ∧ R z y.
Proof.
  induction 1 as [x y Hxy|x y' y Hxy _ (z & Hz & Hzy)].
  - exists x. split; [apply rtc_refl|done].
  - exists z. split; [by eapply rtc_l|done].
Qed.

Lemma hasCycle_dir_complete h dir node :
  closedEdges h → node < length h →
  tc (edgeOf h dir) node node →
  hasCycle_dir node dir h = Ok (true, h).
Proof.
  intros Hc Hnode Hcyc.
  destruct (hasCycle_dir_returns h dir node Hc Hnode) as [[|] Hb]; [done|]. exfalso.
  destruct (tc_last _ _ _ Hcyc) as (z & Hz & Hback).
  revert Hb. unfold hasCycle_dir, hasCycle_fuel.
  change (2 + length h + ?f) with (S (S (length h + f))).
  generalize (S (length h + foldr (fun n acc =>
                length (_dependents n) + length (_dependencies n) + acc) 0 h)).
  intros fuel. cbn [hasCycle_loop pop last removelast].
  rewrite bool_decide_false by apply not_elem_of_nil.
  rewrite bool_decide_false by apply not_elem_of_empty.
  destruct (lookup_lt_is_Some_2 h node Hnode) as [n Hn].
  rewrite (getNode_lookup _ _ _ Hn). cbn [mbind outcome_bind].
  rewrite lookup_singleton_eq. cbn [trimPath take app length].
  destruct (pushNext 1 (nodesToExplore dir n) [] {[node := 0]}) as [tv da] eqn:Hpush.
  intros Hb.
  assert (coverInv h dir node ({[node]} ∪ ∅) [node] tv da) as Hinv.
  { split; [done| |].
    - intros x Hx.
      pose proof (pushNext_depth 1 (nodesToExplore dir n) [] {[node := 0]}) as Hd.
      rewrite Hpush in Hd. apply Hd; [lia| |done]. by intros y ?%elem_of_nil.
    - intros x y Hx Hxy. right.
      assert (x = node) as ->.
      { by apply elem_of_union in Hx as [?%elem_of_singleton|?%elem_of_empty]. }
      pose proof (pushNext_covers 1 (nodesToExplore dir n) [] {[node := 0]} y) as Hin.
      rewrite Hpush in Hin. apply Hin. unfold edgeOf in Hxy.
      by rewrite (nextOf_lookup _ _ _ _ Hn) in Hxy. }
  assert (node ∈ ({[node]} ∪ ∅ : gset ref)) as Hvis
    by (apply elem_of_union; left; by apply elem_of_singleton).
  assert (∀ x, x ∈ ({[node]} ∪ ∅ : gset ref) → x = node) as Honly.
  { intros x [?%elem_of_singleton|?%elem_of_empty]%elem_of_union; done. }
  apply (hasCycle_loop_false h dir node fuel _ _ _ _ h Hinv) with (z := z) in Hb;
    [done|done| |done].
  intros x ->%Honly Hedge.
  apply (hasCycle_loop_start_pending h dir node fuel _ _ _ _ h Hinv); [|done].
  pose proof (pushNext_covers 1 (nodesToExplore dir n) [] {[node := 0]} node) as Hin.
  rewrite Hpush in Hin. apply Hin. unfold edgeOf in Hedge.
  by rewrite (nextOf_lookup _ _ _ _ Hn) in Hedge.
Qed.

(** X17: hasCycle finds every cycle through the node it is asked about.
    When the node reaches itself over one or more edges of a direction and
    the edge lists name node objects, hasCycle answers true for that
    direction and for both. *)
Theorem hasCycle_finds_cycles_through_the_node
    (h : heap) (node : ref) (d : direction) (dir : option direction) :
  closedEdges h → node < length h →
  (d = dependents ∨ d = dependencies) →
  tc (edgeOf h d) node node →
  (default both dir = d ∨ default both dir = both) →
  hasCycle node dir h = Ok (true, h).
Proof.
  intros Hc Hnode Hd Hcyc Hdir. unfold hasCycle.
  destruct Hdir as [-> | ->].
  - destruct Hd as [-> | ->]; by apply hasCycle_dir_complete.
  - destruct Hd as [-> | ->].
    + by rewrite (hasCycle_dir_complete h dependents node).
    + destruct (hasCycle_dir_returns h dependents node Hc Hnode) as [[|] ->];
        cbn [mbind outcome_bind]; [done|].
      by apply hasCycle_dir_complete.
Qed.

Lemma dependencies_cycle_dependents_cycle h x :
  closedEdges h → symmetricEdges h →
  tc (fun a b => b ∈ dependenciesOf h a) x x → tc (edgeOf h dependents) x x.
Proof.
  intros Hc Hsym Htc. apply tc_reverse in Htc.
  apply (tc_congruence id (edgeOf h dependents)) in Htc; [done|].
  intros a b Hab. unfold flip in Hab. unfold edgeOf. simpl.
  assert (a ∈ dependenciesOf h b) as Hin by done.
  assert (b < length h) as Hb.
  { destruct (decide (b < length h)); [done|].
    rewrite dependenciesOf_invalid in Hin by lia. by apply elem_of_nil in Hin. }
  change (b ∈ dependentsOf h a). apply Hsym; [done| |done]. apply (Hc b a). by right.
Qed.

(** X7: addDependency has no guard against cycles, and hasCycle tells.
    When node already depends on this, over any number of edges (or is
    this), this.addDependency(node) goes through all the same; the graph
    then has a cycle, and hasCycle, asked about this, answers true in every
    direction. *)
Theorem addDependency_on_a_dependent_closes_a_cycle
    (h h1 : heap) (this node : ref) (dir : option direction) :
  closedEdges h → symmetricEdges h →
  rtc (fun a b => b ∈ dependenciesOf h a) node this →
  addDependency this node h = Ok h1 →
  node ∈ dependenciesOf h1 this ∧
  ¬ acyclic h1 ∧
  hasCycle this dir h1 = Ok (true, h1).
Proof.
  intros Hc Hsym Hpath Hadd.
  pose proof (addDependency_closed _ _ _ _ Hc Hadd) as Hc1.
  pose proof (addDependency_symmetric _ _ _ _ Hsym Hadd) as Hsym1.
  apply addDependency_spec in Hadd as (Hthis & Hcases).
  assert (length h1 = length h ∧ node ∈ dependenciesOf h1 this ∧
          ∀ a b, b ∈ dependenciesOf h a → b ∈ dependenciesOf h1 a) as (Hlen & Hin & Hmono).
  { destruct Hcases as [[Hin ->]|(_ & _ & Hlen & Hdeps & _)]; [done|].
    split; [done|]. split.
    - rewrite Hdeps, decide_True by done. apply elem_of_app. right. by left.
    - intros a b Hab. rewrite Hdeps. case_decide; [|done]. subst a.
      apply elem_of_app. by left. }
  assert (tc (fun a b => b ∈ dependenciesOf h1 a) this this) as Hcyc.
  { eapply tc_rtc_r; [by apply tc_once|].
    eapply rtc_subrel; [|exact Hpath]. intros a b. apply Hmono. }
  split; [done|]. split; [intros Hacyc; by apply (Hacyc this)|].
  assert (this < length h1) as Hthis1 by lia.
  pose proof (dependencies_cycle_dependents_cycle h1 this Hc1 Hsym1 Hcyc) as Hcyc'.
  unfold hasCycle. destruct (default both dir).
  - by apply hasCycle_dir_complete.
  - by apply hasCycle_dir_complete.
  - by rewrite (hasCycle_dir_complete h1 dependents this).
Qed.

Lemma addDependency_new_paths h h1 this node :
  addDependency this node h = Ok h1 →
  ∀ x y, tc (fun a b => b ∈ dependenciesOf h1 a) x y →
    tc (fun a b => b ∈ dependenciesOf h a) x y ∨
    (rtc (fun a b => b ∈ dependenciesOf h a) x this ∧
     rtc (fun a b => b ∈ dependenciesOf h a) node y).
Proof.
  intros Hadd.
  apply addDependency_spec in Hadd as (Hthis & [[Hin ->]|(_ & _ & _ & Hdeps & _)]);
    [by left|].
  assert (∀ a b, b ∈ dependenciesOf h1 a →
            b ∈ dependenciesOf h a ∨ (a = this ∧ b = node)) as Hedge.
  { intros a b. rewrite Hdeps. case_decide; [subst a|by left].
    intros [?| ->%list_elem_of_singleton]%elem_of_app; [by left|by right]. }
  induction 1 as [x y Hxy|x y' y Hxy _ IH].
  - destruct (Hedge _ _ Hxy) as [?|[-> ->]]; [left; by apply tc_once|right].
    split; apply rtc_refl.
  - destruct (Hedge _ _ Hxy) as [Hold|[-> ->]].
    + destruct IH as [Htc|[Hl Hr]]; [left; by eapply tc_l|right].
      split; [by eapply rtc_l|done].
    + right. split; [apply rtc_refl|].
      destruct IH as [Htc|[_ Hr]]; [by apply tc_rtc|done].
Qed.

(** X18: addDependency keeps a graph free of cycles exactly when it should.
    On a graph without cycles, with symmetric edge lists that name node
    objects, this.addDependency(node) leaves the graph without cycles when
    node does not depend on this, over any number of edges, and is not
    this; hasCycle then answers false from every node, in every
    direction. *)
Theorem addDependency_keeps_the_graph_acyclic
    (h h1 : heap) (this node : ref) :
  closedEdges h → symmetricEdges h → acyclic h →
  ¬ rtc (fun a b => b ∈ dependenciesOf h a) node this →
  addDependency this node h = Ok h1 →
  closedEdges h1 ∧ symmetricEdges h1 ∧ acyclic h1 ∧
  ∀ x dir, x < length h1 → hasCycle x dir h1 = Ok (false, h1).
Proof.
  intros Hc Hsym Hacyc Hnot Hadd.
  pose proof (addDependency_closed _ _ _ _ Hc Hadd) as Hc1.
  pose proof (addDependency_symmetric _ _ _ _ Hsym Hadd) as Hsym1.
  assert (acyclic h1) as Hacyc1.
  { intros x Hx.
    destruct (addDependency_new_paths _ _ _ _ Hadd x x Hx) as [Htc|[Hl Hr]].
    - by apply (Hacyc x).
    - apply Hnot. by etrans. }
  repeat (split; [done|]). intros x dir Hx. by apply hasCycle_acyclic.
Qed.

(** * The further properties at concrete graphs *)

Lemma edgesOkb_sound h : edgesOkb h = true → closedEdges h ∧ symmetricEdges h.
Proof.
  unfold edgesOkb. intros Hall. rewrite forallb_forall in Hall.
  assert (∀ r, r < length h →
     (∀ x, x ∈ dependentsOf h r ++ dependenciesOf h r → x < length h) ∧
     (∀ b, b < length h → (r ∈ dependentsOf h b ↔ b ∈ dependenciesOf h r))) as Hr.
  { intros r Hlt. specialize (Hall r). rewrite <- list_elem_of_In, elem_of_seq in Hall.
    assert (0 ≤ r < 0 + length h) as Hrange by lia.
    apply Hall in Hrange. apply andb_true_iff in Hrange as [H1 H2].
    rewrite forallb_forall in H1. rewrite forallb_forall in H2.
    split.
    - intros x Hx%list_elem_of_In%H1. by apply bool_decide_eq_true in Hx.
    - intros b Hb. specialize (H2 b). rewrite <- list_elem_of_In, elem_of_seq in H2.
      assert (0 ≤ b < 0 + length h) as Hrange by lia.
      apply H2 in Hrange. by apply bool_decide_eq_true in Hrange. }
  split.
  - intros r x Hx. destruct (decide (r < length h)) as [Hlt|Hge].
    + apply (Hr r Hlt). apply elem_of_app. tauto.
    + rewrite dependentsOf_invalid, dependenciesOf_invalid in Hx by lia.
      destruct Hx as [[]%elem_of_nil|[]%elem_of_nil].
  - intros a b Ha Hb. by apply (Hr a Ha).
Qed.

Ltac by_computing :=
  match goal with
  | |- ?x ∉ ?l => apply (bool_decide_eq_false_1 (x ∈ l)); vm_compute; reflexivity
  end.

Lemma injectedScriptPage_wellFormed : wellFormed injectedScriptPage.
Proof. apply wellFormedb_sound. vm_compute. reflexivity. Qed.

(** X1 on the chain: X takes A as a dependency and gives it up again. *)
Lemma removeDependency_undoes_addDependency_witness :
  (0 ∉ dependenciesOf chainABCX 3) ∧ (3 ∉ dependentsOf chainABCX 0) ∧
  ∃ h1, addDependency 3 0 chainABCX = Ok h1 ∧
        0 ∈ dependenciesOf h1 3 ∧ 3 ∈ dependentsOf h1 0 ∧
        removeDependency 3 0 h1 = Ok chainABCX.
Proof.
  assert (0 ∉ dependenciesOf chainABCX 3) as H1
    by by_computing.
  assert (3 ∉ dependentsOf chainABCX 0) as H2
    by by_computing.
  split; [exact H1|]. split; [exact H2|].
  eexists. split; [vm_compute; reflexivity|].
  apply (removeDependency_undoes_addDependency chainABCX _ 3 0 H1 H2).
  vm_compute. reflexivity.
Defined.

(** X2: A gives up B, and C is no dependent of B any more. *)
Lemma removeDependency_drops_last_dependent_witness :
  1 ∈ dependenciesOf strayEdgeHeap 0 ∧ (0 ∉ dependentsOf strayEdgeHeap 1) ∧
  dependentsOf strayEdgeHeap 1 = [] ++ [2] ∧
  ∃ h', removeDependency 0 1 strayEdgeHeap = Ok h' ∧
        dependentsOf h' 1 = [] ∧
        dependenciesOf h' 2 = dependenciesOf strayEdgeHeap 2.
Proof.
  assert (1 ∈ dependenciesOf strayEdgeHeap 0) as H1 by left.
  assert (0 ∉ dependentsOf strayEdgeHeap 1) as H2
    by by_computing.
  split; [exact H1|]. split; [exact H2|]. split; [reflexivity|].
  apply (removeDependency_drops_last_dependent strayEdgeHeap 0 1 2 [] H1 H2).
  reflexivity.
Defined.

(** X3 on the chain: C is cut off from B. *)
Lemma removeAllDependencies_cuts_this_only_witness :
  symmetricEdges chainABCX ∧ noDuplicateEdges chainABCX ∧ closedEdges chainABCX ∧
  2 < length chainABCX ∧
  ∃ h', removeAllDependencies 2 chainABCX = Ok h' ∧
        payload <$> h' = payload <$> chainABCX ∧
        dependenciesOf h' 2 = [] ∧
        (∀ r, r ≠ 2 → dependenciesOf h' r = dependenciesOf chainABCX r) ∧
        (∀ r, dependentsOf h' r = filter (fun y => y ≠ 2) (dependentsOf chainABCX r)).
Proof.
  split; [apply chainABCX_wellFormed|]. split; [apply chainABCX_noDuplicateEdges|].
  split; [apply chainABCX_wellFormed|]. split; [simpl; lia|].
  apply (removeAllDependencies_cuts_this_only chainABCX 2);
    [apply chainABCX_wellFormed|apply chainABCX_noDuplicateEdges
    |apply chainABCX_wellFormed|simpl; lia].
Defined.

(** X4 on the diamond, from D. *)
Lemma getRootNode_finds_the_root_witness :
  closedEdges diamondHeap ∧ acyclic diamondHeap ∧ 3 < length diamondHeap ∧
  ∃ r, getRootNode 3 diamondHeap = Ok r ∧ r < length diamondHeap ∧
       dependenciesOf diamondHeap r = [] ∧
       rtc (fun a b => b ∈ dependenciesOf diamondHeap a) 3 r ∧
       (wellFormed diamondHeap →
        ∀ v, v < length diamondHeap →
             getRootNode v diamondHeap = Ok r ∧ reachable diamondHeap getDependents r v).
Proof.
  split; [apply diamondHeap_wellFormed|]. split; [apply diamondHeap_wellFormed|].
  split; [simpl; lia|].
  apply (getRootNode_finds_the_root diamondHeap 3);
    [apply diamondHeap_wellFormed|apply diamondHeap_wellFormed|simpl; lia].
Defined.

(** X5 on the two nodes that depend on each other. *)
Lemma getRootNode_loops_on_a_cycle_witness :
  (∀ y, y < 2 → ∃ n d ds, mutualHeap !! y = Some n ∧ _dependencies n = d :: ds ∧ d < 2) ∧
  (∀ fuel, getRootNode_loop fuel 0 mutualHeap = Diverge) ∧
  getRootNode 0 mutualHeap = Diverge.
Proof.
  assert (∀ y, y < 2 →
            ∃ n d ds, mutualHeap !! y = Some n ∧ _dependencies n = d :: ds ∧ d < 2) as H.
  { intros [|[|y]] Hy; [| |lia]; eexists _, _, _;
      (split; [reflexivity|split; [reflexivity|lia]]). }
  split; [exact H|].
  apply (getRootNode_loops_on_a_cycle mutualHeap (fun y => y < 2) 0 H). lia.
Defined.

(** X7 on the chain: A takes X, which depends on it, as a dependency. *)
Lemma addDependency_on_a_dependent_closes_a_cycle_witness :
  closedEdges chainABCX ∧ symmetricEdges chainABCX ∧
  rtc (fun a b => b ∈ dependenciesOf chainABCX a) 3 0 ∧
  ∃ h1, addDependency 0 3 chainABCX = Ok h1 ∧
        3 ∈ dependenciesOf h1 0 ∧ ¬ acyclic h1 ∧
        hasCycle 0 None h1 = Ok (true, h1).
Proof.
  assert (rtc (fun a b => b ∈ dependenciesOf chainABCX a) 3 0) as Hpath.
  { apply (rtc_l _ _ 2); [left|]. apply (rtc_l _ _ 1); [left|]. apply rtc_once. left. }
  split; [apply chainABCX_wellFormed|]. split; [apply chainABCX_wellFormed|].
  split; [exact Hpath|].
  eexists. split; [vm_compute; reflexivity|].
  apply (addDependency_on_a_dependent_closes_a_cycle chainABCX _ 0 3 None);
    [apply chainABCX_wellFormed|apply chainABCX_wellFormed|exact Hpath|].
  vm_compute. reflexivity.
Defined.

(** X8 on the chain, asked from C: with X selected the call returns, with
    only B selected, which C depends on, it throws. *)
Lemma clone_throws_iff_nothing_selected_above_witness :
  wellFormed chainABCX ∧ 2 < length chainABCX ∧
  (∃ clone h', cloneWithRelationships 2 (Some onlyX) chainABCX = Ok (clone, h') ∧
               length chainABCX ≤ clone ∧ idOf h' clone = idOf chainABCX 2) ∧
  cloneWithRelationships 2 (Some onlyB) chainABCX = Throw ClonedGraphMissingNode.
Proof.
  split; [apply chainABCX_wellFormed|]. split; [simpl; lia|]. split.
  - apply (clone_throws_iff_nothing_selected_above chainABCX 2 onlyX);
      [apply chainABCX_wellFormed|simpl; lia| |].
    + intros n _. eexists. reflexivity.
    + exists 3, (mkNode "X" false [] [2] Base).
      split; [reflexivity|]. split; [reflexivity|]. apply rtc_once. left.
  - apply (clone_throws_iff_nothing_selected_above chainABCX 2 onlyB);
      [apply chainABCX_wellFormed|simpl; lia| |].
    + intros n _. eexists. reflexivity.
    + intros v nv Hnv Hreach.
      assert (2 ≤ v) as Hv.
      { clear Hnv. remember 2 as c eqn:Hc in Hreach |- *.
        assert (2 ≤ c) as Hc' by lia. clear Hc.
        induction Hreach as [|a b c Hab _ IH]; [done|].
        assert (b < a); [|lia].
        destruct a as [|[|[|[|a]]]]; unfold dependenciesOf in Hab; simpl in Hab;
          repeat (apply elem_of_cons in Hab as [->|Hab]; [lia|]);
          by apply elem_of_nil in Hab. }
      destruct v as [|[|[|[|v]]]]; try lia; simpl in Hnv; try discriminate Hnv;
        injection Hnv as <-; reflexivity.
Defined.

(** X9 on the chain with only B selected, asked from B: A and B are kept. *)
Lemma clone_holds_exactly_what_selected_nodes_need_witness :
  wellFormed chainABCX ∧
  ∃ clone h' cs,
    cloneWithRelationships 1 (Some onlyB) chainABCX = Ok (clone, h') ∧
    graphNodes clone h' = Ok cs ∧
    NoDup (idOf h' <$> cs) ∧
    (∀ s, s ∈ idOf h' <$> cs → ∃ a, a < length chainABCX ∧ idOf chainABCX a = s) ∧
    ∀ a, a < length chainABCX →
      (idOf chainABCX a ∈ idOf h' <$> cs ↔
       ∃ v nv, chainABCX !! v = Some nv ∧ onlyB nv = Ok true ∧
               rtc (fun x y => y ∈ dependenciesOf chainABCX x) v a).
Proof.
  split; [apply chainABCX_wellFormed|].
  eassert (cloneWithRelationships 1 (Some onlyB) chainABCX = Ok (_, _)) as Hclone
    by (vm_compute; reflexivity).
  destruct (clone_holds_exactly_what_selected_nodes_need chainABCX 1 onlyB _ _
              chainABCX_wellFormed Hclone) as (cs & Hcs & Hrest).
  eexists _, _, cs. split; [exact Hclone|]. split; [exact Hcs|exact Hrest].
Defined.

(** X10 on the diamond, cloned from D. *)
Lemma clone_is_a_copy_of_what_it_keeps_witness :
  wellFormed diamondHeap ∧
  ∃ clone h',
    cloneWithRelationships 3 None diamondHeap = Ok (clone, h') ∧
    ∃ (kept : ref → Prop) (f : ref → ref),
      kept 3 ∧ f 3 = clone ∧
      (∀ v, v < length diamondHeap → kept v) ∧
      (∀ v w, kept v → kept w → f v = f w → v = w) ∧
      symmetricEdges h' ∧ closedEdges h'.
Proof.
  split; [apply diamondHeap_wellFormed|].
  eassert (cloneWithRelationships 3 None diamondHeap = Ok (_, _)) as Hclone
    by (vm_compute; reflexivity).
  destruct (clone_is_a_copy_of_what_it_keeps diamondHeap 3 None _ _
              diamondHeap_wellFormed Hclone)
    as (kept & f & H1 & H2 & H3 & _ & H5 & _ & H7 & H8).
  eexists _, _. split; [exact Hclone|].
  exists kept, f. split; [exact H1|]. split; [exact H2|]. split; [by apply H3|].
  split; [exact H5|]. split; [exact H7|exact H8].
Defined.

(** X11 at the scenario of the classifier. *)
Lemma blocking_data_is_about_tasks_before_the_paint_witness :
  ∃ data,
    getBlockingCpuData 0 150 pessimisticFilter None classifierScenario
      = Ok (data, classifierScenario) ∧
    "https://example.com/app.js" ∈ actuallyRenderBlockingScriptUrls data ∧
    (∀ u, u ∈ actuallyRenderBlockingScriptUrls data →
          u ∈ possiblyRenderBlockingScriptUrls data ∧
          ∃ c, isCpuEntry classifierScenario 150 c ∧ isEvaluateScriptFor [u] c = true) ∧
    (∀ s, JsString s ∈ blockingCpuNodeIds data →
          ∃ r n t, classifierScenario !! r = Some n ∧ kind n = CPU t ∧ _id n = s ∧
                   (cpuStartTime t ≤ 150)%Z).
Proof.
  eassert (getBlockingCpuData 0 150 pessimisticFilter None classifierScenario
           = Ok (_, classifierScenario)) as Hdata by (vm_compute; reflexivity).
  eexists. split; [exact Hdata|]. split; [left|].
  apply (blocking_data_is_about_tasks_before_the_paint _ _ _ _ _ _ _ Hdata).
Defined.

(** X12 on the page with the injected script: the parse task is recorded. *)
Lemma blocking_ids_hold_filtered_and_earliest_tasks_witness :
  closedEdges injectedScriptPage ∧ uniqueIds injectedScriptPage ∧
  reachable injectedScriptPage getDependents 0 1 ∧
  ∃ data,
    getBlockingCpuData 0 150 pessimisticFilter (Some (fun _ => true)) injectedScriptPage
      = Ok (data, injectedScriptPage) ∧
    JsString "cpu-parse" ∈ blockingCpuNodeIds data ∧
    ∃ r0 n0 t0, injectedScriptPage !! r0 = Some n0 ∧ kind n0 = CPU t0 ∧
                setHas "ParseHTML" (childEvents t0) = true ∧
                (cpuStartTime t0 ≤ cpuStartTime parseTask)%Z ∧
                JsString (_id n0) ∈ blockingCpuNodeIds data.
Proof.
  assert (reachable injectedScriptPage getDependents 0 1) as Hreach
    by (apply rtc_once; left).
  split; [apply injectedScriptPage_wellFormed|].
  split; [apply injectedScriptPage_wellFormed|]. split; [exact Hreach|].
  eassert (getBlockingCpuData 0 150 pessimisticFilter (Some (fun _ => true))
             injectedScriptPage = Ok (_, injectedScriptPage)) as Hdata
    by (vm_compute; reflexivity).
  assert (0 < length injectedScriptPage) as Hlt by (simpl; lia).
  assert (cpuStartTime parseTask ≤ 150)%Z as Hle by (vm_compute; discriminate).
  destruct (blocking_ids_hold_filtered_and_earliest_tasks injectedScriptPage 0 150
              pessimisticFilter (Some (fun _ => true)) _ _ 1
              (mkNode "cpu-parse" false [] [0] (CPU parseTask)) parseTask
              (wf_closed _ injectedScriptPage_wellFormed)
              (wf_ids _ injectedScriptPage_wellFormed) Hlt Hdata Hreach
              eq_refl eq_refl Hle)
    as [Hfilter Hfirst].
  eexists. split; [exact Hdata|]. split.
  - apply (Hfilter (fun _ => true)); reflexivity.
  - apply (Hfirst (fun t => setHas "ParseHTML" (childEvents t))); [|reflexivity].
    right. right. reflexivity.
Defined.

(** X13 on the chain of plain nodes. *)
Lemma base_node_in_graph_is_unimplemented_witness :
  closedEdges chainABCX ∧ uniqueIds chainABCX ∧
  reachable chainABCX getDependents 0 1 ∧
  getBlockingCpuData 0 150 pessimisticFilter None chainABCX = Throw Unimplemented ∧
  getOptimisticGraph 0 paintAt150 chainABCX = Throw Unimplemented ∧
  getPessimisticGraph 0 paintAt150 chainABCX = Throw Unimplemented.
Proof.
  assert (reachable chainABCX getDependents 0 1) as Hreach by (apply rtc_once; left).
  split; [apply chainABCX_wellFormed|]. split; [apply chainABCX_wellFormed|].
  split; [exact Hreach|].
  destruct (base_node_in_graph_is_unimplemented chainABCX 0 1
              (mkNode "B" false [2] [0] Base) 150 pessimisticFilter None paintAt150)
    as (_ & _ & _ & H1 & _ & H2 & H3);
    [apply chainABCX_wellFormed|apply chainABCX_wellFormed|simpl; lia|exact Hreach
    |reflexivity|reflexivity|].
  split; [exact H1|]. split; [exact H2|exact H3].
Defined.

(** X14 on the page with the injected script, pessimistic filter. *)
Lemma first_paint_graph_keeps_accepted_nodes_and_their_dependencies_witness :
  wellFormed injectedScriptPage ∧
  ∃ clone h' data cs,
    getFirstPaintBasedGraph 0 150 pessimisticFilter None injectedScriptPage
      = Ok (clone, h') ∧
    getBlockingCpuData 0 150 pessimisticFilter None injectedScriptPage
      = Ok (data, injectedScriptPage) ∧
    graphNodes clone h' = Ok cs ∧
    (idOf injectedScriptPage 1 ∈ idOf h' <$> cs ↔
     JsString "cpu-parse" ∈ blockingCpuNodeIds data).
Proof.
  split; [apply injectedScriptPage_wellFormed|].
  eassert (getFirstPaintBasedGraph 0 150 pessimisticFilter None injectedScriptPage
           = Ok (_, _)) as Hgraph by (vm_compute; reflexivity).
  destruct (first_paint_graph_keeps_accepted_nodes_and_their_dependencies
              injectedScriptPage 0 150 pessimisticFilter None _ _
              injectedScriptPage_wellFormed Hgraph)
    as (data & cs & Hdata & Hcs & _ & _ & Hcpu).
  eexists _, _, data, cs. split; [exact Hgraph|]. split; [exact Hdata|].
  split; [exact Hcs|].
  apply (Hcpu 1 (mkNode "cpu-parse" false [] [0] (CPU parseTask)) parseTask);
    reflexivity.
Defined.

(** X16 on the diamond, cloned from D. *)
Lemma clone_of_well_formed_graph_is_well_formed_witness :
  wellFormed diamondHeap ∧
  ∃ clone h',
    cloneWithRelationships 3 None diamondHeap = Ok (clone, h') ∧
    wellFormed (rebase (length diamondHeap) h') ∧
    length diamondHeap ≤ clone ∧
    clone - length diamondHeap < length (rebase (length diamondHeap) h') ∧
    idOf (rebase (length diamondHeap) h') (clone - length diamondHeap)
      = idOf diamondHeap 3.
Proof.
  split; [apply diamondHeap_wellFormed|].
  eassert (cloneWithRelationships 3 None diamondHeap = Ok (_, _)) as Hclone
    by (vm_compute; reflexivity).
  eexists _, _. split; [exact Hclone|].
  apply (clone_of_well_formed_graph_is_well_formed diamondHeap 3 None _ _
           diamondHeap_wellFormed Hclone).
Defined.

(** X17 on the two nodes that depend on each other. *)
Lemma hasCycle_finds_cycles_through_the_node_witness :
  closedEdges mutualHeap ∧ 0 < length mutualHeap ∧
  tc (edgeOf mutualHeap dependencies) 0 0 ∧
  hasCycle 0 None mutualHeap = Ok (true, mutualHeap) ∧
  hasCycle 0 (Some dependencies) mutualHeap = Ok (true, mutualHeap).
Proof.
  assert (closedEdges mutualHeap) as Hc
    by (apply edgesOkb_sound; vm_compute; reflexivity).
  assert (tc (edgeOf mutualHeap dependencies) 0 0) as Hcyc.
  { apply (tc_l _ _ 1); [left|]. apply tc_once. left. }
  split; [exact Hc|]. split; [simpl; lia|]. split; [exact Hcyc|]. split.
  - apply (hasCycle_finds_cycles_through_the_node mutualHeap 0 dependencies None Hc);
      [simpl; lia|by right|exact Hcyc|by right].
  - apply (hasCycle_finds_cycles_through_the_node mutualHeap 0 dependencies
             (Some dependencies) Hc); [simpl; lia|by right|exact Hcyc|by left].
Defined.

(** X18 on the chain: X takes A, which does not depend on it. *)
Lemma addDependency_keeps_the_graph_acyclic_witness :
  closedEdges chainABCX ∧ symmetricEdges chainABCX ∧ acyclic chainABCX ∧
  ¬ rtc (fun a b => b ∈ dependenciesOf chainABCX a) 0 3 ∧
  ∃ h1, addDependency 3 0 chainABCX = Ok h1 ∧
        0 ∈ dependenciesOf h1 3 ∧ acyclic h1 ∧
        hasCycle 3 None h1 = Ok (false, h1).
Proof.
  assert (¬ rtc (fun a b => b ∈ dependenciesOf chainABCX a) 0 3) as Hnot.
  { intros [Heq|(y & Hy & _)]%rtc_inv; [lia|]. by apply elem_of_nil in Hy. }
  split; [apply chainABCX_wellFormed|]. split; [apply chainABCX_wellFormed|].
  split; [apply chainABCX_wellFormed|]. split; [exact Hnot|].
  eassert (addDependency 3 0 chainABCX = Ok _) as Hadd by (vm_compute; reflexivity).
  destruct (addDependency_keeps_the_graph_acyclic chainABCX _ 3 0
              (wf_closed _ chainABCX_wellFormed) (wf_symmetric _ chainABCX_wellFormed)
              (wf_acyclic _ chainABCX_wellFormed) Hnot Hadd)
    as (_ & _ & Hacyc & Hfalse).
  eexists. split; [exact Hadd|]. split; [right; left|]. split; [exact Hacyc|].
  apply Hfalse. simpl. lia.
Defined.

(** X19 on the single node. *)
Lemma edge_operations_on_a_missing_node_witness :
  closedEdges singleHeap ∧ 0 < length singleHeap ∧ length singleHeap ≤ 1 ∧
  addDependency 0 1 singleHeap = Throw TypeError ∧
  addDependent 0 1 singleHeap = Throw TypeError ∧
  removeDependent 0 1 singleHeap = Throw TypeError ∧
  removeDependency 0 1 singleHeap = Ok singleHeap.
Proof.
  assert (closedEdges singleHeap) as Hc
    by (apply edgesOkb_sound; vm_compute; reflexivity).
  split; [exact Hc|]. split; [simpl; lia|]. split; [simpl; lia|].
  apply (edge_operations_on_a_missing_node singleHeap 0 1 Hc); simpl; lia.
Defined.
